(** * The adaptive engine of the snake game (class [AIEngine]).

    A shallow embedding of [js/storageManager.js] (class [AIEngine], and
    the pure part of class [StorageManager]: validation, compression and
    decompression of snapshots), of the snapshot validator
    [isValidAIBehaviorData] of [js/types.js], of class [Snake], and of the
    two computations of [js/gameEngine.js] that use them
    ([calculateDangerLevel], [calculateMoveInterval]).

    Conventions of the embedding:
    - a JavaScript number that counts something (heatmap cells, pixel
      coordinates, streak counters, timestamps) is a [Z];
    - a JavaScript number that is the result of a division or that callers
      may set freely (scores, difficulty, intensities) is an exact rational
      [Q]; the rounding of IEEE doubles is not modelled;
    - an array is a [list], read with [!!] and written with [<[i:=v]>];
    - a method that mutates [this] is a function from engine to engine;
      [None] stands for a run that leaves the integer model (a [TypeError]
      on a missing row, or a [NaN] written into the heatmap);
    - [Date.now()] and [Math.random()] are inputs of the functions that
      call them. *)

From Stdlib Require Import ZArith QArith Qround Qminmax Lia Lqa.
From stdpp Require Import base option list strings sorting.

Local Open Scope Z_scope.

(** Comparisons of rationals are decided on the cross products. *)
#[global] Instance Qlt_decision (x y : Q) : Decision (x < y)%Q :=
  decide (Qnum x * QDen y < Qnum y * QDen x).
#[global] Instance Qle_decision (x y : Q) : Decision (x <= y)%Q :=
  decide (Qnum x * QDen y ≤ Qnum y * QDen x).
#[global] Instance Qeq_decision (x y : Q) : Decision (x == y)%Q :=
  decide (Qnum x * QDen y = Qnum y * QDen x).

(** ** Data model *)

Record Position := mkPosition { pos_x : Z; pos_y : Z }.

#[global] Instance Position_eq_dec : EqDecision Position.
Proof. solve_decision. Defined.

(** The optional third argument of [recordMovement]; a field that the
    caller left out is [None]. *)
Record GameContextArg := mkGameContextArg {
  arg_score : option Z;
  arg_snakeLength : option Z;
  arg_foodDistance : option Z
}.

Record GameContext := mkGameContext {
  score : Z;
  snakeLength : Z;
  foodDistance : Z
}.

Record MovementRecord := mkMovementRecord {
  timestamp : Z;
  position : Position;
  direction : string;
  gameContext : GameContext
}.

Record PerformanceMetrics := mkPerformanceMetrics {
  averageScore : Q;
  averageGameDuration : Q;
  recentScores : list Q;
  difficultyProgression : list Q;
  gameStartTime : option Z;
  totalGamesPlayed : Z;
  consecutiveHighPerformance : Z;
  consecutiveLowPerformance : Z
}.

Record AdaptationSettings := mkAdaptationSettings {
  currentDifficulty : Q;
  foodPlacementStrategy : string;
  visualIntensityLevel : Q
}.

Record AIEngine := mkAIEngine {
  gridSize : Z;
  canvasWidth : Z;
  canvasHeight : Z;
  movementHistory : list MovementRecord;
  maxHistorySize : Z;
  gridWidth : Z;
  gridHeight : Z;
  movementHeatmap : list (list Z);
  performanceMetrics : PerformanceMetrics;
  adaptationSettings : AdaptationSettings
}.

(** Field updates ([this.f = v]). *)

Definition set_movementHistory (h : list MovementRecord) (e : AIEngine) : AIEngine :=
  mkAIEngine (gridSize e) (canvasWidth e) (canvasHeight e) h (maxHistorySize e)
    (gridWidth e) (gridHeight e) (movementHeatmap e) (performanceMetrics e)
    (adaptationSettings e).

Definition set_movementHeatmap (hm : list (list Z)) (e : AIEngine) : AIEngine :=
  mkAIEngine (gridSize e) (canvasWidth e) (canvasHeight e) (movementHistory e)
    (maxHistorySize e) (gridWidth e) (gridHeight e) hm (performanceMetrics e)
    (adaptationSettings e).

Definition set_performanceMetrics (pm : PerformanceMetrics) (e : AIEngine) : AIEngine :=
  mkAIEngine (gridSize e) (canvasWidth e) (canvasHeight e) (movementHistory e)
    (maxHistorySize e) (gridWidth e) (gridHeight e) (movementHeatmap e) pm
    (adaptationSettings e).

Definition set_adaptationSettings (a : AdaptationSettings) (e : AIEngine) : AIEngine :=
  mkAIEngine (gridSize e) (canvasWidth e) (canvasHeight e) (movementHistory e)
    (maxHistorySize e) (gridWidth e) (gridHeight e) (movementHeatmap e)
    (performanceMetrics e) a.

Definition set_currentDifficulty (d : Q) (a : AdaptationSettings) : AdaptationSettings :=
  mkAdaptationSettings d (foodPlacementStrategy a) (visualIntensityLevel a).

Definition set_foodPlacementStrategy (s : string) (a : AdaptationSettings) : AdaptationSettings :=
  mkAdaptationSettings (currentDifficulty a) s (visualIntensityLevel a).

Definition set_visualIntensityLevel (v : Q) (a : AdaptationSettings) : AdaptationSettings :=
  mkAdaptationSettings (currentDifficulty a) (foodPlacementStrategy a) v.

Definition set_streaks (hi lo : Z) (pm : PerformanceMetrics) : PerformanceMetrics :=
  mkPerformanceMetrics (averageScore pm) (averageGameDuration pm) (recentScores pm)
    (difficultyProgression pm) (gameStartTime pm) (totalGamesPlayed pm) hi lo.

Definition set_difficultyProgression (p : list Q) (pm : PerformanceMetrics) : PerformanceMetrics :=
  mkPerformanceMetrics (averageScore pm) (averageGameDuration pm) (recentScores pm)
    p (gameStartTime pm) (totalGamesPlayed pm) (consecutiveHighPerformance pm)
    (consecutiveLowPerformance pm).

(** ** Construction *)

(** [initializeHeatmap]: [gridHeight] rows of [gridWidth] zeros. *)
Definition initializeHeatmap (w h : Z) : list (list Z) :=
  replicate (Z.to_nat h) (replicate (Z.to_nat w) 0).

(** [new AIEngine(gridSize, canvasWidth, canvasHeight)]; [Math.floor] of
    the quotient of two integers is [Z.div] (for a non-zero cell size). *)
Definition newAIEngine (gs cw ch : Z) : AIEngine :=
  let w := cw / gs in
  let h := ch / gs in
  mkAIEngine gs cw ch [] 1000 w h (initializeHeatmap w h)
    (mkPerformanceMetrics 0 0 [] [1%Q] None 0 0 0)
    (mkAdaptationSettings 1 "random" 1).

(** ** Spatial frequency model *)

(** [heatmap[y][x]] as a read. *)
Definition heat_cell (hm : list (list Z)) (x y : nat) : option Z :=
  row ← hm !! y; row !! x.

(** [updateHeatmapCell(position)]. The guard compares the grid index with
    [gridWidth] and [gridHeight]; behind it, [heatmap[gridY][gridX]++]
    needs the row and the cell to exist. *)
Definition updateHeatmapCell (pos : Position) (e : AIEngine) : option AIEngine :=
  let gridX := pos_x pos / gridSize e in
  let gridY := pos_y pos / gridSize e in
  if bool_decide (0 ≤ gridX ∧ gridX < gridWidth e ∧ 0 ≤ gridY ∧ gridY < gridHeight e)
  then
    row ← movementHeatmap e !! Z.to_nat gridY;
    cell ← row !! Z.to_nat gridX;
    Some (set_movementHeatmap
            (<[Z.to_nat gridY := <[Z.to_nat gridX := cell + 1]> row]> (movementHeatmap e)) e)
  else Some e.

(** ** Visual intensity *)

(** [array.slice(-n)]: the last [n] elements. *)
Definition slice_last {A} (n : nat) (l : list A) : list A :=
  drop (length l - n) l.

(** Number of indices [i >= 1] with [directions[i] !== directions[i-1]]. *)
Fixpoint directionChanges (ds : list string) : Z :=
  match ds with
  | d1 :: ((d2 :: _) as rest) =>
      (if bool_decide (d2 ≠ d1) then 1 else 0) + directionChanges rest
  | _ => 0
  end.

(** [updateVisualIntensityFromMovement]. *)
Definition updateVisualIntensityFromMovement (e : AIEngine) : AIEngine :=
  let recentMovements := slice_last 20 (movementHistory e) in
  if bool_decide (length recentMovements < 5)%nat then
    set_adaptationSettings (set_visualIntensityLevel 1 (adaptationSettings e)) e
  else
    let directions := direction <$> recentMovements in
    let uniqueDirections := remove_dups directions in
    let diversityRatio := (inject_Z (Z.of_nat (length uniqueDirections)) / 4)%Q in
    let changeRatio :=
      (inject_Z (directionChanges directions)
       / inject_Z (Z.of_nat (length directions) - 1))%Q in
    let intensityScore := (diversityRatio * 2 + changeRatio * 3)%Q in
    set_adaptationSettings
      (set_visualIntensityLevel
         (inject_Z (Z.max 1 (Z.min 5 (Qceiling intensityScore))))
         (adaptationSettings e)) e.

(** [Math.round]: the nearest integer, halves rounded up. *)
Definition js_round (q : Q) : Z := Qfloor (q + (1 # 2))%Q.

(** The difficulty-based modifier, [Math.ceil(currentDifficulty / 3.33)]. *)
Definition difficultyIntensityModifier (d : Q) : Z :=
  Qceiling (d / (333 # 100))%Q.

(** [updateVisualIntensityFromDifficulty]. *)
Definition updateVisualIntensityFromDifficulty (e : AIEngine) : AIEngine :=
  let currentDifficulty := currentDifficulty (adaptationSettings e) in
  let movementBasedIntensity := visualIntensityLevel (adaptationSettings e) in
  let modifier := difficultyIntensityModifier currentDifficulty in
  let combinedIntensity :=
    Z.min 5 (Z.max 1 (js_round ((movementBasedIntensity + inject_Z modifier) / 2)%Q)) in
  set_adaptationSettings
    (set_visualIntensityLevel (inject_Z combinedIntensity) (adaptationSettings e)) e.

(** ** Movement log *)

(** [v || dflt] on a number that may be missing: [undefined] and [0] are
    falsy. *)
Definition or_default (v : option Z) (dflt : Z) : Z :=
  match v with
  | Some z => if bool_decide (z = 0) then dflt else z
  | None => dflt
  end.

Definition makeMovementRecord (now : Z) (pos : Position) (dir : string)
    (ctx : GameContextArg) : MovementRecord :=
  mkMovementRecord now pos dir
    (mkGameContext (or_default (arg_score ctx) 0)
                   (or_default (arg_snakeLength ctx) 1)
                   (or_default (arg_foodDistance ctx) 0)).

(** [push] followed by the size check and [shift]. *)
Definition pushBounded (maxSize : Z) (r : MovementRecord)
    (h : list MovementRecord) : list MovementRecord :=
  let h' := h ++ [r] in
  if bool_decide (Z.of_nat (length h') > maxSize) then drop 1 h' else h'.

(** [recordMovement(position, direction, gameContext)], called at time
    [now]. *)
Definition recordMovement (now : Z) (pos : Position) (dir : string)
    (ctx : GameContextArg) (e : AIEngine) : option AIEngine :=
  let movementRecord := makeMovementRecord now pos dir ctx in
  let e1 := set_movementHistory
              (pushBounded (maxHistorySize e) movementRecord (movementHistory e)) e in
  e2 ← updateHeatmapCell pos e1;
  Some (updateVisualIntensityFromMovement e2).

(** ** Sorting *)

(** [Array.prototype.sort(compare)] is a stable sort: an element stays in
    front of a later one unless [compare] is positive on the pair.
    [before a b] stands for [compare(a, b) <= 0]. *)
Fixpoint sort_insert {A} (before : A → A → bool) (a : A) (l : list A) : list A :=
  match l with
  | [] => [a]
  | b :: l' => if before a b then a :: b :: l' else b :: sort_insert before a l'
  end.

Definition js_sort {A} (before : A → A → bool) (l : list A) : list A :=
  foldr (sort_insert before) [] l.

(** ** Pattern analyzer *)

(** The object literal [{ up: 0, down: 0, left: 0, right: 0 }], in the
    order of its keys. *)
Definition emptyDirectionCounts : list (string * Z) :=
  [("up", 0); ("down", 0); ("left", 0); ("right", 0)].

(** [counts[key]] for an own property [key] (0 is never read for a
    missing key: every caller passes a key of the object). *)
Fixpoint count_of (counts : list (string * Z)) (key : string) : Z :=
  match counts with
  | [] => 0
  | (k, v) :: rest => if bool_decide (k = key) then v else count_of rest key
  end.

(** [if (counts.hasOwnProperty(key)) counts[key]++]. *)
Definition count_direction (counts : list (string * Z)) (key : string)
    : list (string * Z) :=
  (λ kv, if bool_decide (kv.1 = key) then (kv.1, kv.2 + 1) else kv) <$> counts.

(** The object that [analyzeMovementPatterns] returns. The early return
    has no [directionCounts] and no [totalMovements] property, the normal
    return has no [averageGameDuration]: a missing property is [None]. *)
Record MovementAnalysis := mkMovementAnalysis {
  dominantDirections : list string;
  analysis_averageGameDuration : option Q;
  directionCounts : option (list (string * Z));
  movementDiversity : Q;
  totalMovements : option Z
}.

Definition analyzeMovementPatterns (e : AIEngine) : MovementAnalysis :=
  if bool_decide (length (movementHistory e) < 10)%nat then
    mkMovementAnalysis [] (Some 0%Q) None 0 None
  else
    let directionCounts :=
      foldl (λ counts record, count_direction counts (direction record))
            emptyDirectionCounts (movementHistory e) in
    let totalMoves := Z.of_nat (length (movementHistory e)) in
    let averageUsage := (inject_Z totalMoves / 4)%Q in
    let dominantDirections :=
      js_sort (λ a b, bool_decide (count_of directionCounts b - count_of directionCounts a ≤ 0))
        (filter (λ dir, (averageUsage < inject_Z (count_of directionCounts dir))%Q)
                (directionCounts.*1)) in
    let uniqueDirections :=
      length (filter (λ count, 0 < count) (directionCounts.*2)) in
    let movementDiversity := (inject_Z (Z.of_nat uniqueDirections) / 4)%Q in
    mkMovementAnalysis dominantDirections None (Some directionCounts)
      movementDiversity (Some totalMoves).

(** ** Placement strategist *)

Definition getStrategyByDifficulty (difficulty : Q) : string :=
  if bool_decide (7 <= difficulty)%Q then "challenging"
  else if bool_decide (difficulty <= 3)%Q then "accessible"
  else "random".

(** [v < n] where [v] may be [undefined]: the comparison with [undefined]
    is false. *)
Definition js_lt_opt (v : option Z) (n : Z) : bool :=
  match v with
  | Some z => bool_decide (z < n)
  | None => false
  end.

(** [determinePlacementStrategy]: the strategy it returns and the engine
    it leaves (the cold-start return does not store the strategy). *)
Definition determinePlacementStrategy (e : AIEngine) : string * AIEngine :=
  let movementAnalysis := analyzeMovementPatterns e in
  let currentDifficulty := currentDifficulty (adaptationSettings e) in
  if js_lt_opt (totalMovements movementAnalysis) 20 then
    (getStrategyByDifficulty currentDifficulty, e)
  else
    let strategy :=
      if bool_decide (movementDiversity movementAnalysis < 6 # 10)%Q then "challenging"
      else if bool_decide (8 # 10 < movementDiversity movementAnalysis)%Q then "accessible"
      else getStrategyByDifficulty currentDifficulty in
    let strategy :=
      if bool_decide (7 <= currentDifficulty)%Q then "challenging"
      else if bool_decide (currentDifficulty <= 2)%Q then
        (if bool_decide (strategy = "challenging") then "random" else strategy)
      else strategy in
    (strategy,
     set_adaptationSettings (set_foodPlacementStrategy strategy (adaptationSettings e)) e).

(** ** Normalized heatmap, coldspots *)

(** The nested loops [for y < gridHeight, for x < gridWidth] over
    [movementHeatmap[y][x]]: the cells they read, row by row. *)
Definition scanHeatmap (e : AIEngine) : option (list (list Z)) :=
  mapM (λ y, mapM (λ x, heat_cell (movementHeatmap e) x y)
                  (seq 0 (Z.to_nat (gridWidth e))))
       (seq 0 (Z.to_nat (gridHeight e))).

(** [generateHeatmap]: first pass for the maximum, second pass for the
    quotients. *)
Definition normalizeCell (maxValue v : Z) : Q :=
  if bool_decide (0 < maxValue) then (inject_Z v / inject_Z maxValue)%Q else 0%Q.

Definition generateHeatmap (e : AIEngine) : option (list (list Q)) :=
  cells ← scanHeatmap e;
  let maxValue := foldl Z.max 0 (mjoin cells) in
  Some (fmap (M := list) (fmap (M := list) (normalizeCell maxValue)) cells).

Record Spot := mkSpot {
  spot_x : Z;
  spot_y : Z;
  spot_gridX : Z;
  spot_gridY : Z;
  spot_intensity : Q;
  spot_rawCount : Z
}.

(** Grid indices in scan order (rows outside, columns inside). *)
Definition gridIndices (e : AIEngine) : list (nat * nat) :=
  y ← seq 0 (Z.to_nat (gridHeight e));
  x ← seq 0 (Z.to_nat (gridWidth e));
  [(x, y)].

(** The object pushed for cell [(x, y)] by [getHotspots]/[getColdspots]. *)
Definition spotAt (e : AIEngine) (normalizedHeatmap : list (list Q))
    (xy : nat * nat) : option Spot :=
  let '(x, y) := xy in
  intensity ← (row ← normalizedHeatmap !! y; row !! x);
  rawCount ← heat_cell (movementHeatmap e) x y;
  Some (mkSpot (Z.of_nat x * gridSize e) (Z.of_nat y * gridSize e)
               (Z.of_nat x) (Z.of_nat y) intensity rawCount).

(** [getColdspots(threshold)]. *)
Definition getColdspots (threshold : Q) (e : AIEngine) : option (list Spot) :=
  normalizedHeatmap ← generateHeatmap e;
  spots ← mapM (spotAt e normalizedHeatmap) (gridIndices e);
  let coldspots := filter (λ s, (spot_intensity s <= threshold)%Q) spots in
  Some (js_sort (λ a b, bool_decide (spot_intensity a - spot_intensity b <= 0)%Q) coldspots).

(** [getHotspots(threshold)]. *)
Definition getHotspots (threshold : Q) (e : AIEngine) : option (list Spot) :=
  normalizedHeatmap ← generateHeatmap e;
  spots ← mapM (spotAt e normalizedHeatmap) (gridIndices e);
  let hotspots := filter (λ s, (threshold <= spot_intensity s)%Q) spots in
  Some (js_sort (λ a b, bool_decide (spot_intensity b - spot_intensity a <= 0)%Q) hotspots).

(** ** Cell resolution *)

(** [excludePositions.some(pos => pos.x === x && pos.y === y)]. *)
Definition isExcluded (excludePositions : list Position) (x y : Z) : bool :=
  existsb (λ pos, bool_decide (pos_x pos = x ∧ pos_y pos = y)) excludePositions.

(** [Math.floor(Math.random() * n)] for the draw [r]. *)
Definition randomIndex (r : Q) (n : Z) : Z := Qfloor (r * inject_Z n)%Q.

(** The [while (attempts < maxAttempts)] loop of [getRandomFoodPosition]
    with [remaining = maxAttempts - attempts] rounds to go; round
    [attempts] uses the draws [2 * attempts] and [2 * attempts + 1]. *)
Fixpoint randomFoodLoop (remaining attempts : nat) (excludePositions : list Position)
    (rnd : nat → Q) (e : AIEngine) : Position :=
  match remaining with
  | O => mkPosition 0 0
  | S remaining' =>
      let x := randomIndex (rnd (2 * attempts)%nat) (gridWidth e) * gridSize e in
      let y := randomIndex (rnd (2 * attempts + 1)%nat) (gridHeight e) * gridSize e in
      if isExcluded excludePositions x y
      then randomFoodLoop remaining' (S attempts) excludePositions rnd e
      else mkPosition x y
  end.

Definition maxAttempts : nat := 100.

(** [getRandomFoodPosition(excludePositions)]; [rnd k] is the value of the
    [k]-th call of [Math.random()]. *)
Definition getRandomFoodPosition (excludePositions : list Position)
    (rnd : nat → Q) (e : AIEngine) : Position :=
  randomFoodLoop maxAttempts 0 excludePositions rnd e.

(** [getChallengingFoodPosition(excludePositions)]. Reading [.x] of a
    missing array element is a [TypeError]. *)
Definition getChallengingFoodPosition (excludePositions : list Position)
    (rnd : nat → Q) (e : AIEngine) : option Position :=
  coldspots ← getColdspots (3 # 10) e;
  let validColdspots :=
    filter (λ spot, ¬ isExcluded excludePositions (spot_x spot) (spot_y spot)) coldspots in
  if bool_decide (0 < length validColdspots)%nat then
    let topColdspots :=
      take (Z.to_nat (Z.max 1 (Qfloor (inject_Z (Z.of_nat (length validColdspots)) * (3 # 10))%Q)))
           validColdspots in
    let i := randomIndex (rnd 0%nat) (Z.of_nat (length topColdspots)) in
    if bool_decide (0 ≤ i) then
      spot ← topColdspots !! Z.to_nat i;
      Some (mkPosition (spot_x spot) (spot_y spot))
    else None
  else Some (getRandomFoodPosition excludePositions rnd e).

(** [getAccessibleFoodPosition(excludePositions)]. An index outside
    [accessibleSpots] would return [undefined]. *)
Definition getAccessibleFoodPosition (excludePositions : list Position)
    (rnd : nat → Q) (e : AIEngine) : option Position :=
  normalizedHeatmap ← generateHeatmap e;
  cells ← mapM (λ xy : nat * nat,
                  intensity ← (row ← normalizedHeatmap !! xy.2; row !! xy.1);
                  Some (xy, intensity)) (gridIndices e);
  let accessibleSpots :=
    (λ c : nat * nat * Q,
       mkPosition (Z.of_nat c.1.1 * gridSize e) (Z.of_nat c.1.2 * gridSize e))
    <$> filter (λ c : nat * nat * Q,
                  ((2 # 10 <= c.2)%Q ∧ (c.2 <= 6 # 10)%Q)
                  ∧ ¬ isExcluded excludePositions
                        (Z.of_nat c.1.1 * gridSize e) (Z.of_nat c.1.2 * gridSize e))
               cells in
  if bool_decide (0 < length accessibleSpots)%nat then
    let i := randomIndex (rnd 0%nat) (Z.of_nat (length accessibleSpots)) in
    if bool_decide (0 ≤ i) then accessibleSpots !! Z.to_nat i else None
  else Some (getRandomFoodPosition excludePositions rnd e).

(** [suggestFoodPlacement(excludePositions)]: the cell and the engine
    after the call. *)
Definition suggestFoodPlacement (excludePositions : list Position)
    (rnd : nat → Q) (e : AIEngine) : option (Position * AIEngine) :=
  let '(strategy, e') := determinePlacementStrategy e in
  pos ← (if bool_decide (strategy = "challenging")
         then getChallengingFoodPosition excludePositions rnd e'
         else if bool_decide (strategy = "accessible")
         then getAccessibleFoodPosition excludePositions rnd e'
         else Some (getRandomFoodPosition excludePositions rnd e'));
  Some (pos, e').

(** ** Performance and difficulty controller *)

(** [scores.reduce((sum, score) => sum + score, 0)]. *)
Definition sumScores (scores : list Q) : Q := foldl Qplus 0%Q scores.

Definition averageRecentScore (pm : PerformanceMetrics) : Q :=
  (sumScores (recentScores pm) / inject_Z (Z.of_nat (length (recentScores pm))))%Q.

Definition scoreThreshold (pm : PerformanceMetrics) : Q :=
  Qmax 50 (averageScore pm * (8 # 10))%Q.

Definition highPerformanceThreshold (pm : PerformanceMetrics) : Q :=
  (scoreThreshold pm * (3 # 2))%Q.

Definition lowPerformanceThreshold (pm : PerformanceMetrics) : Q :=
  (scoreThreshold pm * (1 # 2))%Q.

(** [calculateDifficulty]: the engine after the call; the value returned
    is the [currentDifficulty] of that engine. *)
Definition calculateDifficulty (e : AIEngine) : AIEngine :=
  let pm := performanceMetrics e in
  if bool_decide (length (recentScores pm) < 3)%nat then e
  else
    let currentDifficulty := currentDifficulty (adaptationSettings e) in
    let '(newDifficulty, pm') :=
      if bool_decide (highPerformanceThreshold pm <= averageRecentScore pm)%Q then
        let high := consecutiveHighPerformance pm + 1 in
        if bool_decide (3 ≤ high) && bool_decide (currentDifficulty < 10)%Q
        then (Qmin 10 (currentDifficulty + 1), set_streaks 0 0 pm)
        else (currentDifficulty, set_streaks high 0 pm)
      else if bool_decide (averageRecentScore pm <= lowPerformanceThreshold pm)%Q then
        let low := consecutiveLowPerformance pm + 1 in
        if bool_decide (3 ≤ low) && bool_decide (1 < currentDifficulty)%Q
        then (Qmax 1 (currentDifficulty - 1), set_streaks 0 0 pm)
        else (currentDifficulty, set_streaks 0 low pm)
      else (currentDifficulty, set_streaks 0 0 pm) in
    if bool_decide (¬ (newDifficulty == currentDifficulty)%Q) then
      updateVisualIntensityFromDifficulty
        (set_adaptationSettings
           (set_currentDifficulty newDifficulty (adaptationSettings e))
           (set_performanceMetrics
              (set_difficultyProgression (difficultyProgression pm' ++ [newDifficulty]) pm')
              e))
    else set_performanceMetrics pm' e.

Definition calculateDifficulty_result (e : AIEngine) : Q :=
  currentDifficulty (adaptationSettings (calculateDifficulty e)).

(** [startGameSession], called at time [now]. *)
Definition startGameSession (now : Z) (e : AIEngine) : AIEngine :=
  let pm := performanceMetrics e in
  set_performanceMetrics
    (mkPerformanceMetrics (averageScore pm) (averageGameDuration pm) (recentScores pm)
       (difficultyProgression pm) (Some now) (totalGamesPlayed pm)
       (consecutiveHighPerformance pm) (consecutiveLowPerformance pm)) e.

(** [endGameSession(finalScore)], called at time [now]. A start time of
    [0] is as falsy as [null]. *)
Definition endGameSession (now : Z) (finalScore : Q) (e : AIEngine) : AIEngine :=
  let pm := performanceMetrics e in
  let gameDuration :=
    match gameStartTime pm with
    | Some t => if bool_decide (t = 0) then 0 else now - t
    | None => 0
    end in
  let totalGames := totalGamesPlayed pm + 1 in
  let pushed := recentScores pm ++ [finalScore] in
  let allScores := if bool_decide (5 < length pushed)%nat then drop 1 pushed else pushed in
  let average :=
    if bool_decide (0 < length allScores)%nat
    then (sumScores allScores / inject_Z (Z.of_nat (length allScores)))%Q else 0%Q in
  let duration :=
    if bool_decide (0 < gameDuration)
    then ((averageGameDuration pm * inject_Z (totalGames - 1) + inject_Z gameDuration)
          / inject_Z totalGames)%Q
    else averageGameDuration pm in
  calculateDifficulty
    (set_performanceMetrics
       (mkPerformanceMetrics average duration allScores (difficultyProgression pm)
          None totalGames (consecutiveHighPerformance pm) (consecutiveLowPerformance pm))
       e).

(** [setDifficulty(difficulty)]. *)
Definition setDifficulty (difficulty : Q) (e : AIEngine) : AIEngine :=
  if bool_decide ((1 <= difficulty)%Q ∧ (difficulty <= 10)%Q) then
    set_performanceMetrics
      (set_difficultyProgression
         (difficultyProgression (performanceMetrics e) ++ [difficulty])
         (performanceMetrics e))
      (set_adaptationSettings (set_currentDifficulty difficulty (adaptationSettings e)) e)
  else e.

Definition getCurrentDifficulty (e : AIEngine) : Q :=
  currentDifficulty (adaptationSettings e).

(** ** Snapshots *)

(** A snapshot as [loadBehaviorData] receives it. Each of the three
    sections, and each property of a section, may be missing ([None]);
    a property that is present holds a value of the documented type. *)
Record PerformanceMetricsData := mkPerformanceMetricsData {
  data_averageScore : option Q;
  data_averageGameDuration : option Q;
  data_recentScores : option (list Q);
  data_difficultyProgression : option (list Q);
  data_gameStartTime : option (option Z);
  data_totalGamesPlayed : option Z;
  data_consecutiveHighPerformance : option Z;
  data_consecutiveLowPerformance : option Z
}.

Record AdaptationSettingsData := mkAdaptationSettingsData {
  data_currentDifficulty : option Q;
  data_foodPlacementStrategy : option string;
  data_visualIntensityLevel : option Q
}.

Record BehaviorData := mkBehaviorData {
  data_movementHeatmap : option (list (list Z));
  data_performanceMetrics : option PerformanceMetricsData;
  data_adaptationSettings : option AdaptationSettingsData
}.

(** The spread [{ ...current, ...loaded }]: a property of [loaded] wins. *)
Definition mergePerformanceMetrics (pm : PerformanceMetrics)
    (d : PerformanceMetricsData) : PerformanceMetrics :=
  mkPerformanceMetrics
    (default (averageScore pm) (data_averageScore d))
    (default (averageGameDuration pm) (data_averageGameDuration d))
    (default (recentScores pm) (data_recentScores d))
    (default (difficultyProgression pm) (data_difficultyProgression d))
    (default (gameStartTime pm) (data_gameStartTime d))
    (default (totalGamesPlayed pm) (data_totalGamesPlayed d))
    (default (consecutiveHighPerformance pm) (data_consecutiveHighPerformance d))
    (default (consecutiveLowPerformance pm) (data_consecutiveLowPerformance d)).

Definition mergeAdaptationSettings (a : AdaptationSettings)
    (d : AdaptationSettingsData) : AdaptationSettings :=
  mkAdaptationSettings
    (default (currentDifficulty a) (data_currentDifficulty d))
    (default (foodPlacementStrategy a) (data_foodPlacementStrategy d))
    (default (visualIntensityLevel a) (data_visualIntensityLevel d)).

(** [loadBehaviorData(data)]; the method returns nothing. *)
Definition loadBehaviorData (data : BehaviorData) (e : AIEngine) : AIEngine :=
  let e1 :=
    match data_movementHeatmap data with
    | Some hm => set_movementHeatmap hm e
    | None => e
    end in
  let e2 :=
    match data_performanceMetrics data with
    | Some d => set_performanceMetrics (mergePerformanceMetrics (performanceMetrics e1) d) e1
    | None => e1
    end in
  match data_adaptationSettings data with
  | Some d => set_adaptationSettings (mergeAdaptationSettings (adaptationSettings e2) d) e2
  | None => e2
  end.

(** [getBehaviorData]. *)
Definition getBehaviorData (e : AIEngine) : BehaviorData :=
  let pm := performanceMetrics e in
  let a := adaptationSettings e in
  mkBehaviorData (Some (movementHeatmap e))
    (Some (mkPerformanceMetricsData (Some (averageScore pm)) (Some (averageGameDuration pm))
             (Some (recentScores pm)) (Some (difficultyProgression pm))
             (Some (gameStartTime pm)) (Some (totalGamesPlayed pm))
             (Some (consecutiveHighPerformance pm)) (Some (consecutiveLowPerformance pm))))
    (Some (mkAdaptationSettingsData (Some (currentDifficulty a))
             (Some (foodPlacementStrategy a)) (Some (visualIntensityLevel a)))).

(** [isValidAIBehaviorData(obj)] of [js/types.js] on such a snapshot: the
    [typeof] and [Array.isArray] tests hold exactly for the properties that
    are present. *)
Definition isValidAIBehaviorData (obj : BehaviorData) : bool :=
  match data_movementHeatmap obj, data_performanceMetrics obj, data_adaptationSettings obj with
  | Some _, Some pm, Some a =>
      bool_decide (is_Some (data_averageScore pm))
      && bool_decide (is_Some (data_averageGameDuration pm))
      && bool_decide (is_Some (data_recentScores pm))
      && bool_decide (is_Some (data_difficultyProgression pm))
      && bool_decide (is_Some (data_currentDifficulty a))
      && match data_foodPlacementStrategy a with
         | Some s => bool_decide (s ∈ ["random"; "challenging"; "accessible"])
         | None => false
         end
      && bool_decide (is_Some (data_visualIntensityLevel a))
  | _, _, _ => false
  end.

(** ** Invariants and auxiliary notions used in the statements *)

(** The heatmap has [gridHeight] rows of [gridWidth] cells, as
    [initializeHeatmap] builds it. *)
Definition heatmap_shape (e : AIEngine) : Prop :=
  length (movementHeatmap e) = Z.to_nat (gridHeight e)
  ∧ Forall (λ row, length row = Z.to_nat (gridWidth e)) (movementHeatmap e).

Definition heatmap_nonneg (hm : list (list Z)) : Prop :=
  Forall (Forall (λ c, 0 ≤ c)) hm.

(** The cell size is positive (so that [Z.div] is [Math.floor] of the
    quotient) and the heatmap has its shape. *)
Definition well_formed (e : AIEngine) : Prop :=
  0 < gridSize e ∧ heatmap_shape e.

(** The grid index of a position, and the bounds test of
    [updateHeatmapCell]. *)
Definition gridIndex (e : AIEngine) (pos : Position) : Z * Z :=
  (pos_x pos / gridSize e, pos_y pos / gridSize e).

Definition in_bounds (e : AIEngine) (pos : Position) : Prop :=
  0 ≤ (gridIndex e pos).1 ∧ (gridIndex e pos).1 < gridWidth e
  ∧ 0 ≤ (gridIndex e pos).2 ∧ (gridIndex e pos).2 < gridHeight e.

(** One call of [recordMovement]: the clock at the call and the three
    arguments. *)
Record Movement := mkMovement {
  move_now : Z;
  move_position : Position;
  move_direction : string;
  move_context : GameContextArg
}.

Definition recordOf (m : Movement) : MovementRecord :=
  makeMovementRecord (move_now m) (move_position m) (move_direction m) (move_context m).

(** A sequence of calls of [recordMovement], first call first. *)
Fixpoint recordMovements (ms : list Movement) (e : AIEngine) : option AIEngine :=
  match ms with
  | [] => Some e
  | m :: ms' =>
      e' ← recordMovement (move_now m) (move_position m) (move_direction m)
             (move_context m) e;
      recordMovements ms' e'
  end.

(** How often a direction occurs in a movement history. *)
Definition occurrences (d : string) (h : list MovementRecord) : Z :=
  Z.of_nat (length (filter (λ r, direction r = d) h)).

Definition fourDirections : list string := ["up"; "down"; "left"; "right"].

(** The direction counts of a history, as the counting loop leaves them. *)
Definition countsOf (h : list MovementRecord) : list (string * Z) :=
  [("up", 0 + occurrences "up" h); ("down", 0 + occurrences "down" h);
   ("left", 0 + occurrences "left" h); ("right", 0 + occurrences "right" h)].

(** The cell that round [attempt] of the loop of [getRandomFoodPosition]
    draws. *)
Definition drawnCell (rnd : nat → Q) (attempt : nat) (e : AIEngine) : Position :=
  mkPosition (randomIndex (rnd (2 * attempt)%nat) (gridWidth e) * gridSize e)
             (randomIndex (rnd (2 * attempt + 1)%nat) (gridHeight e) * gridSize e).

(** [Math.random()] returns a number in [0, 1). *)
Definition unit_interval (rnd : nat → Q) : Prop :=
  ∀ k, (0 <= rnd k)%Q ∧ (rnd k < 1)%Q.

(** An evaluation of [calculateDifficulty] is one of high performance
    when it has its three scores and their mean reaches the high
    threshold, of low performance when the mean is at or below the low
    threshold. *)
Definition high_performance (e : AIEngine) : Prop :=
  (3 ≤ length (recentScores (performanceMetrics e)))%nat
  ∧ (highPerformanceThreshold (performanceMetrics e)
     <= averageRecentScore (performanceMetrics e))%Q.

Definition low_performance (e : AIEngine) : Prop :=
  (3 ≤ length (recentScores (performanceMetrics e)))%nat
  ∧ (averageRecentScore (performanceMetrics e)
     <= lowPerformanceThreshold (performanceMetrics e))%Q.

(** The engine [e2] carries the difficulty and the two streak counters of
    [e1]; scores and averages may differ. *)
Definition carries_controller (e1 e2 : AIEngine) : Prop :=
  currentDifficulty (adaptationSettings e2) = currentDifficulty (adaptationSettings e1)
  ∧ consecutiveHighPerformance (performanceMetrics e2)
    = consecutiveHighPerformance (performanceMetrics e1)
  ∧ consecutiveLowPerformance (performanceMetrics e2)
    = consecutiveLowPerformance (performanceMetrics e1).

(** The difficulty levels of the data model. *)
Definition difficulty_in_range (d : Q) : Prop := (1 <= d)%Q ∧ (d <= 10)%Q.

Definition is_integer (q : Q) : Prop := ∃ z : Z, (q == inject_Z z)%Q.

(** The engines that the game can reach from the constructor without
    loading a snapshot. *)
Inductive reachable : AIEngine → Prop :=
  | reachable_new gs cw ch :
      reachable (newAIEngine gs cw ch)
  | reachable_setDifficulty d e :
      reachable e → reachable (setDifficulty d e)
  | reachable_calculateDifficulty e :
      reachable e → reachable (calculateDifficulty e)
  | reachable_startGameSession now e :
      reachable e → reachable (startGameSession now e)
  | reachable_endGameSession now finalScore e :
      reachable e → reachable (endGameSession now finalScore e)
  | reachable_recordMovement now pos dir ctx e e' :
      reachable e → recordMovement now pos dir ctx e = Some e' → reachable e'
  | reachable_suggestFoodPlacement excl rnd e pos e' :
      reachable e → suggestFoodPlacement excl rnd e = Some (pos, e') → reachable e'.

(** A snapshot that carries nothing but recent scores, and one that
    carries nothing but a difficulty. *)
Definition scoresOnly (scores : list Q) : BehaviorData :=
  mkBehaviorData None
    (Some (mkPerformanceMetricsData None None (Some scores) None None None None None))
    None.

Definition difficultyOnly (d : Q) : BehaviorData :=
  mkBehaviorData None None (Some (mkAdaptationSettingsData (Some d) None None)).

(** ** Further methods of the engine *)

(** [getRawHeatmap]: a copy of the rows. *)
Definition getRawHeatmap (e : AIEngine) : list (list Z) :=
  (λ row : list Z, row) <$> movementHeatmap e.

(** [resetHeatmap]. *)
Definition resetHeatmap (e : AIEngine) : AIEngine :=
  set_movementHeatmap (initializeHeatmap (gridWidth e) (gridHeight e)) e.

(** The object that [getHeatmapStatistics] returns. [coverage] divides by
    the number of cells: [None] is the [NaN] of an empty grid. *)
Record HeatmapStatistics := mkHeatmapStatistics {
  stat_totalMoves : Z;
  stat_maxValue : Z;
  stat_minValue : Z;
  stat_averageValue : Q;
  stat_coverage : option Q;
  stat_nonZeroCells : Z;
  stat_totalCells : Z
}.

(** The four running values of the loop of [getHeatmapStatistics]:
    [totalMoves], [maxValue], [minValue] ([None] for [Infinity]) and
    [nonZeroCells]; one round of the loop body. *)
Definition statisticsStep (acc : Z * Z * option Z * Z) (value : Z)
    : Z * Z * option Z * Z :=
  let '(totalMoves, maxValue, minValue, nonZeroCells) := acc in
  (totalMoves + value,
   Z.max maxValue value,
   if bool_decide (0 < value)
   then Some (match minValue with None => value | Some m => Z.min m value end)
   else minValue,
   if bool_decide (0 < value) then nonZeroCells + 1 else nonZeroCells).

(** [getHeatmapStatistics]. *)
Definition getHeatmapStatistics (e : AIEngine) : option HeatmapStatistics :=
  cells ← scanHeatmap e;
  let '(totalMoves, maxValue, minValue, nonZeroCells) :=
    foldl statisticsStep (0, 0, None, 0) (mjoin cells) in
  let totalCells := gridWidth e * gridHeight e in
  let coverage :=
    if bool_decide (totalCells = 0) then None
    else Some (inject_Z nonZeroCells / inject_Z totalCells)%Q in
  let averageValue :=
    if bool_decide (0 < nonZeroCells)
    then (inject_Z totalMoves / inject_Z nonZeroCells)%Q else 0%Q in
  Some (mkHeatmapStatistics totalMoves maxValue (default 0 minValue) averageValue
          coverage nonZeroCells totalCells).

(** [updateFoodPlacementStrategy(strategy)]. *)
Definition updateFoodPlacementStrategy (strategy : string) (e : AIEngine) : AIEngine :=
  if bool_decide (strategy ∈ ["random"; "challenging"; "accessible"]) then
    set_adaptationSettings (set_foodPlacementStrategy strategy (adaptationSettings e)) e
  else e.

Definition getFoodPlacementStrategy (e : AIEngine) : string :=
  foodPlacementStrategy (adaptationSettings e).

(** [updateVisualIntensity]: the engine after the call; the value returned
    is its [visualIntensityLevel]. *)
Definition updateVisualIntensity (e : AIEngine) : AIEngine :=
  updateVisualIntensityFromDifficulty (updateVisualIntensityFromMovement e).

(** The sum of all counters of a heatmap. *)
Definition heatmapTotal (hm : list (list Z)) : Z := foldr Z.add 0 (mjoin hm).

(** What the loop keeps true of its four running values while the
    counters it reads are non-negative. *)
Definition statistics_invariant (acc : Z * Z * option Z * Z) : Prop :=
  let '(t, mx, mn, nz) := acc in
  0 ≤ mx ∧ 0 ≤ nz
  ∧ match mn with
    | None => nz = 0 ∧ t = 0 ∧ mx = 0
    | Some m => 1 ≤ m ∧ m ≤ mx ∧ 1 ≤ nz ∧ m * nz ≤ t ∧ t ≤ mx * nz
    end.

(** The spot of grid index [xy] on a heatmap without any recorded move. *)
Definition zeroSpot (e : AIEngine) (xy : nat * nat) : Spot :=
  mkSpot (Z.of_nat xy.1 * gridSize e) (Z.of_nat xy.2 * gridSize e)
         (Z.of_nat xy.1) (Z.of_nat xy.2) 0 0.

Definition heatmap_zero (hm : list (list Z)) : Prop :=
  Forall (Forall (λ c, c = 0)) hm.

(** A position is the corner of a cell of the grid. *)
Definition is_grid_cell (e : AIEngine) (pos : Position) : Prop :=
  ∃ i j : Z,
    0 ≤ i < gridWidth e ∧ 0 ≤ j < gridHeight e
    ∧ pos = mkPosition (i * gridSize e) (j * gridSize e).

(** A sequence of game sessions: for each one the clock at its end and
    the final score, first session first. *)
Definition endGameSessions (sessions : list (Z * Q)) (e : AIEngine) : AIEngine :=
  foldl (λ e session, endGameSession session.1 session.2 e) e sessions.

(** The score that [updateVisualIntensityFromMovement] computes from the
    directions of the recent movements: twice the share of distinct
    directions plus three times the share of direction changes. *)
Definition intensityScoreOf (directions : list string) : Q :=
  (inject_Z (Z.of_nat (length (remove_dups directions))) / 4 * 2
   + inject_Z (directionChanges directions)
     / inject_Z (Z.of_nat (length directions) - 1) * 3)%Q.

(** The engines that calls of the public methods reach from the
    constructor (with a positive cell size), [loadBehaviorData] apart. *)
Inductive engine_run : AIEngine → Prop :=
  | run_new gs cw ch :
      0 < gs → engine_run (newAIEngine gs cw ch)
  | run_recordMovement now pos dir ctx e e' :
      engine_run e → recordMovement now pos dir ctx e = Some e' → engine_run e'
  | run_suggestFoodPlacement excl rnd e pos e' :
      engine_run e → suggestFoodPlacement excl rnd e = Some (pos, e') → engine_run e'
  | run_determinePlacementStrategy e :
      engine_run e → engine_run (determinePlacementStrategy e).2
  | run_updateFoodPlacementStrategy strategy e :
      engine_run e → engine_run (updateFoodPlacementStrategy strategy e)
  | run_setDifficulty d e :
      engine_run e → engine_run (setDifficulty d e)
  | run_calculateDifficulty e :
      engine_run e → engine_run (calculateDifficulty e)
  | run_startGameSession now e :
      engine_run e → engine_run (startGameSession now e)
  | run_endGameSession now finalScore e :
      engine_run e → engine_run (endGameSession now finalScore e)
  | run_resetHeatmap e :
      engine_run e → engine_run (resetHeatmap e)
  | run_updateVisualIntensity e :
      engine_run e → engine_run (updateVisualIntensity e)
  | run_updateVisualIntensityFromMovement e :
      engine_run e → engine_run (updateVisualIntensityFromMovement e)
  | run_updateVisualIntensityFromDifficulty e :
      engine_run e → engine_run (updateVisualIntensityFromDifficulty e).

(** The invariants of the data model, by part of the state. *)
Definition grid_invariant (e : AIEngine) : Prop :=
  well_formed e ∧ heatmap_nonneg (movementHeatmap e)
  ∧ maxHistorySize e = 1000
  ∧ Z.of_nat (length (movementHistory e)) ≤ 1000.

Definition metrics_invariant (pm : PerformanceMetrics) : Prop :=
  (length (recentScores pm) ≤ 5)%nat
  ∧ 0 ≤ consecutiveHighPerformance pm ∧ 0 ≤ consecutiveLowPerformance pm
  ∧ (consecutiveHighPerformance pm = 0 ∨ consecutiveLowPerformance pm = 0)
  ∧ 0 ≤ totalGamesPlayed pm.

Definition settings_invariant (a : AdaptationSettings) : Prop :=
  foodPlacementStrategy a ∈ ["random"; "challenging"; "accessible"]
  ∧ (∃ level : Z, visualIntensityLevel a = inject_Z level ∧ 1 ≤ level ≤ 5)
  ∧ difficulty_in_range (currentDifficulty a).

Definition engine_invariant (e : AIEngine) : Prop :=
  grid_invariant e
  ∧ metrics_invariant (performanceMetrics e)
  ∧ settings_invariant (adaptationSettings e)
  ∧ last (difficultyProgression (performanceMetrics e))
    = Some (currentDifficulty (adaptationSettings e)).

(** ** Stored snapshots (class [StorageManager]) *)

(** An entry [{ x, y, value }] of the sparse form of a heatmap. *)
Record SparseCell := mkSparseCell {
  cell_x : nat;
  cell_y : nat;
  cell_value : Z
}.

(** [{ sparse, dimensions: { width, height } }]. *)
Record SparseHeatmap := mkSparseHeatmap {
  sparse : list SparseCell;
  dimensions_width : nat;
  dimensions_height : nat
}.

(** The [movementHeatmap] property of a stored snapshot: the 2D array
    itself (a snapshot stored as it was) or its sparse form. *)
Inductive StoredHeatmap :=
| HeatmapArray (heatmap : list (list Z))
| HeatmapSparse (s : SparseHeatmap).

Record StoredBehaviorData := mkStoredBehaviorData {
  stored_movementHeatmap : option StoredHeatmap;
  stored_performanceMetrics : option PerformanceMetricsData;
  stored_adaptationSettings : option AdaptationSettingsData
}.

(** The inner loop of [compressBehaviorData] over the row [y], from the
    column [x] on. *)
Fixpoint sparseCells (x y : nat) (row : list Z) : list SparseCell :=
  match row with
  | [] => []
  | value :: row' =>
      if bool_decide (0 < value)
      then mkSparseCell x y value :: sparseCells (S x) y row'
      else sparseCells (S x) y row'
  end.

(** The outer loop, from the row [y] on. *)
Fixpoint sparseRows (y : nat) (heatmap : list (list Z)) : list SparseCell :=
  match heatmap with
  | [] => []
  | row :: heatmap' => sparseCells 0 y row ++ sparseRows (S y) heatmap'
  end.

(** [compressBehaviorData(data, aggressive)]. *)
Definition compressBehaviorData (data : BehaviorData) (aggressive : bool)
    : StoredBehaviorData :=
  let movementHeatmap' :=
    match data_movementHeatmap data with
    | Some heatmap =>
        Some (HeatmapSparse
                (mkSparseHeatmap (sparseRows 0 heatmap)
                   (from_option length 0%nat (heatmap !! 0%nat))
                   (length heatmap)))
    | None => None
    end in
  let performanceMetrics' :=
    match data_performanceMetrics data with
    | Some pm =>
        match data_recentScores pm with
        | Some scores =>
            if aggressive
            then Some (mkPerformanceMetricsData
                         (data_averageScore pm) (data_averageGameDuration pm)
                         (Some (slice_last 3 scores)) (data_difficultyProgression pm)
                         (data_gameStartTime pm) (data_totalGamesPlayed pm)
                         (data_consecutiveHighPerformance pm)
                         (data_consecutiveLowPerformance pm))
            else Some pm
        | None => Some pm
        end
    | None => None
    end in
  mkStoredBehaviorData movementHeatmap' performanceMetrics'
    (data_adaptationSettings data).

(** The callback of [sparse.forEach] in [decompressBehaviorData]; behind
    the guard the row [y] and its cell [x] exist. *)
Definition fillSparse (width height : nat) (heatmap : list (list Z))
    (cell : SparseCell) : list (list Z) :=
  if bool_decide (cell_y cell < height)%nat && bool_decide (cell_x cell < width)%nat
  then alter (<[cell_x cell := cell_value cell]>) (cell_y cell) heatmap
  else heatmap.

(** [decompressBehaviorData(data)]. *)
Definition decompressBehaviorData (data : StoredBehaviorData) : BehaviorData :=
  let movementHeatmap' :=
    match stored_movementHeatmap data with
    | Some (HeatmapSparse s) =>
        let width := dimensions_width s in
        let height := dimensions_height s in
        Some (foldl (fillSparse width height)
                (replicate height (replicate width 0)) (sparse s))
    | Some (HeatmapArray heatmap) => Some heatmap
    | None => None
    end in
  mkBehaviorData movementHeatmap' (stored_performanceMetrics data)
    (stored_adaptationSettings data).

(** [validateBehaviorData(data)] on a snapshot of the data model: the three
    sections have to be present. *)
Definition validateBehaviorData (data : BehaviorData) : bool :=
  bool_decide (is_Some (data_movementHeatmap data))
  && bool_decide (is_Some (data_performanceMetrics data))
  && bool_decide (is_Some (data_adaptationSettings data)).

(** All rows have the length of the first one. *)
Definition rectangular (heatmap : list (list Z)) : Prop :=
  ∃ width : nat, Forall (λ row, length row = width) heatmap.

(** ** The snake (class [Snake]) *)

Record Snake := mkSnake {
  snake_gridSize : Z;
  snake_canvasWidth : Z;
  snake_canvasHeight : Z;
  segments : list Position;
  snake_direction : string;
  nextDirection : string
}.

(** [new Snake(gridSize, canvasWidth, canvasHeight)]. *)
Definition newSnake (gs cw ch : Z) : Snake :=
  let centerX := Qfloor (inject_Z cw / inject_Z gs / 2)%Q * gs in
  let centerY := Qfloor (inject_Z ch / inject_Z gs / 2)%Q * gs in
  mkSnake gs cw ch
    [mkPosition centerX centerY;
     mkPosition (centerX - gs) centerY;
     mkPosition (centerX - 2 * gs) centerY]
    "right" "right".

(** The table [opposites] of [setDirection]; a key outside the table gives
    nothing that equals a direction. *)
Definition opposites (d : string) : option string :=
  if bool_decide (d = "up") then Some "down"
  else if bool_decide (d = "down") then Some "up"
  else if bool_decide (d = "left") then Some "right"
  else if bool_decide (d = "right") then Some "left"
  else None.

(** [setDirection(newDirection)]. *)
Definition Snake_setDirection (newDirection : string) (s : Snake) : Snake :=
  if bool_decide (opposites newDirection ≠ Some (snake_direction s))
  then mkSnake (snake_gridSize s) (snake_canvasWidth s) (snake_canvasHeight s)
         (segments s) (snake_direction s) newDirection
  else s.

(** The [switch] of [move]: the head one cell further in the direction;
    an unknown direction leaves it where it is. *)
Definition movedHead (gs : Z) (dir : string) (head : Position) : Position :=
  if bool_decide (dir = "up") then mkPosition (pos_x head) (pos_y head - gs)
  else if bool_decide (dir = "down") then mkPosition (pos_x head) (pos_y head + gs)
  else if bool_decide (dir = "left") then mkPosition (pos_x head - gs) (pos_y head)
  else if bool_decide (dir = "right") then mkPosition (pos_x head + gs) (pos_y head)
  else head.

(** [move(direction)]; the argument is [None] for [null] or [undefined],
    and the empty string is falsy as well. Without segments the head that
    [unshift] adds is the one that [pop] removes. *)
Definition Snake_move (dir : option string) (s : Snake) : Snake :=
  let s1 :=
    match dir with
    | Some d => if bool_decide (d = "") then s else Snake_setDirection d s
    | None => s
    end in
  let direction' := nextDirection s1 in
  let segments' :=
    match segments s1 with
    | [] => []
    | head :: _ =>
        removelast (movedHead (snake_gridSize s1) direction' head :: segments s1)
    end in
  mkSnake (snake_gridSize s1) (snake_canvasWidth s1) (snake_canvasHeight s1)
    segments' direction' direction'.

(** [grow()]. [tail] is the last segment and [secondToLast] the one before
    it, [undefined] for a snake of one segment. Without segments the
    segment that is pushed has no coordinates ([None]). *)
Definition Snake_grow (s : Snake) : option Snake :=
  match reverse (segments s) with
  | [] => None
  | tail :: before =>
      let newTail :=
        match before with
        | secondToLast :: _ =>
            let deltaX := pos_x tail - pos_x secondToLast in
            let deltaY := pos_y tail - pos_y secondToLast in
            mkPosition (pos_x tail + deltaX) (pos_y tail + deltaY)
        | [] => tail
        end in
      Some (mkSnake (snake_gridSize s) (snake_canvasWidth s) (snake_canvasHeight s)
              (segments s ++ [newTail]) (snake_direction s) (nextDirection s))
  end.

(** [checkCollision()]; reading [head.x] without segments is a
    [TypeError]. *)
Definition Snake_checkCollision (s : Snake) : option bool :=
  match segments s with
  | [] => None
  | head :: body =>
      if bool_decide (pos_x head < 0 ∨ snake_canvasWidth s ≤ pos_x head
                      ∨ pos_y head < 0 ∨ snake_canvasHeight s ≤ pos_y head)
      then Some true
      else Some (existsb (λ segment,
                   bool_decide (pos_x head = pos_x segment ∧ pos_y head = pos_y segment))
                   body)
  end.

(** [getPosition()]: the head, [undefined] without segments. *)
Definition Snake_getPosition (s : Snake) : option Position := head (segments s).

(** [getSegments()]: a copy of the segments. *)
Definition Snake_getSegments (s : Snake) : list Position := segments s.

(** Calls of the methods that change a snake, and a sequence of them. *)
Inductive SnakeCall :=
| CallMove (dir : option string)
| CallGrow
| CallSetDirection (newDirection : string).

#[global] Instance SnakeCall_eq_dec : EqDecision SnakeCall.
Proof. solve_decision. Defined.

Definition snakeCall (c : SnakeCall) (s : Snake) : option Snake :=
  match c with
  | CallMove dir => Some (Snake_move dir s)
  | CallGrow => Snake_grow s
  | CallSetDirection newDirection => Some (Snake_setDirection newDirection s)
  end.

Fixpoint snakeCalls (cs : list SnakeCall) (s : Snake) : option Snake :=
  match cs with
  | [] => Some s
  | c :: cs' => s' ← snakeCall c s; snakeCalls cs' s'
  end.

(** The directions that the game passes on: one of the four, or none. *)
Definition knownDirection (c : SnakeCall) : Prop :=
  match c with
  | CallMove (Some d) => d ∈ fourDirections
  | CallMove None => True
  | CallGrow => True
  | CallSetDirection d => d ∈ fourDirections
  end.

(** The first segment is the second one moved one step in the current
    direction. *)
Definition head_follows_neck (s : Snake) : Prop :=
  ∃ head neck body,
    segments s = head :: neck :: body
    ∧ head = movedHead (snake_gridSize s) (snake_direction s) neck.

(** The pending direction never asks for a reversal. *)
Definition no_reversal_pending (s : Snake) : Prop :=
  snake_direction s ∈ fourDirections
  ∧ nextDirection s ∈ fourDirections
  ∧ opposites (nextDirection s) ≠ Some (snake_direction s).

(** Two cells are adjacent: the first is the second moved one step in
    one of the four directions. *)
Definition adjacent (gs : Z) (a b : Position) : Prop :=
  ∃ d, d ∈ fourDirections ∧ a = movedHead gs d b.

(** Each segment is adjacent to the next one. *)
Fixpoint chained (gs : Z) (segs : list Position) : Prop :=
  match segs with
  | a :: rest =>
      match rest with
      | b :: _ => adjacent gs a b ∧ chained gs rest
      | [] => True
      end
  | [] => True
  end.

(** The head is not on the third segment. *)
Definition not_folded (segs : list Position) : Prop :=
  ∀ head neck third rest, segs = head :: neck :: third :: rest → head ≠ third.

(** The head is outside the canvas, as [checkCollision] tests it. *)
Definition outside_canvas (s : Snake) (head : Position) : Prop :=
  pos_x head < 0 ∨ snake_canvasWidth s ≤ pos_x head
  ∨ pos_y head < 0 ∨ snake_canvasHeight s ≤ pos_y head.

(** The invariant of the snakes that the game builds, for the cell size
    [gs]. *)
Definition snake_invariant (gs : Z) (s : Snake) : Prop :=
  snake_gridSize s = gs
  ∧ head_follows_neck s
  ∧ no_reversal_pending s
  ∧ chained gs (segments s)
  ∧ not_folded (segments s).

(** ** The game (class [GameEngine]) *)

(** The loop of [calculateDangerLevel] over the body segments. *)
Fixpoint selfProximity (gs : Z) (head : Position) (body : list Position)
    (dangerLevel : Q) : Q :=
  match body with
  | [] => dangerLevel
  | segment :: body' =>
      let distance :=
        Z.abs (pos_x head - pos_x segment) + Z.abs (pos_y head - pos_y segment) in
      if bool_decide (distance ≤ gs) then Qmax dangerLevel 1
      else if bool_decide (distance ≤ gs * 2)
           then selfProximity gs head body' (Qmax dangerLevel (6 # 10))
           else selfProximity gs head body' dangerLevel
  end.

(** [calculateDangerLevel()] for the fields [gameState], [gridSize],
    [canvasWidth], [canvasHeight] and [snake] of the game. *)
Definition calculateDangerLevel (gameState : string) (gs cw ch : Z)
    (snake : option Snake) : option Q :=
  match snake with
  | None => Some 0%Q
  | Some s =>
      if bool_decide (gameState ≠ "playing") then Some 0%Q
      else
        head ← Snake_getPosition s;
        let wallDistance :=
          Qmin (Qmin (inject_Z (pos_x head) / inject_Z gs)
                     (inject_Z (pos_y head) / inject_Z gs))
               (Qmin (inject_Z (cw - pos_x head - gs) / inject_Z gs)
                     (inject_Z (ch - pos_y head - gs) / inject_Z gs)) in
        let dangerLevel :=
          if bool_decide (wallDistance <= 1)%Q then Qmax 0 (8 # 10)
          else if bool_decide (wallDistance <= 2)%Q then Qmax 0 (4 # 10)
          else 0%Q in
        Some (selfProximity gs head (tail (Snake_getSegments s)) dangerLevel)
  end.

(** [calculateMoveInterval(difficulty)]. *)
Definition calculateMoveInterval (difficulty : Q) : Z :=
  let minInterval := 80%Q in
  let maxInterval := 200%Q in
  let speedFactor := ((difficulty - 1) / 9)%Q in
  let interval := (maxInterval - speedFactor * (maxInterval - minInterval))%Q in
  js_round interval.

(** * Properties *)

(** Closed facts about concrete engines are settled by evaluation. *)
Ltac closed_fact :=
  vm_compute; first [reflexivity | exact I | congruence | lia | by repeat constructor].

(** ** Spatial frequency model: recording a position *)

Section heatmap_update.
Implicit Types (e : AIEngine) (pos : Position) (hm : list (list Z)).

Lemma heat_cell_insert hm row (gx gy x y : nat) (v : Z) :
  hm !! gy = Some row → (gx < length row)%nat →
  heat_cell (<[gy := <[gx := v]> row]> hm) x y
  = if bool_decide (x = gx ∧ y = gy) then Some v else heat_cell hm x y.
Proof.
  intros Hrow Hgx. unfold heat_cell.
  destruct (decide (y = gy)) as [->|Hy].
  - rewrite list_lookup_insert_eq by (by eapply lookup_lt_Some).
    rewrite Hrow. simpl.
    destruct (decide (x = gx)) as [->|Hx].
    + rewrite bool_decide_eq_true_2 by done.
      by rewrite list_lookup_insert_eq.
    + rewrite bool_decide_eq_false_2 by (intros []; congruence).
      by rewrite list_lookup_insert_ne.
  - rewrite bool_decide_eq_false_2 by (intros []; congruence).
    by rewrite list_lookup_insert_ne.
Qed.

Lemma heatmap_shape_lookup e (x y : nat) :
  heatmap_shape e →
  (x < Z.to_nat (gridWidth e))%nat → (y < Z.to_nat (gridHeight e))%nat →
  ∃ row c, movementHeatmap e !! y = Some row ∧ row !! x = Some c
           ∧ length row = Z.to_nat (gridWidth e).
Proof.
  intros [Hlen Hrows] Hx Hy.
  destruct (lookup_lt_is_Some_2 (movementHeatmap e) y) as [row Hrow]; [lia|].
  pose proof (proj1 (Forall_lookup _ _) Hrows _ _ Hrow) as Hw. simpl in Hw.
  destruct (lookup_lt_is_Some_2 row x) as [c Hc]; [lia|].
  eauto.
Qed.

Lemma updateHeatmapCell_out_of_bounds e pos :
  ¬ in_bounds e pos → updateHeatmapCell pos e = Some e.
Proof.
  intros Hout. unfold updateHeatmapCell.
  by rewrite bool_decide_eq_false_2.
Qed.

Lemma updateHeatmapCell_in_bounds e pos :
  heatmap_shape e → in_bounds e pos →
  ∃ row c,
    movementHeatmap e !! Z.to_nat (gridIndex e pos).2 = Some row
    ∧ row !! Z.to_nat (gridIndex e pos).1 = Some c
    ∧ updateHeatmapCell pos e
      = Some (set_movementHeatmap
                (<[Z.to_nat (gridIndex e pos).2 :=
                     <[Z.to_nat (gridIndex e pos).1 := c + 1]> row]>
                   (movementHeatmap e)) e).
Proof.
  intros Hshape Hin.
  destruct (heatmap_shape_lookup e (Z.to_nat (gridIndex e pos).1)
              (Z.to_nat (gridIndex e pos).2) Hshape) as (row & c & Hrow & Hc & _).
  { unfold in_bounds in Hin. lia. }
  { unfold in_bounds in Hin. lia. }
  exists row, c. split_and!; [done..|].
  unfold updateHeatmapCell.
  rewrite bool_decide_eq_true_2 by exact Hin.
  unfold gridIndex in *. simpl in *. rewrite Hrow. simpl. rewrite Hc. done.
Qed.

Lemma updateHeatmapCell_shape e e' pos :
  heatmap_shape e → updateHeatmapCell pos e = Some e' → heatmap_shape e'.
Proof.
  intros Hshape Hupd.
  destruct (decide (in_bounds e pos)) as [Hin|Hout].
  - destruct (updateHeatmapCell_in_bounds e pos Hshape Hin)
      as (row & c & Hrow & Hc & Heq).
    rewrite Heq in Hupd. injection Hupd as <-.
    destruct Hshape as [Hlen Hrows]. split; simpl.
    + by rewrite length_insert.
    + apply Forall_insert; [done|]. rewrite length_insert.
      by apply (proj1 (Forall_lookup _ _) Hrows _ _ Hrow).
  - rewrite updateHeatmapCell_out_of_bounds in Hupd by done.
    by injection Hupd as <-.
Qed.

Lemma updateHeatmapCell_frame e e' pos :
  updateHeatmapCell pos e = Some e' →
  gridSize e' = gridSize e ∧ gridWidth e' = gridWidth e
  ∧ gridHeight e' = gridHeight e ∧ movementHistory e' = movementHistory e
  ∧ maxHistorySize e' = maxHistorySize e
  ∧ performanceMetrics e' = performanceMetrics e
  ∧ adaptationSettings e' = adaptationSettings e.
Proof.
  unfold updateHeatmapCell. case_bool_decide; [|by intros [= <-]].
  destruct (movementHeatmap e !! _) as [row|]; [simpl|done].
  destruct (row !! _); [simpl|done]. by intros [= <-].
Qed.

Lemma updateHeatmapCell_nonneg e e' pos :
  heatmap_nonneg (movementHeatmap e) → updateHeatmapCell pos e = Some e' →
  heatmap_nonneg (movementHeatmap e').
Proof.
  intros Hnn. unfold updateHeatmapCell. case_bool_decide; [|by intros [= <-]].
  destruct (movementHeatmap e !! _) as [row|] eqn:Hrow; [simpl|done].
  destruct (row !! _) as [c|] eqn:Hc; [simpl|done]. intros [= <-]. simpl.
  pose proof (proj1 (Forall_lookup _ _) Hnn _ _ Hrow) as Hrow_nn.
  pose proof (proj1 (Forall_lookup _ _) Hrow_nn _ _ Hc) as Hc_nn. simpl in Hc_nn.
  apply Forall_insert; [done|]. apply Forall_insert; [done|]. lia.
Qed.

Lemma newAIEngine_well_formed gs cw ch :
  0 < gs → well_formed (newAIEngine gs cw ch).
Proof.
  intros Hgs. split; [done|]. split; simpl.
  - unfold initializeHeatmap. by rewrite length_replicate.
  - unfold initializeHeatmap. apply Forall_replicate. by rewrite length_replicate.
Qed.

Lemma newAIEngine_nonneg gs cw ch :
  heatmap_nonneg (movementHeatmap (newAIEngine gs cw ch)).
Proof.
  simpl. unfold initializeHeatmap, heatmap_nonneg.
  apply Forall_replicate, Forall_replicate. done.
Qed.
End heatmap_update.

(** C7. Recording a position outside the grid never fails and returns the
    engine as it was, so no cell of the heatmap changes. Recording a
    position inside the grid of a well-formed engine succeeds, adds one to
    the counter at the position's grid index, leaves every other cell as it
    was, and keeps all counters non-negative. *)
Theorem updateHeatmapCell_records_position :
  (∀ e pos, ¬ in_bounds e pos → updateHeatmapCell pos e = Some e)
  ∧ (∀ e pos,
       well_formed e → heatmap_nonneg (movementHeatmap e) → in_bounds e pos →
       ∃ e' c,
         updateHeatmapCell pos e = Some e'
         ∧ heat_cell (movementHeatmap e)
             (Z.to_nat (gridIndex e pos).1) (Z.to_nat (gridIndex e pos).2) = Some c
         ∧ heat_cell (movementHeatmap e')
             (Z.to_nat (gridIndex e pos).1) (Z.to_nat (gridIndex e pos).2) = Some (c + 1)
         ∧ (∀ x y : nat,
              ¬ (x = Z.to_nat (gridIndex e pos).1 ∧ y = Z.to_nat (gridIndex e pos).2) →
              heat_cell (movementHeatmap e') x y = heat_cell (movementHeatmap e) x y)
         ∧ heatmap_shape e'
         ∧ heatmap_nonneg (movementHeatmap e')).
Proof.
  split; [exact updateHeatmapCell_out_of_bounds|].
  intros e pos [_ Hshape] Hnn Hin.
  destruct (updateHeatmapCell_in_bounds e pos Hshape Hin) as (row & c & Hrow & Hc & Heq).
  eexists _, c. split; [exact Heq|].
  assert (Hlt : (Z.to_nat (gridIndex e pos).1 < length row)%nat)
    by (by eapply lookup_lt_Some).
  split_and!.
  - unfold heat_cell. rewrite Hrow. simpl. exact Hc.
  - simpl. rewrite (heat_cell_insert _ row) by done.
    by rewrite bool_decide_eq_true_2.
  - intros x y Hne. simpl. rewrite (heat_cell_insert _ row) by done.
    by rewrite bool_decide_eq_false_2.
  - by eapply updateHeatmapCell_shape.
  - by eapply updateHeatmapCell_nonneg.
Qed.

Lemma updateHeatmapCell_records_position_witness :
  updateHeatmapCell (mkPosition 400 0) (newAIEngine 20 400 400)
  = Some (newAIEngine 20 400 400)
  ∧ ∃ e',
      updateHeatmapCell (mkPosition 100 100) (newAIEngine 20 400 400) = Some e'
      ∧ heat_cell (movementHeatmap e') 5 5 = Some 1
      ∧ heat_cell (movementHeatmap e') 4 5 = Some 0.
Proof.
  destruct updateHeatmapCell_records_position as [Hout Hin]. split.
  - apply Hout. intros (_ & Hx & _). vm_compute in Hx. discriminate.
  - destruct (Hin (newAIEngine 20 400 400) (mkPosition 100 100))
      as (e' & c & Heq & Hc & Hc' & Hother & _).
    + apply newAIEngine_well_formed. lia.
    + apply newAIEngine_nonneg.
    + unfold in_bounds. vm_compute. by repeat split.
    + exists e'. split; [exact Heq|]. split.
      * vm_compute in Hc. injection Hc as <-. exact Hc'.
      * rewrite (Hother 4%nat 5%nat); [reflexivity|]. vm_compute. lia.
Defined.

(** ** Movement log: bounded history *)

Section movement_log.
Implicit Types (e : AIEngine) (h : list MovementRecord) (r : MovementRecord).

Lemma slice_last_all {A} (n : nat) (l : list A) :
  (length l ≤ n)%nat → slice_last n l = l.
Proof. intros Hle. unfold slice_last. by replace (length l - n)%nat with 0%nat by lia. Qed.

Lemma length_slice_last {A} (n : nat) (l : list A) :
  length (slice_last n l) = (length l `min` n)%nat.
Proof. unfold slice_last. rewrite length_drop. lia. Qed.

Lemma slice_last_app_l {A} (n : nat) (l k : list A) :
  slice_last n (slice_last n l ++ k) = slice_last n (l ++ k).
Proof.
  unfold slice_last at 2.
  replace (drop (length l - n) l ++ k) with (drop (length l - n) (l ++ k))
    by (rewrite drop_app_le by lia; done).
  unfold slice_last. rewrite drop_drop, length_drop, !length_app.
  f_equal. lia.
Qed.

Lemma pushBounded_slice_last (m : Z) r h :
  0 ≤ m → (length h ≤ Z.to_nat m)%nat →
  pushBounded m r h = slice_last (Z.to_nat m) (h ++ [r]).
Proof.
  intros Hm Hlen. unfold pushBounded, slice_last.
  rewrite length_app. simpl. case_bool_decide.
  - f_equal. lia.
  - replace (length h + 1 - Z.to_nat m)%nat with 0%nat by lia. done.
Qed.

Lemma updateVisualIntensityFromMovement_frame e :
  let e' := updateVisualIntensityFromMovement e in
  gridSize e' = gridSize e ∧ gridWidth e' = gridWidth e
  ∧ gridHeight e' = gridHeight e ∧ movementHistory e' = movementHistory e
  ∧ maxHistorySize e' = maxHistorySize e
  ∧ movementHeatmap e' = movementHeatmap e
  ∧ performanceMetrics e' = performanceMetrics e.
Proof. unfold updateVisualIntensityFromMovement. by case_bool_decide. Qed.

(** One call on a well-formed engine succeeds, keeps the engine
    well-formed and pushes the record through [pushBounded]. *)
Lemma recordMovement_step now pos dir ctx e :
  well_formed e →
  ∃ e', recordMovement now pos dir ctx e = Some e'
        ∧ well_formed e'
        ∧ maxHistorySize e' = maxHistorySize e
        ∧ movementHistory e'
          = pushBounded (maxHistorySize e) (makeMovementRecord now pos dir ctx)
              (movementHistory e).
Proof.
  intros [Hgs Hshape]. unfold recordMovement.
  set (e1 := set_movementHistory _ e).
  assert (Hshape1 : heatmap_shape e1) by exact Hshape.
  destruct (updateHeatmapCell pos e1) as [e2|] eqn:Hupd; last first.
  { destruct (decide (in_bounds e1 pos)) as [Hin|Hout].
    - destruct (updateHeatmapCell_in_bounds e1 pos Hshape1 Hin) as (? & ? & _ & _ & Heq).
      congruence.
    - rewrite updateHeatmapCell_out_of_bounds in Hupd by done. done. }
  simpl. eexists. split; [done|].
  pose proof (updateHeatmapCell_shape _ _ _ Hshape1 Hupd) as Hshape2.
  destruct (updateHeatmapCell_frame _ _ _ Hupd) as (Hg & Hw & Hh & Hhist & Hmax & _).
  destruct (updateVisualIntensityFromMovement_frame e2)
    as (Hg' & Hw' & Hh' & Hhist' & Hmax' & Hhm' & _).
  split_and!.
  - split; [by rewrite Hg', Hg|].
    unfold heatmap_shape. by rewrite Hhm', Hw', Hh'.
  - by rewrite Hmax', Hmax.
  - by rewrite Hhist', Hhist.
Qed.

Lemma recordMovements_history ms : ∀ e,
  well_formed e → 0 ≤ maxHistorySize e →
  (length (movementHistory e) ≤ Z.to_nat (maxHistorySize e))%nat →
  ∃ e', recordMovements ms e = Some e'
        ∧ well_formed e'
        ∧ maxHistorySize e' = maxHistorySize e
        ∧ movementHistory e'
          = slice_last (Z.to_nat (maxHistorySize e))
              (movementHistory e ++ (recordOf <$> ms)).
Proof.
  induction ms as [|m ms IH]; intros e Hwf Hmax Hlen.
  - exists e. split_and!; [done..|]. simpl. rewrite app_nil_r.
    by rewrite slice_last_all.
  - destruct (recordMovement_step (move_now m) (move_position m) (move_direction m)
                (move_context m) e Hwf) as (e1 & Hrec & Hwf1 & Hmax1 & Hhist1).
    rewrite pushBounded_slice_last in Hhist1 by done.
    destruct (IH e1) as (e' & Hrecs & Hwf' & Hmax' & Hhist'); [done|lia|..].
    { rewrite Hmax1, Hhist1, length_slice_last. lia. }
    exists e'. split_and!; [|done|congruence|].
    + simpl. rewrite Hrec. simpl. exact Hrecs.
    + rewrite Hhist', Hmax1, Hhist1, slice_last_app_l.
      by rewrite <- (assoc_L (++)).
Qed.
End movement_log.

(** C8. After more calls of [recordMovement] than the log can hold (1000),
    on a well-formed engine whose history is within its capacity (as the
    constructor and [recordMovement] leave it), every call has succeeded,
    the history holds exactly 1000 records, and these are the records of
    the last 1000 calls in the order of the calls; when the timestamps of
    the calls are pairwise distinct, none of the older records is still in
    the history. *)
Theorem recordMovement_bounded_history e (ms : list Movement) :
  well_formed e → maxHistorySize e = 1000 →
  Z.of_nat (length (movementHistory e)) ≤ maxHistorySize e →
  1000 < Z.of_nat (length ms) →
  ∃ e',
    recordMovements ms e = Some e'
    ∧ maxHistorySize e' = 1000
    ∧ Z.of_nat (length (movementHistory e')) = maxHistorySize e'
    ∧ movementHistory e'
      = drop (length ms - Z.to_nat 1000) (recordOf <$> ms)
    ∧ (NoDup (move_now <$> ms) →
       ∀ r, r ∈ take (length ms - Z.to_nat 1000) (recordOf <$> ms) →
            r ∉ movementHistory e').
Proof.
  intros Hwf Hcap Hhist0 Hlen.
  destruct (recordMovements_history ms e) as (e' & Hrecs & _ & Hmax & Hhist);
    [done|lia|lia|].
  rewrite Hcap in Hmax, Hhist.
  assert (Hlast : movementHistory e'
                  = drop (length ms - Z.to_nat 1000) (recordOf <$> ms)).
  { rewrite Hhist. unfold slice_last. rewrite length_app, length_fmap.
    rewrite drop_app_ge by lia. f_equal. lia. }
  exists e'. split_and!; [done..| | done |].
  - rewrite Hlast, length_drop, length_fmap, Hmax. lia.
  - intros Hnd r Hold. rewrite Hlast.
    assert (Hnd' : NoDup (recordOf <$> ms)).
    { apply (NoDup_fmap_1 timestamp). by rewrite <- list_fmap_compose. }
    rewrite <- (take_drop (length ms - Z.to_nat 1000) (recordOf <$> ms)) in Hnd'.
    apply NoDup_app in Hnd' as (_ & Hdisj & _). by apply Hdisj.
Qed.

Lemma recordMovement_bounded_history_witness :
  ∃ e',
    recordMovements
      ((λ n, mkMovement (Z.of_nat n) (mkPosition (Z.of_nat n * 20) 0) "right"
               (mkGameContextArg None None None)) <$> seq 0 1010)
      (newAIEngine 20 400 400) = Some e'
    ∧ Z.of_nat (length (movementHistory e')) = 1000
    ∧ timestamp <$> head (movementHistory e') = Some 10.
Proof.
  destruct (recordMovement_bounded_history (newAIEngine 20 400 400)
              ((λ n, mkMovement (Z.of_nat n) (mkPosition (Z.of_nat n * 20) 0) "right"
                       (mkGameContextArg None None None)) <$> seq 0 1010))
    as (e' & Hrecs & Hmax & Hlen & Hhist & _).
  - apply newAIEngine_well_formed. lia.
  - reflexivity.
  - simpl. lia.
  - vm_compute. reflexivity.
  - exists e'. split; [exact Hrecs|]. split; [by rewrite Hlen|].
    rewrite Hhist. vm_compute. reflexivity.
Defined.

(** ** Spatial frequency model: normalization *)

Section normalization.
Implicit Types (e : AIEngine) (hm : list (list Z)).

Lemma mapM_lookup_seq {A} (l : list A) :
  mapM (λ i, l !! i) (seq 0 (length l)) = Some l.
Proof.
  apply mapM_Some_2, Forall2_same_length_lookup_2; [by rewrite length_seq|].
  intros i j x Hj Hx. apply lookup_seq in Hj as [-> _]. done.
Qed.

(** On a heatmap of the right shape the loops read the heatmap itself. *)
Lemma scanHeatmap_shape e :
  heatmap_shape e → scanHeatmap e = Some (movementHeatmap e).
Proof.
  intros [Hlen Hrows]. unfold scanHeatmap.
  apply mapM_Some_2, Forall2_same_length_lookup_2; [by rewrite length_seq|].
  intros i y row Hy Hrow. apply lookup_seq in Hy as [-> _]. simpl.
  pose proof (proj1 (Forall_lookup _ _) Hrows _ _ Hrow) as Hw. simpl in Hw.
  rewrite <- Hw. unfold heat_cell. rewrite Hrow. simpl. apply mapM_lookup_seq.
Qed.

Lemma foldl_max_bounds (l : list Z) : ∀ a,
  a ≤ foldl Z.max a l ∧ Forall (λ c, c ≤ foldl Z.max a l) l.
Proof.
  induction l as [|c l IH]; intros a; simpl.
  - split; [lia|constructor].
  - destruct (IH (Z.max a c)) as [Hge Hall]. split; [lia|].
    constructor; [lia|done].
Qed.

Lemma foldl_max_zero (l : list Z) :
  Forall (λ c, c = 0) l → foldl Z.max 0 l = 0.
Proof. induction 1 as [|c l -> _ IH]; simpl; [done|exact IH]. Qed.

Lemma foldl_max_pos (l : list Z) : ∀ a,
  0 ≤ a → Forall (λ c, 0 ≤ c) l → Exists (λ c, c ≠ 0) l → 0 < foldl Z.max a l.
Proof.
  induction l as [|c l IH]; intros a Ha Hnn Hex; [by inversion Hex|].
  inversion_clear Hnn as [|? ? Hc Hl]. simpl.
  inversion_clear Hex as [? ? Hne|? ? Hex'].
  - pose proof (foldl_max_bounds l (Z.max a c)) as [Hge _]. lia.
  - apply IH; [lia|done..].
Qed.

Lemma foldl_max_attained (l : list Z) : ∀ a,
  foldl Z.max a l = a ∨ foldl Z.max a l ∈ l.
Proof.
  induction l as [|c l IH]; intros a; simpl; [by left|].
  destruct (IH (Z.max a c)) as [Heq|Hin].
  - rewrite Heq. destruct (Z.max_spec a c) as [[_ ->]|[_ ->]];
      [right; constructor | by left].
  - right. by constructor.
Qed.

Lemma inject_Z_pos (m : Z) : 0 < m → (0 < inject_Z m)%Q.
Proof. intros Hm. unfold Qlt. simpl. lia. Qed.

Lemma inject_Z_le (a b : Z) : a ≤ b → (inject_Z a <= inject_Z b)%Q.
Proof. intros Hab. unfold Qle. simpl. lia. Qed.

Lemma normalizeCell_range (m c : Z) :
  0 ≤ c → c ≤ m → (0 <= normalizeCell m c)%Q ∧ (normalizeCell m c <= 1)%Q.
Proof.
  intros Hc Hm. unfold normalizeCell. case_bool_decide as Hpos; [|done].
  assert (0 < inject_Z m)%Q by (by apply inject_Z_pos).
  split.
  - apply Qle_shift_div_l; [done|]. rewrite Qmult_0_l.
    by apply (inject_Z_le 0 c).
  - apply Qle_shift_div_r; [done|]. rewrite Qmult_1_l.
    by apply inject_Z_le.
Qed.

Lemma normalizeCell_max (m : Z) : 0 < m → (normalizeCell m m == 1)%Q.
Proof.
  intros Hpos. unfold normalizeCell. rewrite bool_decide_eq_true_2 by done.
  apply Qmult_inv_r. intros Heq.
  assert (0 < inject_Z m)%Q as Hlt by (by apply inject_Z_pos).
  rewrite Heq in Hlt. by apply Qlt_irrefl in Hlt.
Qed.

Lemma generateHeatmap_shape e :
  heatmap_shape e →
  generateHeatmap e
  = Some (fmap (M := list)
            (fmap (M := list)
               (normalizeCell (foldl Z.max 0 (mjoin (movementHeatmap e)))))
            (movementHeatmap e)).
Proof.
  intros Hshape. unfold generateHeatmap. by rewrite scanHeatmap_shape.
Qed.
End normalization.

(** C10. On a well-formed engine whose counters are non-negative,
    [generateHeatmap] returns a matrix of the shape of the grid whose
    values all lie between 0 and 1; when all counters are zero, all values
    are zero; when some counter is not zero, some value is 1, which is
    then the maximum of the result. *)
Theorem generateHeatmap_normalized e :
  well_formed e → heatmap_nonneg (movementHeatmap e) →
  ∃ normalizedHeatmap,
    generateHeatmap e = Some normalizedHeatmap
    ∧ length normalizedHeatmap = Z.to_nat (gridHeight e)
    ∧ Forall (λ row, length row = Z.to_nat (gridWidth e)) normalizedHeatmap
    ∧ Forall (Forall (λ v, (0 <= v)%Q ∧ (v <= 1)%Q)) normalizedHeatmap
    ∧ (Forall (Forall (λ c, c = 0)) (movementHeatmap e) →
       Forall (Forall (λ v, v = 0%Q)) normalizedHeatmap)
    ∧ (Exists (Exists (λ c, c ≠ 0)) (movementHeatmap e) →
       Exists (Exists (λ v, (v == 1)%Q)) normalizedHeatmap).
Proof.
  intros [_ Hshape] Hnn.
  eexists. split; [by apply generateHeatmap_shape|].
  set (m := foldl Z.max 0 (mjoin (movementHeatmap e))).
  destruct (foldl_max_bounds (mjoin (movementHeatmap e)) 0) as [Hm0 Hmax].
  fold m in Hm0, Hmax.
  destruct Hshape as [Hlen Hrows].
  split_and!.
  - by rewrite length_fmap.
  - apply Forall_fmap. eapply Forall_impl; [exact Hrows|].
    intros row Hrow. simpl. by rewrite length_fmap.
  - apply Forall_fmap, Forall_forall. intros row Hrow. simpl.
    apply Forall_fmap, Forall_forall. intros c Hc. simpl.
    apply normalizeCell_range.
    + exact (proj1 (Forall_forall _ _) (proj1 (Forall_forall _ _) Hnn row Hrow) c Hc).
    + apply (proj1 (Forall_forall _ _) Hmax).
      apply list_elem_of_join. eauto.
  - intros Hzero.
    assert (Hm : m = 0).
    { apply foldl_max_zero, Forall_forall. intros c Hc.
      apply list_elem_of_join in Hc as (row & Hc & Hrow).
      exact (proj1 (Forall_forall _ _) (proj1 (Forall_forall _ _) Hzero row Hrow) c Hc). }
    apply Forall_fmap, Forall_forall. intros row Hrow. simpl.
    apply Forall_fmap, Forall_forall. intros c Hc. simpl.
    unfold normalizeCell. rewrite Hm. by rewrite bool_decide_eq_false_2 by lia.
  - intros Hex.
    assert (Hpos : 0 < m).
    { apply foldl_max_pos; [done| |].
      - apply Forall_forall. intros c Hc.
        apply list_elem_of_join in Hc as (row & Hc & Hrow).
        exact (proj1 (Forall_forall _ _) (proj1 (Forall_forall _ _) Hnn row Hrow) c Hc).
      - apply Exists_exists in Hex as (row & Hrow & Hex).
        apply Exists_exists in Hex as (c & Hc & Hne).
        apply Exists_exists. exists c. split; [|done].
        apply list_elem_of_join. eauto. }
    destruct (foldl_max_attained (mjoin (movementHeatmap e)) 0) as [Heq|Hin];
      fold m in Heq || fold m in Hin; [lia|].
    apply list_elem_of_join in Hin as (row & Hin & Hrow).
    apply Exists_fmap, Exists_exists. exists row. split; [done|]. simpl.
    apply Exists_fmap, Exists_exists. exists m. split; [done|]. simpl.
    by apply normalizeCell_max.
Qed.

(** ** Sorting *)

Section sorting.
Context {A : Type} (before : A → A → bool).

Lemma sort_insert_perm (a : A) (l : list A) : sort_insert before a l ≡ₚ a :: l.
Proof.
  induction l as [|b l IH]; simpl; [done|].
  destruct (before a b); [done|].
  rewrite IH. apply Permutation_swap.
Qed.

Lemma js_sort_perm (l : list A) : js_sort before l ≡ₚ l.
Proof.
  induction l as [|a l IH]; simpl; [done|].
  fold (js_sort before l). by rewrite sort_insert_perm, IH.
Qed.

Lemma js_sort_elem_of (a : A) (l : list A) : a ∈ js_sort before l ↔ a ∈ l.
Proof. by rewrite js_sort_perm. Qed.

Lemma js_sort_length (l : list A) : length (js_sort before l) = length l.
Proof. by rewrite js_sort_perm. Qed.

Hypothesis before_total : ∀ a b, before a b = false → before b a = true.

Lemma sort_insert_sorted (a : A) (l : list A) :
  Sorted (λ x y, before x y) l → Sorted (λ x y, before x y) (sort_insert before a l).
Proof.
  induction 1 as [|b l Hl IH Hhd]; simpl; [by repeat constructor|].
  destruct (before a b) eqn:Hab.
  - constructor; [by constructor|]. constructor. by rewrite Hab.
  - constructor; [done|].
    destruct Hhd as [|c l' Hbc]; simpl.
    + constructor. by rewrite before_total.
    + destruct (before a c); constructor; [by rewrite before_total|done].
Qed.

Lemma js_sort_sorted (l : list A) : Sorted (λ x y, before x y) (js_sort before l).
Proof.
  induction l as [|a l IH]; simpl; [constructor|].
  by apply sort_insert_sorted.
Qed.
End sorting.

Lemma StronglySorted_impl_elem_of {A} (R R' : relation A) (l : list A) :
  (∀ a b, a ∈ l → b ∈ l → R a b → R' a b) →
  StronglySorted R l → StronglySorted R' l.
Proof.
  intros Himpl Hsorted. induction Hsorted as [|a l Hl IH Hall]; [constructor|].
  constructor.
  - apply IH. intros x y Hx Hy. apply Himpl; by constructor.
  - apply Forall_forall. intros b Hb.
    apply Himpl; [by constructor|by constructor|].
    by apply (proj1 (Forall_forall _ _) Hall).
Qed.

(** ** Pattern analyzer *)

Section pattern_analyzer.
Implicit Types (e : AIEngine) (h : list MovementRecord) (counts : list (string * Z)).

Lemma occurrences_cons d r h :
  occurrences d (r :: h)
  = (if bool_decide (direction r = d) then 1 else 0) + occurrences d h.
Proof.
  unfold occurrences. rewrite filter_cons.
  case_decide; [rewrite bool_decide_eq_true_2 by done
               |rewrite bool_decide_eq_false_2 by done]; simpl; lia.
Qed.

(** The counting loop adds to each key its number of occurrences. *)
Lemma count_directions_foldl h : ∀ counts,
  foldl (λ counts record, count_direction counts (direction record)) counts h
  = (λ kv, (kv.1, kv.2 + occurrences kv.1 h)) <$> counts.
Proof.
  induction h as [|r h IH]; intros counts; simpl.
  - rewrite <- (list_fmap_id counts) at 1. apply list_fmap_ext.
    intros _ [k v] _. simpl. f_equal. unfold occurrences. simpl. lia.
  - rewrite IH. unfold count_direction. rewrite <- list_fmap_compose.
    apply list_fmap_ext. intros _ [k v] _. simpl.
    rewrite occurrences_cons.
    destruct (decide (k = direction r)) as [->|Hne].
    + rewrite !bool_decide_eq_true_2 by done. simpl. f_equal. lia.
    + rewrite !bool_decide_eq_false_2 by congruence. simpl. f_equal.
Qed.

Lemma count_directions_empty h :
  foldl (λ counts record, count_direction counts (direction record))
        emptyDirectionCounts h = countsOf h.
Proof. by rewrite count_directions_foldl. Qed.

Lemma count_of_countsOf h d :
  d ∈ fourDirections → count_of (countsOf h) d = occurrences d h.
Proof.
  unfold fourDirections. rewrite !elem_of_cons, elem_of_nil.
  intros [->|[->|[->|[->|[]]]]]; reflexivity.
Qed.

Lemma occurrences_nonneg d h : 0 ≤ occurrences d h.
Proof. unfold occurrences. lia. Qed.

Lemma analyzeMovementPatterns_enough e :
  (10 ≤ length (movementHistory e))%nat →
  analyzeMovementPatterns e
  = let counts := countsOf (movementHistory e) in
    mkMovementAnalysis
      (js_sort (λ a b, bool_decide (count_of counts b - count_of counts a ≤ 0))
         (filter (λ dir, (inject_Z (Z.of_nat (length (movementHistory e))) / 4
                          < inject_Z (count_of counts dir))%Q)
                 (counts.*1)))
      None (Some counts)
      (inject_Z (Z.of_nat (length (filter (λ count, (0 < count)%Z) (counts.*2)))) / 4)%Q
      (Some (Z.of_nat (length (movementHistory e)))).
Proof.
  intros Hlen. unfold analyzeMovementPatterns.
  rewrite bool_decide_eq_false_2 by lia.
  by rewrite count_directions_empty.
Qed.

Lemma analyzeMovementPatterns_few e :
  (length (movementHistory e) < 10)%nat →
  analyzeMovementPatterns e = mkMovementAnalysis [] (Some 0%Q) None 0 None.
Proof.
  intros Hlen. unfold analyzeMovementPatterns.
  by rewrite bool_decide_eq_true_2.
Qed.
End pattern_analyzer.

Lemma occurrences_directions d h :
  occurrences d h = Z.of_nat (length (filter (λ x, x = d) (direction <$> h))).
Proof.
  induction h as [|r h IH]; [done|].
  rewrite occurrences_cons, IH, fmap_cons, filter_cons.
  case_decide; [rewrite bool_decide_eq_true_2 by done
               |rewrite bool_decide_eq_false_2 by done]; simpl; lia.
Qed.

(** C9. With at least 10 recorded movements, [analyzeMovementPatterns]
    returns as diversity the number of the four directions that occur at
    least once, divided by 4, and as dominant directions the directions
    that occur more than a quarter of the total, by descending count. With
    fewer than 10 movements it returns no dominant direction and diversity
    0. For 25 movements to the right followed by 5 movements down the
    dominant directions are just "right", the counts are up 0, down 5,
    left 0, right 25, and the diversity is one half. *)
Theorem analyzeMovementPatterns_spec :
  (∀ e, (10 ≤ length (movementHistory e))%nat →
     let h := movementHistory e in
     let a := analyzeMovementPatterns e in
     movementDiversity a
     = (inject_Z (Z.of_nat (length (filter (λ d, 1 ≤ occurrences d h) fourDirections))) / 4)%Q
     ∧ dominantDirections a
       ≡ₚ filter (λ d, (inject_Z (Z.of_nat (length h)) / 4 < inject_Z (occurrences d h))%Q)
                 fourDirections
     ∧ StronglySorted (λ d1 d2, occurrences d2 h ≤ occurrences d1 h)
         (dominantDirections a))
  ∧ (∀ e, (length (movementHistory e) < 10)%nat →
       dominantDirections (analyzeMovementPatterns e) = []
       ∧ movementDiversity (analyzeMovementPatterns e) = 0%Q)
  ∧ (∀ e, direction <$> movementHistory e = replicate 25 "right" ++ replicate 5 "down" →
       dominantDirections (analyzeMovementPatterns e) = ["right"]
       ∧ directionCounts (analyzeMovementPatterns e)
         = Some [("up", 0); ("down", 5); ("left", 0); ("right", 25)]
       ∧ (movementDiversity (analyzeMovementPatterns e) == 1 # 2)%Q).
Proof.
  split_and!.
  - intros e Hlen h a. subst a. rewrite analyzeMovementPatterns_enough by done.
    fold h. cbv zeta. simpl.
    split_and!.
    + unfold fourDirections. rewrite !filter_cons, !filter_nil.
      repeat case_decide; (lia || reflexivity).
    + rewrite js_sort_perm. done.
    + eapply StronglySorted_impl_elem_of; last first.
      * apply Sorted_StronglySorted; last first.
        { apply js_sort_sorted. intros a b.
          rewrite bool_decide_eq_false, bool_decide_eq_true. lia. }
        { intros a b c Hab Hbc. apply bool_decide_unpack in Hab, Hbc.
          apply bool_decide_pack. lia. }
      * intros a b Ha Hb Hab. apply bool_decide_unpack in Hab.
        apply js_sort_elem_of, list_elem_of_filter in Ha as [_ Ha].
        apply js_sort_elem_of, list_elem_of_filter in Hb as [_ Hb].
        rewrite <- (count_of_countsOf h a), <- (count_of_countsOf h b) by done.
        unfold countsOf. simpl. lia.
  - intros e Hlen. by rewrite analyzeMovementPatterns_few.
  - intros e Hdirs.
    assert (Hlen : length (movementHistory e) = 30%nat).
    { rewrite <- (length_fmap direction), Hdirs. reflexivity. }
    rewrite analyzeMovementPatterns_enough by lia.
    unfold countsOf. rewrite !occurrences_directions, Hdirs, Hlen.
    split_and!; vm_compute; reflexivity.
Qed.

Lemma analyzeMovementPatterns_spec_witness :
  let e :=
    set_movementHistory
      (((λ n, mkMovementRecord (Z.of_nat n) (mkPosition (Z.of_nat n * 20) 0) "right"
                (mkGameContext 0 1 0)) <$> seq 0 25)
       ++ ((λ n, mkMovementRecord (25 + Z.of_nat n) (mkPosition 0 (Z.of_nat n * 20)) "down"
                   (mkGameContext 0 1 0)) <$> seq 0 5))
      (newAIEngine 20 600 600) in
  dominantDirections (analyzeMovementPatterns e) = ["right"]
  ∧ directionCounts (analyzeMovementPatterns e)
    = Some [("up", 0); ("down", 5); ("left", 0); ("right", 25)]
  ∧ (movementDiversity (analyzeMovementPatterns e) == 1 # 2)%Q.
Proof.
  intros e. destruct analyzeMovementPatterns_spec as (_ & _ & Hexample).
  apply Hexample. vm_compute. reflexivity.
Defined.

(** ** Placement strategist: choice of the strategy *)

Section strategy.
Implicit Types (e : AIEngine).

(** Between 10 and 19 recorded movements the strategy follows the
    difficulty alone. *)
Lemma determinePlacementStrategy_cold_start e :
  (10 ≤ length (movementHistory e) < 20)%nat →
  determinePlacementStrategy e
  = (getStrategyByDifficulty (currentDifficulty (adaptationSettings e)), e).
Proof.
  intros Hlen. unfold determinePlacementStrategy.
  rewrite analyzeMovementPatterns_enough by lia. cbv zeta. simpl.
  by rewrite bool_decide_eq_true_2 by lia.
Qed.

(** With fewer than 10 recorded movements the analysis has no
    [totalMovements], the cold-start test is false, and diversity 0
    selects "challenging" before the difficulty override. *)
Lemma determinePlacementStrategy_short_history e :
  (length (movementHistory e) < 10)%nat →
  (determinePlacementStrategy e).1
  = if bool_decide (7 <= currentDifficulty (adaptationSettings e))%Q then "challenging"
    else if bool_decide (currentDifficulty (adaptationSettings e) <= 2)%Q then "random"
    else "challenging".
Proof.
  intros Hlen. unfold determinePlacementStrategy.
  rewrite analyzeMovementPatterns_few by done. simpl.
  by repeat case_bool_decide.
Qed.

Lemma determinePlacementStrategy_frame e :
  let e' := (determinePlacementStrategy e).2 in
  gridSize e' = gridSize e ∧ gridWidth e' = gridWidth e
  ∧ gridHeight e' = gridHeight e ∧ movementHeatmap e' = movementHeatmap e.
Proof. unfold determinePlacementStrategy. by destruct (js_lt_opt _ _). Qed.
End strategy.

(** C1. On an engine fresh from its constructor (no recorded movement)
    whose difficulty was set to 5, [determinePlacementStrategy] returns
    "challenging", although the difficulty rule gives "random" for
    difficulty 5: the analysis of a history of fewer than 10 movements has
    no [totalMovements] property, so the cold-start test [totalMovements <
    20] is false. *)
Theorem determinePlacementStrategy_ignores_cold_start :
  let e := setDifficulty 5 (newAIEngine 20 400 400) in
  movementHistory e = []
  ∧ totalMovements (analyzeMovementPatterns e) = None
  ∧ (determinePlacementStrategy e).1 = "challenging"
  ∧ getStrategyByDifficulty (currentDifficulty (adaptationSettings e)) = "random".
Proof. vm_compute. by repeat split. Qed.

(** ** Placement strategist: cell resolution *)

Section cell_resolution.
Implicit Types (e : AIEngine) (excl : list Position) (rnd : nat → Q).

Lemma isExcluded_elem_of excl x y :
  isExcluded excl x y = true ↔ mkPosition x y ∈ excl.
Proof.
  unfold isExcluded. rewrite existsb_exists. split.
  - intros ([px py] & Hin & Hxy). apply bool_decide_eq_true in Hxy as [? ?].
    simpl in *. subst. by apply list_elem_of_In.
  - intros Hin. exists (mkPosition x y). split; [by apply list_elem_of_In|].
    by apply bool_decide_eq_true.
Qed.

Lemma isExcluded_not_elem_of excl x y :
  ¬ isExcluded excl x y ↔ mkPosition x y ∉ excl.
Proof.
  rewrite <- isExcluded_elem_of. destruct (isExcluded excl x y); simpl; naive_solver.
Qed.

(** The loop returns a drawn cell that is not excluded, or the origin
    after every remaining round drew an excluded cell. *)
Lemma randomFoodLoop_spec excl rnd e (remaining : nat) : ∀ attempts,
  randomFoodLoop remaining attempts excl rnd e ∉ excl
  ∨ (randomFoodLoop remaining attempts excl rnd e = mkPosition 0 0
     ∧ ∀ attempt, (attempts ≤ attempt < attempts + remaining)%nat →
                  drawnCell rnd attempt e ∈ excl).
Proof.
  induction remaining as [|remaining IH]; intros attempts; simpl.
  - right. split; [done|]. intros attempt Hlt. lia.
  - destruct (isExcluded excl _ _) eqn:Hex.
    + destruct (IH (S attempts)) as [Hnot|[Heq Hall]]; [by left|right].
      split; [done|]. intros attempt Hlt.
      destruct (decide (attempt = attempts)) as [->|Hne].
      * by apply isExcluded_elem_of.
      * apply Hall. lia.
    + left. apply isExcluded_not_elem_of. rewrite Hex. simpl. tauto.
Qed.

Lemma getRandomFoodPosition_spec excl rnd e :
  getRandomFoodPosition excl rnd e ∉ excl
  ∨ (getRandomFoodPosition excl rnd e = mkPosition 0 0
     ∧ ∀ attempt, (attempt < maxAttempts)%nat → drawnCell rnd attempt e ∈ excl).
Proof.
  destruct (randomFoodLoop_spec excl rnd e maxAttempts 0%nat) as [Hnot|[Heq Hall]];
    [by left|right].
  split; [done|]. intros attempt Hlt. apply Hall. lia.
Qed.

(** [Math.floor(Math.random() * n)] is an index into [n] elements. *)
Lemma randomIndex_range (r : Q) (n : Z) :
  (0 <= r)%Q → (r < 1)%Q → 0 < n → 0 ≤ randomIndex r n < n.
Proof.
  intros Hr0 Hr1 Hn. unfold randomIndex.
  assert (Hn' : (0 < inject_Z n)%Q) by (by apply inject_Z_pos).
  split.
  - rewrite <- (Qfloor_Z 0). apply Qfloor_resp_le.
    apply Qmult_le_0_compat; [done|]. by apply Qlt_le_weak.
  - rewrite Zlt_Qlt. eapply Qle_lt_trans; [apply Qfloor_le|].
    rewrite <- (Qmult_1_l (inject_Z n)) at 2.
    by apply Qmult_lt_compat_r.
Qed.

Lemma elem_of_gridIndices e (x y : nat) :
  (x, y) ∈ gridIndices e
  ↔ (x < Z.to_nat (gridWidth e))%nat ∧ (y < Z.to_nat (gridHeight e))%nat.
Proof.
  unfold gridIndices. rewrite list_elem_of_bind. split.
  - intros (y' & Hin & Hy). apply list_elem_of_bind in Hin as (x' & Hin & Hx).
    apply list_elem_of_singleton in Hin as [= -> ->].
    apply elem_of_seq in Hx, Hy. lia.
  - intros [Hx Hy]. exists y. split; [|apply elem_of_seq; lia].
    apply list_elem_of_bind. exists x. split; [|apply elem_of_seq; lia].
    by apply list_elem_of_singleton.
Qed.

(** Every cell of the grid has an entry in the normalized heatmap. *)
Lemma generateHeatmap_lookup e (x y : nat) :
  heatmap_shape e →
  (x < Z.to_nat (gridWidth e))%nat → (y < Z.to_nat (gridHeight e))%nat →
  ∃ normalizedHeatmap v,
    generateHeatmap e = Some normalizedHeatmap
    ∧ (row ← normalizedHeatmap !! y; row !! x) = Some v.
Proof.
  intros Hshape Hx Hy.
  destruct (heatmap_shape_lookup e x y Hshape Hx Hy) as (row & c & Hrow & Hc & _).
  eexists _, _. split; [by apply generateHeatmap_shape|].
  rewrite list_lookup_fmap, Hrow. simpl. rewrite list_lookup_fmap, Hc. done.
Qed.

Lemma getColdspots_is_Some threshold e :
  heatmap_shape e → is_Some (getColdspots threshold e).
Proof.
  intros Hshape. unfold getColdspots.
  rewrite generateHeatmap_shape by done. simpl.
  set (normalized := fmap _ (movementHeatmap e)).
  destruct (mapM (spotAt e normalized) (gridIndices e)) as [spots|] eqn:Hspots;
    [by eexists|].
  assert (is_Some (mapM (spotAt e normalized) (gridIndices e))) as [? Hsome];
    [|congruence].
  apply mapM_is_Some_2, Forall_forall. intros [x y] Hxy. simpl.
  apply elem_of_gridIndices in Hxy as [Hx Hy].
  destruct (generateHeatmap_lookup e x y Hshape Hx Hy) as (n & v & Hn & Hv).
  rewrite generateHeatmap_shape in Hn by done. injection Hn as <-.
  fold normalized in Hv. rewrite Hv. simpl.
  destruct (heatmap_shape_lookup e x y Hshape Hx Hy) as (row & c & Hrow & Hc & _).
  unfold heat_cell. rewrite Hrow. simpl. rewrite Hc. by eexists.
Qed.

Lemma getChallengingFoodPosition_spec excl rnd e :
  heatmap_shape e → unit_interval rnd →
  ∃ pos,
    getChallengingFoodPosition excl rnd e = Some pos
    ∧ (pos ∉ excl
       ∨ (pos = mkPosition 0 0
          ∧ ∀ attempt, (attempt < maxAttempts)%nat → drawnCell rnd attempt e ∈ excl)).
Proof.
  intros Hshape Hrnd.
  destruct (getColdspots_is_Some (3 # 10) e Hshape) as [coldspots Hcold].
  unfold getChallengingFoodPosition. rewrite Hcold. simpl.
  set (valid := filter _ coldspots).
  case_bool_decide as Hvalid; last first.
  { eexists. split; [done|]. apply getRandomFoodPosition_spec. }
  set (top := take _ valid).
  assert (Htop : (0 < length top)%nat).
  { unfold top. rewrite length_take. lia. }
  destruct (randomIndex_range (rnd 0%nat) (Z.of_nat (length top))) as [Hi0 Hi];
    [apply Hrnd..|lia|].
  rewrite bool_decide_eq_true_2 by done.
  destruct (lookup_lt_is_Some_2 top (Z.to_nat (randomIndex (rnd 0%nat) (Z.of_nat (length top)))))
    as [spot Hspot]; [lia|].
  rewrite Hspot. simpl. eexists. split; [done|]. left.
  apply lookup_take_Some in Hspot as [Hspot _].
  apply list_elem_of_lookup_2 in Hspot.
  apply list_elem_of_filter in Hspot as [Hnot _].
  by apply isExcluded_not_elem_of.
Qed.

Lemma getAccessibleFoodPosition_spec excl rnd e :
  heatmap_shape e → unit_interval rnd →
  ∃ pos,
    getAccessibleFoodPosition excl rnd e = Some pos
    ∧ (pos ∉ excl
       ∨ (pos = mkPosition 0 0
          ∧ ∀ attempt, (attempt < maxAttempts)%nat → drawnCell rnd attempt e ∈ excl)).
Proof.
  intros Hshape Hrnd. unfold getAccessibleFoodPosition.
  rewrite generateHeatmap_shape by done. simpl.
  set (normalized := fmap _ (movementHeatmap e)).
  destruct (mapM _ (gridIndices e)) as [cells|] eqn:Hcells; last first.
  { exfalso. eapply (is_Some_None (A := list (nat * nat * Q))).
    rewrite <- Hcells. apply mapM_is_Some_2, Forall_forall.
    intros [x y] Hxy. simpl.
    apply elem_of_gridIndices in Hxy as [Hx Hy].
    destruct (generateHeatmap_lookup e x y Hshape Hx Hy) as (n & v & Hn & Hv).
    rewrite generateHeatmap_shape in Hn by done. injection Hn as <-.
    fold normalized in Hv. rewrite Hv. by eexists. }
  simpl. set (spots := fmap _ (filter _ cells)).
  case_bool_decide as Hspots; last first.
  { eexists. split; [done|]. apply getRandomFoodPosition_spec. }
  destruct (randomIndex_range (rnd 0%nat) (Z.of_nat (length spots))) as [Hi0 Hi];
    [apply Hrnd..|lia|].
  rewrite bool_decide_eq_true_2 by done.
  destruct (lookup_lt_is_Some_2 spots
              (Z.to_nat (randomIndex (rnd 0%nat) (Z.of_nat (length spots)))))
    as [pos Hpos]; [lia|].
  exists pos. split; [done|]. left.
  apply list_elem_of_lookup_2 in Hpos.
  apply list_elem_of_fmap in Hpos as (c & -> & Hc).
  apply list_elem_of_filter in Hc as [[_ Hnot] _].
  by apply isExcluded_not_elem_of.
Qed.
End cell_resolution.

(** C2, as the code has it. On a well-formed engine, with [Math.random()]
    in [0, 1), [suggestFoodPlacement] returns a cell, and this cell is
    outside the exclusion list unless it is the origin cell (0, 0)
    returned after all 100 draws of the random fallback fell on excluded
    cells. *)
Theorem suggestFoodPlacement_excluded_only_at_origin excl rnd e :
  well_formed e → unit_interval rnd →
  ∃ pos e',
    suggestFoodPlacement excl rnd e = Some (pos, e')
    ∧ (pos ∉ excl
       ∨ (pos = mkPosition 0 0
          ∧ ∀ attempt, (attempt < maxAttempts)%nat → drawnCell rnd attempt e ∈ excl)).
Proof.
  intros [_ Hshape] Hrnd. unfold suggestFoodPlacement.
  pose proof (determinePlacementStrategy_frame e) as Hframe.
  destruct (determinePlacementStrategy e) as [strategy e']. simpl in Hframe.
  destruct Hframe as (Hgs & Hw & Hh & Hhm).
  assert (Hshape' : heatmap_shape e').
  { unfold heatmap_shape. by rewrite Hhm, Hw, Hh. }
  assert (Hcell : ∀ attempt, drawnCell rnd attempt e' = drawnCell rnd attempt e).
  { intros attempt. unfold drawnCell. by rewrite Hgs, Hw, Hh. }
  assert (∃ pos,
    (if bool_decide (strategy = "challenging")
     then getChallengingFoodPosition excl rnd e'
     else if bool_decide (strategy = "accessible")
     then getAccessibleFoodPosition excl rnd e'
     else Some (getRandomFoodPosition excl rnd e')) = Some pos
    ∧ (pos ∉ excl
       ∨ (pos = mkPosition 0 0
          ∧ ∀ attempt, (attempt < maxAttempts)%nat → drawnCell rnd attempt e' ∈ excl)))
    as (pos & Hpos & Hspec).
  { repeat case_bool_decide.
    - by apply getChallengingFoodPosition_spec.
    - by apply getAccessibleFoodPosition_spec.
    - eexists. split; [done|]. apply getRandomFoodPosition_spec. }
  exists pos, e'. rewrite Hpos. simpl. split; [done|].
  destruct Hspec as [Hnot|[Heq Hall]]; [by left|right].
  split; [done|]. intros attempt Hlt. rewrite <- Hcell. by apply Hall.
Qed.

Lemma suggestFoodPlacement_excluded_only_at_origin_witness :
  ∃ e', suggestFoodPlacement [mkPosition 0 0; mkPosition 20 0; mkPosition 40 0]
          (λ k, if Nat.even k then (1 # 4)%Q else (3 # 4)%Q) (newAIEngine 20 400 400)
        = Some (mkPosition 100 300, e').
Proof.
  destruct (suggestFoodPlacement_excluded_only_at_origin
              [mkPosition 0 0; mkPosition 20 0; mkPosition 40 0]
              (λ k, if Nat.even k then (1 # 4)%Q else (3 # 4)%Q) (newAIEngine 20 400 400))
    as (pos & e' & Heq & _).
  - apply newAIEngine_well_formed. lia.
  - intros k. destruct (Nat.even k); split; vm_compute; congruence.
  - exists e'. rewrite Heq. vm_compute in Heq. by injection Heq as <- _.
Defined.

(** C2, as stated, fails: with the origin excluded and every draw equal
    to 0, the fresh 20 by 20 engine returns the excluded origin, although
    399 cells of the grid are free. *)
Lemma suggestFoodPlacement_returns_excluded_origin :
  let e := newAIEngine 20 400 400 in
  let excl := [mkPosition 0 0] in
  let rnd := λ _ : nat, 0%Q in
  well_formed e ∧ unit_interval rnd
  ∧ (mkPosition 20 0 ∉ excl)
  ∧ ∃ pos e', suggestFoodPlacement excl rnd e = Some (pos, e') ∧ pos ∈ excl.
Proof.
  intros e excl rnd. split_and!.
  - apply newAIEngine_well_formed. lia.
  - intros k. split; vm_compute; congruence.
  - intros Hin. apply list_elem_of_singleton in Hin. discriminate.
  - exists (mkPosition 0 0). eexists. split; [vm_compute; reflexivity|].
    by apply list_elem_of_singleton.
Qed.

(** ** Difficulty controller: streaks *)

Section difficulty_streaks.
Implicit Types (e : AIEngine).

Lemma scoreThreshold_pos pm : (50 <= scoreThreshold pm)%Q.
Proof. unfold scoreThreshold. apply Q.le_max_l. Qed.

Lemma low_not_high e : low_performance e → ¬ (highPerformanceThreshold (performanceMetrics e)
                                              <= averageRecentScore (performanceMetrics e))%Q.
Proof.
  intros [_ Hlow] Hhigh.
  unfold highPerformanceThreshold, lowPerformanceThreshold in *.
  pose proof (scoreThreshold_pos (performanceMetrics e)). lra.
Qed.

Lemma Qmin_raise (d : Q) : (d < 10)%Q → ¬ (Qmin 10 (d + 1) == d)%Q.
Proof.
  intros Hd Heq. destruct (Q.min_spec 10 (d + 1)) as [[_ Hm]|[_ Hm]];
    rewrite Hm in Heq; lra.
Qed.

Lemma Qmax_lower (d : Q) : (1 < d)%Q → ¬ (Qmax 1 (d - 1) == d)%Q.
Proof.
  intros Hd Heq. destruct (Q.max_spec 1 (d - 1)) as [[_ Hm]|[_ Hm]];
    rewrite Hm in Heq; lra.
Qed.

Lemma updateVisualIntensityFromDifficulty_frame e :
  let e' := updateVisualIntensityFromDifficulty e in
  currentDifficulty (adaptationSettings e') = currentDifficulty (adaptationSettings e)
  ∧ performanceMetrics e' = performanceMetrics e
  ∧ movementHeatmap e' = movementHeatmap e
  ∧ movementHistory e' = movementHistory e.
Proof. done. Qed.

(** One high-performance evaluation. *)
Lemma calculateDifficulty_high e :
  high_performance e →
  let d := currentDifficulty (adaptationSettings e) in
  let high := consecutiveHighPerformance (performanceMetrics e) + 1 in
  let e' := calculateDifficulty e in
  consecutiveLowPerformance (performanceMetrics e') = 0
  ∧ (3 ≤ high → (d < 10)%Q →
     currentDifficulty (adaptationSettings e') = Qmin 10 (d + 1)
     ∧ consecutiveHighPerformance (performanceMetrics e') = 0)
  ∧ (¬ (3 ≤ high ∧ (d < 10)%Q) →
     currentDifficulty (adaptationSettings e') = d
     ∧ consecutiveHighPerformance (performanceMetrics e') = high).
Proof.
  intros [Hlen Hhigh] d high e'. subst e'. unfold calculateDifficulty.
  rewrite bool_decide_eq_false_2 by lia.
  rewrite (bool_decide_eq_true_2 _ Hhigh). fold d high.
  destruct (decide (3 ≤ high ∧ (d < 10)%Q)) as [[H3 Hd]|Hno].
  - rewrite (bool_decide_eq_true_2 _ H3), (bool_decide_eq_true_2 _ Hd). simpl.
    rewrite bool_decide_eq_true_2 by (by apply Qmin_raise).
    split_and!; [done|done|]. intros []. done.
  - assert (bool_decide (3 ≤ high) && bool_decide (d < 10)%Q = false) as ->.
    { apply andb_false_iff.
      destruct (decide (3 ≤ high)); [right|left]; apply bool_decide_eq_false; tauto. }
    rewrite bool_decide_eq_false_2 by (intros Hne; apply Hne; reflexivity).
    split_and!; [done| |done]. intros ? ?. tauto.
Qed.

(** One low-performance evaluation. *)
Lemma calculateDifficulty_low e :
  low_performance e →
  let d := currentDifficulty (adaptationSettings e) in
  let low := consecutiveLowPerformance (performanceMetrics e) + 1 in
  let e' := calculateDifficulty e in
  consecutiveHighPerformance (performanceMetrics e') = 0
  ∧ (3 ≤ low → (1 < d)%Q →
     currentDifficulty (adaptationSettings e') = Qmax 1 (d - 1)
     ∧ consecutiveLowPerformance (performanceMetrics e') = 0)
  ∧ (¬ (3 ≤ low ∧ (1 < d)%Q) →
     currentDifficulty (adaptationSettings e') = d
     ∧ consecutiveLowPerformance (performanceMetrics e') = low).
Proof.
  intros Hlow d low e'. subst e'. pose proof (low_not_high e Hlow) as Hnot.
  destruct Hlow as [Hlen Hlow]. unfold calculateDifficulty.
  rewrite bool_decide_eq_false_2 by lia.
  rewrite (bool_decide_eq_false_2 _ Hnot), (bool_decide_eq_true_2 _ Hlow). fold d low.
  destruct (decide (3 ≤ low ∧ (1 < d)%Q)) as [[H3 Hd]|Hno].
  - rewrite (bool_decide_eq_true_2 _ H3), (bool_decide_eq_true_2 _ Hd). simpl.
    rewrite bool_decide_eq_true_2 by (by apply Qmax_lower).
    split_and!; [done|done|]. intros []. done.
  - assert (bool_decide (3 ≤ low) && bool_decide (1 < d)%Q = false) as ->.
    { apply andb_false_iff.
      destruct (decide (3 ≤ low)); [right|left]; apply bool_decide_eq_false; tauto. }
    rewrite bool_decide_eq_false_2 by (intros Hne; apply Hne; reflexivity).
    split_and!; [done| |done]. intros ? ?. tauto.
Qed.
End difficulty_streaks.

(** C3, as the code has it. Three consecutive high-performance
    evaluations, the first starting from a high streak of 0 and each
    carrying the difficulty and the streak counters of the one before:
    below difficulty 10 the third one raises the difficulty to
    min(10, d + 1), which is d + 1 up to difficulty 9, and resets the high
    streak to 0; from difficulty 10 on the difficulty stays and the high
    streak is 3, not reset. Symmetrically for three low-performance
    evaluations: above difficulty 1 the third one lowers the difficulty to
    max(1, d - 1) and resets the low streak to 0; at difficulty 1 or below
    the difficulty stays and the low streak is 3. *)
Theorem calculateDifficulty_three_evaluations :
  (∀ e1 e2 e3,
     high_performance e1 → high_performance e2 → high_performance e3 →
     consecutiveHighPerformance (performanceMetrics e1) = 0 →
     carries_controller (calculateDifficulty e1) e2 →
     carries_controller (calculateDifficulty e2) e3 →
     let d := currentDifficulty (adaptationSettings e1) in
     let e' := calculateDifficulty e3 in
     ((d < 10)%Q →
      currentDifficulty (adaptationSettings e') = Qmin 10 (d + 1)
      ∧ ((d <= 9)%Q → (currentDifficulty (adaptationSettings e') == d + 1)%Q)
      ∧ consecutiveHighPerformance (performanceMetrics e') = 0)
     ∧ (¬ (d < 10)%Q →
        currentDifficulty (adaptationSettings e') = d
        ∧ consecutiveHighPerformance (performanceMetrics e') = 3))
  ∧ (∀ e1 e2 e3,
       low_performance e1 → low_performance e2 → low_performance e3 →
       consecutiveLowPerformance (performanceMetrics e1) = 0 →
       carries_controller (calculateDifficulty e1) e2 →
       carries_controller (calculateDifficulty e2) e3 →
       let d := currentDifficulty (adaptationSettings e1) in
       let e' := calculateDifficulty e3 in
       ((1 < d)%Q →
        currentDifficulty (adaptationSettings e') = Qmax 1 (d - 1)
        ∧ ((2 <= d)%Q → (currentDifficulty (adaptationSettings e') == d - 1)%Q)
        ∧ consecutiveLowPerformance (performanceMetrics e') = 0)
       ∧ (¬ (1 < d)%Q →
          currentDifficulty (adaptationSettings e') = d
          ∧ consecutiveLowPerformance (performanceMetrics e') = 3)).
Proof.
  split.
  - intros e1 e2 e3 H1 H2 H3 Hstart (Hd2 & Hh2 & _) (Hd3 & Hh3 & _) d e'.
    destruct (calculateDifficulty_high e1 H1) as (_ & _ & Hkeep1).
    destruct Hkeep1 as [Hd1' Hh1']; [rewrite Hstart; lia|].
    destruct (calculateDifficulty_high e2 H2) as (_ & _ & Hkeep2).
    destruct Hkeep2 as [Hd2' Hh2']; [rewrite Hh2, Hh1', Hstart; lia|].
    assert (Hd : currentDifficulty (adaptationSettings e3) = d).
    { unfold d. rewrite Hd3, Hd2', Hd2, Hd1'. done. }
    assert (Hh : consecutiveHighPerformance (performanceMetrics e3) = 2).
    { rewrite Hh3, Hh2', Hh2, Hh1', Hstart. done. }
    destruct (calculateDifficulty_high e3 H3) as (_ & Hraise & Hkeep3).
    rewrite Hd, Hh in Hraise, Hkeep3. fold e' in Hraise, Hkeep3.
    split.
    + intros Hlt. destruct Hraise as [Hnew Hreset]; [lia|done|].
      split_and!; [done| |done].
      intros Hle. rewrite Hnew. apply Q.min_r. lra.
    + intros Hge. destruct Hkeep3 as [Hsame Hstreak]; [tauto|]. done.
  - intros e1 e2 e3 H1 H2 H3 Hstart (Hd2 & _ & Hl2) (Hd3 & _ & Hl3) d e'.
    destruct (calculateDifficulty_low e1 H1) as (_ & _ & Hkeep1).
    destruct Hkeep1 as [Hd1' Hl1']; [rewrite Hstart; lia|].
    destruct (calculateDifficulty_low e2 H2) as (_ & _ & Hkeep2).
    destruct Hkeep2 as [Hd2' Hl2']; [rewrite Hl2, Hl1', Hstart; lia|].
    assert (Hd : currentDifficulty (adaptationSettings e3) = d).
    { unfold d. rewrite Hd3, Hd2', Hd2, Hd1'. done. }
    assert (Hl : consecutiveLowPerformance (performanceMetrics e3) = 2).
    { rewrite Hl3, Hl2', Hl2, Hl1', Hstart. done. }
    destruct (calculateDifficulty_low e3 H3) as (_ & Hlower & Hkeep3).
    rewrite Hd, Hl in Hlower, Hkeep3. fold e' in Hlower, Hkeep3.
    split.
    + intros Hlt. destruct Hlower as [Hnew Hreset]; [lia|done|].
      split_and!; [done| |done].
      intros Hle. rewrite Hnew. apply Q.max_r. lra.
    + intros Hge. destruct Hkeep3 as [Hsame Hstreak]; [tauto|]. done.
Qed.

Lemma calculateDifficulty_three_evaluations_witness :
  let e1 := loadBehaviorData (scoresOnly [200; 210; 190]%Q)
              (setDifficulty 5 (newAIEngine 20 400 400)) in
  let e' := calculateDifficulty (calculateDifficulty (calculateDifficulty e1)) in
  (currentDifficulty (adaptationSettings e') == 6)%Q
  ∧ consecutiveHighPerformance (performanceMetrics e') = 0.
Proof.
  intros e1 e'.
  destruct calculateDifficulty_three_evaluations as [Hhigh _].
  destruct (Hhigh e1 (calculateDifficulty e1) (calculateDifficulty (calculateDifficulty e1)))
    as [Hraise _].
  - split; closed_fact.
  - split; closed_fact.
  - split; closed_fact.
  - closed_fact.
  - by repeat split.
  - by repeat split.
  - destruct Hraise as (_ & Hexact & Hreset); [closed_fact|].
    split; [|exact Hreset]. eapply Qeq_trans; [apply Hexact|]; closed_fact.
Defined.

(** C3, as stated, fails at the ends of the scale. Three low-performance
    evaluations at difficulty 1 leave the low streak at 3; this is also
    what five sessions with score 5 on a fresh engine lead to. Three
    high-performance evaluations at difficulty 10 leave the high streak
    at 3. *)
Lemma calculateDifficulty_streak_kept_at_bounds :
  (let e1 := loadBehaviorData (scoresOnly [5; 6; 4]%Q) (newAIEngine 20 400 400) in
   let e2 := calculateDifficulty e1 in
   let e3 := calculateDifficulty e2 in
   let e' := calculateDifficulty e3 in
   low_performance e1 ∧ low_performance e2 ∧ low_performance e3
   ∧ consecutiveLowPerformance (performanceMetrics e1) = 0
   ∧ currentDifficulty (adaptationSettings e1) = 1%Q
   ∧ currentDifficulty (adaptationSettings e') = 1%Q
   ∧ consecutiveLowPerformance (performanceMetrics e') = 3
   ∧ consecutiveLowPerformance (performanceMetrics e') ≠ 0)
  ∧ (let e' := endGameSession 50 5 (endGameSession 40 5 (endGameSession 30 5
                 (endGameSession 20 5 (endGameSession 10 5 (newAIEngine 20 400 400))))) in
     currentDifficulty (adaptationSettings e') = 1%Q
     ∧ consecutiveLowPerformance (performanceMetrics e') = 3)
  ∧ (let e1 := loadBehaviorData (scoresOnly [200; 210; 190]%Q)
                 (setDifficulty 10 (newAIEngine 20 400 400)) in
     let e2 := calculateDifficulty e1 in
     let e3 := calculateDifficulty e2 in
     let e' := calculateDifficulty e3 in
     high_performance e1 ∧ high_performance e2 ∧ high_performance e3
     ∧ consecutiveHighPerformance (performanceMetrics e1) = 0
     ∧ currentDifficulty (adaptationSettings e1) = 10%Q
     ∧ currentDifficulty (adaptationSettings e') = 10%Q
     ∧ consecutiveHighPerformance (performanceMetrics e') = 3
     ∧ consecutiveHighPerformance (performanceMetrics e') ≠ 0).
Proof.
  split_and!; try (split; closed_fact); closed_fact.
Qed.

(** ** Visual intensity derivation *)

Section visual_intensity.
Implicit Types (e : AIEngine).

(** The stored level is the clamped rounded mean of the stored level
    and the difficulty modifier, hence between 1 and 5. *)
Lemma updateVisualIntensityFromDifficulty_combined e :
  ∃ level : Z,
    visualIntensityLevel (adaptationSettings (updateVisualIntensityFromDifficulty e))
    = inject_Z level
    ∧ level
      = Z.min 5 (Z.max 1
          (js_round ((visualIntensityLevel (adaptationSettings e)
                      + inject_Z (difficultyIntensityModifier
                                    (currentDifficulty (adaptationSettings e)))) / 2)%Q))
    ∧ 1 ≤ level ≤ 5.
Proof. eexists. split; [reflexivity|]. split; [reflexivity|]. lia. Qed.

(** Below difficulty 9.99 the modifier stays within 1 to 3. *)
Lemma difficultyIntensityModifier_range (d : Q) :
  (0 < d)%Q → (d <= 999 # 100)%Q → 1 ≤ difficultyIntensityModifier d ≤ 3.
Proof.
  intros Hpos Hle. unfold difficultyIntensityModifier.
  set (q := (d / (333 # 100))%Q).
  assert (Hq0 : (0 < q)%Q).
  { unfold q. apply Qlt_shift_div_l; [reflexivity|]. lra. }
  assert (Hq3 : (q <= 3)%Q).
  { unfold q. apply Qle_shift_div_r; [reflexivity|]. lra. }
  pose proof (Qle_ceiling q) as Hup. pose proof (Qceiling_lt q) as Hlow.
  split.
  - assert (0 < inject_Z (Qceiling q))%Q as H0 by lra.
    unfold Qlt in H0. simpl in H0. lia.
  - assert (inject_Z (Qceiling q - 1) < 3)%Q as H3 by lra.
    unfold Qlt in H3. simpl in H3. lia.
Qed.
End visual_intensity.

(** C4. At difficulty 10 the modifier [Math.ceil(10 / 3.33)] is 4 and not
    within 1 to 3 (10 / 3.33 is a little more than 3); for the
    difficulties 1 to 9 it is 1, 1, 1, 2, 2, 2, 3, 3, 3. With a stored
    level of 5, difficulty 10 gives the combined level 5, where a modifier
    of 3 would give 4. *)
Theorem difficultyIntensityModifier_is_4_at_10 :
  difficultyIntensityModifier 10 = 4
  ∧ difficultyIntensityModifier <$> [1; 2; 3; 4; 5; 6; 7; 8; 9]%Q
    = [1; 1; 1; 2; 2; 2; 3; 3; 3]
  ∧ visualIntensityLevel
      (adaptationSettings
         (updateVisualIntensityFromDifficulty
            (set_adaptationSettings (mkAdaptationSettings 10 "random" 5)
               (newAIEngine 20 400 400))))
    = 5%Q
  ∧ Z.min 5 (Z.max 1 (js_round ((5 + inject_Z 3) / 2)%Q)) = 4.
Proof. by repeat split. Qed.

Lemma generateHeatmap_normalized_witness :
  ∃ normalizedHeatmap,
    generateHeatmap (set_movementHeatmap [[2; 1]; [0; 0]] (newAIEngine 20 40 40))
    = Some normalizedHeatmap
    ∧ Exists (Exists (λ v, (v == 1)%Q)) normalizedHeatmap
    ∧ Forall (Forall (λ v, (0 <= v)%Q ∧ (v <= 1)%Q)) normalizedHeatmap.
Proof.
  destruct (generateHeatmap_normalized
              (set_movementHeatmap [[2; 1]; [0; 0]] (newAIEngine 20 40 40)))
    as (n & Hn & _ & _ & Hrange & _ & Hmax).
  - split; [closed_fact|]. split; [reflexivity|]. by repeat constructor.
  - repeat constructor; lia.
  - exists n. split; [exact Hn|]. split; [|exact Hrange].
    apply Hmax. apply Exists_cons_hd, Exists_cons_hd. lia.
Defined.

(** ** Snapshots: loading *)



(** Loading what [getBehaviorData] exports changes nothing. *)
Lemma loadBehaviorData_getBehaviorData e :
  loadBehaviorData (getBehaviorData e) e = e.
Proof. by destruct e as [? ? ? ? ? ? ? ? [] []]. Qed.


(** ** Difficulty level: range *)

Section difficulty_range.
Implicit Types (e : AIEngine) (d : Q).

(** The difficulty after an evaluation: kept, raised from below 10, or
    lowered from above 1. *)
Lemma calculateDifficulty_difficulty e :
  let d := currentDifficulty (adaptationSettings e) in
  let d' := currentDifficulty (adaptationSettings (calculateDifficulty e)) in
  d' = d ∨ ((d < 10)%Q ∧ d' = Qmin 10 (d + 1)) ∨ ((1 < d)%Q ∧ d' = Qmax 1 (d - 1)).
Proof.
  intros d d'. subst d'. unfold calculateDifficulty. fold d.
  case_bool_decide; [by left|].
  destruct (bool_decide (highPerformanceThreshold _ <= _)%Q).
  - destruct (bool_decide (3 ≤ _)); simpl.
    + case_bool_decide as Hd; simpl.
      * case_bool_decide; simpl; [right; left; done|by left].
      * case_bool_decide; by left.
    + case_bool_decide; by left.
  - destruct (bool_decide (_ <= lowPerformanceThreshold _)%Q).
    + destruct (bool_decide (3 ≤ _)); simpl.
      * case_bool_decide as Hd; simpl.
        -- case_bool_decide; simpl; [right; right; done|by left].
        -- case_bool_decide; by left.
      * case_bool_decide; by left.
    + case_bool_decide; by left.
Qed.

Lemma calculateDifficulty_in_range e :
  difficulty_in_range (currentDifficulty (adaptationSettings e)) →
  difficulty_in_range (currentDifficulty (adaptationSettings (calculateDifficulty e))).
Proof.
  intros [Hlo Hhi].
  destruct (calculateDifficulty_difficulty e) as [->|[[Hd ->]|[Hd ->]]]; [done|..].
  - split.
    + apply Q.min_glb; lra.
    + apply Q.le_min_l.
  - split.
    + apply Q.le_max_l.
    + apply Q.max_lub; lra.
Qed.

Lemma calculateDifficulty_integer e :
  is_integer (currentDifficulty (adaptationSettings e)) →
  is_integer (currentDifficulty (adaptationSettings (calculateDifficulty e))).
Proof.
  intros [z Hz].
  destruct (calculateDifficulty_difficulty e) as [->|[[Hd ->]|[Hd ->]]];
    [by exists z|..].
  - destruct (Q.min_spec 10 (currentDifficulty (adaptationSettings e) + 1))
      as [[_ Hm]|[_ Hm]].
    + exists 10. by rewrite Hm.
    + exists (z + 1). rewrite Hm, Hz, inject_Z_plus. reflexivity.
  - destruct (Q.max_spec 1 (currentDifficulty (adaptationSettings e) - 1))
      as [[_ Hm]|[_ Hm]].
    + exists (z - 1). rewrite Hm, Hz. unfold Z.sub, Qminus.
      rewrite inject_Z_plus, inject_Z_opp. reflexivity.
    + exists 1. by rewrite Hm.
Qed.

Lemma setDifficulty_in_range d e :
  difficulty_in_range (currentDifficulty (adaptationSettings e)) →
  difficulty_in_range (currentDifficulty (adaptationSettings (setDifficulty d e))).
Proof. intros Hin. unfold setDifficulty. by case_bool_decide. Qed.

Lemma setDifficulty_rejects d e :
  ¬ difficulty_in_range d → setDifficulty d e = e.
Proof. intros Hout. unfold setDifficulty. by rewrite bool_decide_eq_false_2. Qed.

Lemma endGameSession_in_range now finalScore e :
  difficulty_in_range (currentDifficulty (adaptationSettings e)) →
  difficulty_in_range
    (currentDifficulty (adaptationSettings (endGameSession now finalScore e))).
Proof. intros Hin. unfold endGameSession. by apply calculateDifficulty_in_range. Qed.

Lemma recordMovement_difficulty now pos dir ctx e e' :
  recordMovement now pos dir ctx e = Some e' →
  currentDifficulty (adaptationSettings e') = currentDifficulty (adaptationSettings e).
Proof.
  unfold recordMovement.
  destruct (updateHeatmapCell pos _) as [e2|] eqn:Hupd; [simpl|done].
  intros [= <-]. apply updateHeatmapCell_frame in Hupd as (_ & _ & _ & _ & _ & _ & Ha).
  unfold updateVisualIntensityFromMovement. case_bool_decide; simpl; by rewrite Ha.
Qed.

Lemma suggestFoodPlacement_difficulty excl rnd e pos e' :
  suggestFoodPlacement excl rnd e = Some (pos, e') →
  currentDifficulty (adaptationSettings e') = currentDifficulty (adaptationSettings e).
Proof.
  unfold suggestFoodPlacement.
  assert (currentDifficulty (adaptationSettings (determinePlacementStrategy e).2)
          = currentDifficulty (adaptationSettings e)) as Hd.
  { unfold determinePlacementStrategy. by destruct (js_lt_opt _ _). }
  destruct (determinePlacementStrategy e) as [strategy e1]. simpl in Hd.
  destruct (if bool_decide (strategy = "challenging") then _ else _); [simpl|done].
  by intros [= _ <-].
Qed.
End difficulty_range.

(** C6, as the code has it. In every engine reached from the constructor
    through [setDifficulty], [calculateDifficulty], [startGameSession],
    [endGameSession], [recordMovement] and [suggestFoodPlacement] the
    stored difficulty is a number from 1 to 10; [setDifficulty] with a
    value outside 1 to 10 returns the engine unchanged, and with a value
    inside stores it, integer or not; an evaluation keeps an integer
    difficulty an integer. [loadBehaviorData] stores the difficulty of the
    snapshot, whatever it is. *)
Theorem difficulty_stays_in_range :
  (∀ e, reachable e → difficulty_in_range (currentDifficulty (adaptationSettings e)))
  ∧ (∀ d e, ¬ difficulty_in_range d → setDifficulty d e = e)
  ∧ (∀ d e, difficulty_in_range d →
            currentDifficulty (adaptationSettings (setDifficulty d e)) = d)
  ∧ (∀ e, is_integer (currentDifficulty (adaptationSettings e)) →
          is_integer (currentDifficulty (adaptationSettings (calculateDifficulty e))))
  ∧ (∀ d e, currentDifficulty (adaptationSettings (loadBehaviorData (difficultyOnly d) e)) = d).
Proof.
  split_and!.
  - induction 1 as [gs cw ch|d e _ IH|e _ IH|now e _ IH|now s e _ IH
                   |now pos dir ctx e e' _ IH Hrec|excl rnd e pos e' _ IH Hsug].
    + split; closed_fact.
    + by apply setDifficulty_in_range.
    + by apply calculateDifficulty_in_range.
    + exact IH.
    + by apply endGameSession_in_range.
    + by rewrite (recordMovement_difficulty _ _ _ _ _ _ Hrec).
    + by rewrite (suggestFoodPlacement_difficulty _ _ _ _ _ Hsug).
  - exact setDifficulty_rejects.
  - intros d e Hin. unfold setDifficulty. by rewrite bool_decide_eq_true_2.
  - exact calculateDifficulty_integer.
  - done.
Qed.

Lemma difficulty_stays_in_range_witness :
  difficulty_in_range
    (currentDifficulty
       (adaptationSettings
          (endGameSession 20 300 (setDifficulty 7 (newAIEngine 20 400 400)))))
  ∧ setDifficulty 11 (newAIEngine 20 400 400) = newAIEngine 20 400 400.
Proof.
  destruct difficulty_stays_in_range as (Hreach & Hreject & _). split.
  - apply Hreach. do 2 constructor. constructor.
  - apply Hreject. intros [_ Hle]. vm_compute in Hle. congruence.
Defined.

(** C6, as stated, fails: loading a snapshot with difficulty 99 stores 99,
    and [setDifficulty] stores the in-range value 5/2, which is not an
    integer. *)
Lemma difficulty_leaves_range_by_loading :
  let e := loadBehaviorData (difficultyOnly 99) (newAIEngine 20 400 400) in
  currentDifficulty (adaptationSettings e) = 99%Q
  ∧ ¬ difficulty_in_range (currentDifficulty (adaptationSettings e))
  ∧ currentDifficulty (adaptationSettings (setDifficulty (5 # 2) (newAIEngine 20 400 400)))
    = (5 # 2)%Q
  ∧ ¬ is_integer (5 # 2).
Proof.
  split_and!; [done| |done|].
  - intros [_ Hle]. vm_compute in Hle. congruence.
  - intros [z Hz]. unfold Qeq in Hz. simpl in Hz. lia.
Qed.

(** ** Spatial frequency model: statistics and reset *)

Section statistics.
Implicit Types (e : AIEngine) (hm : list (list Z)) (l : list Z).

Lemma statistics_foldl_counts l : ∀ t mx mn nz,
  (foldl statisticsStep (t, mx, mn, nz) l).1.1.1 = t + foldr Z.add 0 l
  ∧ (foldl statisticsStep (t, mx, mn, nz) l).1.1.2 = foldl Z.max mx l
  ∧ (foldl statisticsStep (t, mx, mn, nz) l).2
    = nz + Z.of_nat (length (filter (λ c, 0 < c) l)).
Proof.
  induction l as [|v l IH]; intros t mx mn nz; simpl.
  - split_and!; [lia|done|lia].
  - destruct (IH (t + v) (Z.max mx v)
                (if bool_decide (0 < v)
                 then Some (match mn with None => v | Some m => Z.min m v end)
                 else mn)
                (if bool_decide (0 < v) then nz + 1 else nz)) as (Ht & Hmx & Hnz).
    rewrite Ht, Hmx, Hnz, filter_cons.
    split_and!; [lia|done|].
    case_bool_decide; case_decide; try done; simpl; lia.
Qed.

Lemma statistics_foldl_invariant l : ∀ acc,
  Forall (λ c, 0 ≤ c) l → statistics_invariant acc →
  statistics_invariant (foldl statisticsStep acc l).
Proof.
  induction l as [|v l IH]; intros acc Hnn Hinv; [done|].
  inversion_clear Hnn as [|? ? Hv Hl]. simpl. apply IH; [done|].
  destruct acc as [[[t mx] mn] nz]. unfold statistics_invariant in Hinv |- *.
  simpl. destruct Hinv as (Hmx & Hnz & Hmn).
  destruct mn as [m|];
    [destruct Hmn as (? & ? & ? & ? & ?)|destruct Hmn as (-> & -> & ->)];
    case_bool_decide; simpl; repeat split; (lia || nia).
Qed.

Lemma filter_positive_zero l :
  Forall (λ c, c = 0) l → filter (λ c, 0 < c) l = [].
Proof.
  induction 1 as [|c l -> _ IH]; [done|].
  rewrite filter_cons_False by lia. exact IH.
Qed.

Lemma sum_zero l : Forall (λ c, c = 0) l → foldr Z.add 0 l = 0.
Proof. induction 1 as [|c l -> _ IH]; simpl; [done|exact IH]. Qed.

Lemma length_join_shape e :
  heatmap_shape e →
  length (mjoin (movementHeatmap e))
  = (Z.to_nat (gridHeight e) * Z.to_nat (gridWidth e))%nat.
Proof.
  intros [Hlen Hrows]. rewrite <- Hlen. clear Hlen.
  induction Hrows as [|row hm Hrow _ IH]; simpl; [done|].
  rewrite length_app, IH, Hrow. lia.
Qed.

Lemma heatmapTotal_insert hm row (x y : nat) (c v : Z) :
  hm !! y = Some row → row !! x = Some c →
  heatmapTotal (<[y := <[x := v]> row]> hm) = heatmapTotal hm - c + v.
Proof.
  intros Hrow Hc. unfold heatmapTotal.
  assert (Hsum : ∀ l k : list Z,
            foldr Z.add 0 (l ++ k) = foldr Z.add 0 l + foldr Z.add 0 k).
  { intros l k. induction l as [|a l IH]; simpl; lia. }
  rewrite insert_take_drop by (by eapply lookup_lt_Some).
  rewrite <- (take_drop_middle hm y row Hrow) at 3.
  rewrite !join_app. simpl. rewrite !Hsum.
  rewrite insert_take_drop by (by eapply lookup_lt_Some).
  rewrite <- (take_drop_middle row x c Hc) at 3.
  rewrite !Hsum. simpl. lia.
Qed.
End statistics.

(** X1. On a well-formed engine with non-negative counters
    [getHeatmapStatistics] returns: as [totalMoves] the sum of all
    counters; as [nonZeroCells] the number of positive counters, which is
    at most [totalCells] on a grid of non-negative dimensions; all of
    [totalMoves], [maxValue], [minValue], [averageValue] zero when no
    counter is positive; and otherwise 1 <= [minValue] <= [averageValue]
    <= [maxValue]. *)
Theorem getHeatmapStatistics_bounds e :
  well_formed e → heatmap_nonneg (movementHeatmap e) →
  ∃ st,
    getHeatmapStatistics e = Some st
    ∧ stat_totalMoves st = heatmapTotal (movementHeatmap e)
    ∧ stat_nonZeroCells st
      = Z.of_nat (length (filter (λ c, 0 < c) (mjoin (movementHeatmap e))))
    ∧ (0 ≤ gridWidth e → 0 ≤ gridHeight e → stat_nonZeroCells st ≤ stat_totalCells st)
    ∧ (stat_nonZeroCells st = 0 →
       stat_totalMoves st = 0 ∧ stat_maxValue st = 0 ∧ stat_minValue st = 0
       ∧ stat_averageValue st = 0%Q)
    ∧ (0 < stat_nonZeroCells st →
       1 ≤ stat_minValue st
       ∧ (inject_Z (stat_minValue st) <= stat_averageValue st)%Q
       ∧ (stat_averageValue st <= inject_Z (stat_maxValue st))%Q).
Proof.
  intros [_ Hshape] Hnn. unfold getHeatmapStatistics.
  rewrite scanHeatmap_shape by done. simpl.
  pose proof (statistics_foldl_counts (mjoin (movementHeatmap e)) 0 0 None 0)
    as (Ht & _ & Hnz).
  pose proof (statistics_foldl_invariant (mjoin (movementHeatmap e)) (0, 0, None, 0))
    as Hinv.
  destruct (foldl statisticsStep (0, 0, None, 0) (mjoin (movementHeatmap e)))
    as [[[t mx] mn] nz].
  simpl in Ht, Hnz.
  destruct Hinv as (Hmx & Hnz0 & Hmn); [by apply Forall_join|by repeat split|].
  eexists. split; [reflexivity|]. simpl. split_and!.
  - rewrite Ht. unfold heatmapTotal. lia.
  - rewrite Hnz. lia.
  - intros Hw Hh. rewrite Hnz.
    pose proof (length_filter (λ c, 0 < c) (mjoin (movementHeatmap e))) as Hle.
    rewrite length_join_shape in Hle by done. nia.
  - intros ->. destruct mn as [m|]; [lia|]. destruct Hmn as (_ & -> & ->).
    by rewrite bool_decide_eq_false_2 by lia.
  - intros Hpos. destruct mn as [m|]; [|lia].
    destruct Hmn as (Hm1 & Hmmx & _ & Hlo & Hhi). simpl.
    rewrite bool_decide_eq_true_2 by done.
    assert (0 < inject_Z nz)%Q by (by apply inject_Z_pos).
    split_and!; [done| |].
    + apply Qle_shift_div_l; [done|]. rewrite <- inject_Z_mult. by apply inject_Z_le.
    + apply Qle_shift_div_r; [done|]. rewrite <- inject_Z_mult. by apply inject_Z_le.
Qed.

Lemma getHeatmapStatistics_bounds_witness :
  ∃ st,
    getHeatmapStatistics (set_movementHeatmap [[2; 1]; [0; 3]] (newAIEngine 20 40 40))
    = Some st
    ∧ stat_totalMoves st = 6 ∧ stat_nonZeroCells st = 3 ∧ 1 ≤ stat_minValue st.
Proof.
  destruct (getHeatmapStatistics_bounds
              (set_movementHeatmap [[2; 1]; [0; 3]] (newAIEngine 20 40 40)))
    as (st & Hst & Ht & Hnz & _ & _ & Hpos).
  - split; [closed_fact|]. split; [reflexivity|]. by repeat constructor.
  - repeat constructor; lia.
  - exists st. split; [exact Hst|]. split; [by rewrite Ht|]. split; [by rewrite Hnz|].
    apply Hpos. rewrite Hnz. closed_fact.
Defined.

Lemma getHeatmapStatistics_total e :
  heatmap_shape e →
  stat_totalMoves <$> getHeatmapStatistics e = Some (heatmapTotal (movementHeatmap e)).
Proof.
  intros Hshape. unfold getHeatmapStatistics.
  rewrite scanHeatmap_shape by done. simpl.
  pose proof (statistics_foldl_counts (mjoin (movementHeatmap e)) 0 0 None 0)
    as (Ht & _ & _).
  destruct (foldl statisticsStep (0, 0, None, 0) (mjoin (movementHeatmap e)))
    as [[[t mx] mn] nz].
  simpl in *. rewrite Ht. unfold heatmapTotal. f_equal; lia.
Qed.

(** X2. On a well-formed engine a call of [recordMovement] succeeds and
    raises the [totalMoves] of [getHeatmapStatistics] by one when the
    position is inside the grid, and leaves it as it was when the position
    is outside. *)
Theorem recordMovement_counts_one_move now pos dir ctx e :
  well_formed e →
  ∃ e',
    recordMovement now pos dir ctx e = Some e'
    ∧ stat_totalMoves <$> getHeatmapStatistics e'
      = (λ t, t + (if bool_decide (in_bounds e pos) then 1 else 0))
        <$> (stat_totalMoves <$> getHeatmapStatistics e).
Proof.
  intros Hwf.
  destruct (recordMovement_step now pos dir ctx e Hwf) as (e' & Hrec & [_ Hshape'] & _).
  exists e'. split; [done|].
  rewrite !getHeatmapStatistics_total by (done || apply Hwf). simpl. f_equal.
  unfold recordMovement in Hrec.
  set (e1 := set_movementHistory _ e) in Hrec.
  destruct (updateHeatmapCell pos e1) as [e2|] eqn:Hupd; [simpl in Hrec|done].
  injection Hrec as <-.
  destruct (updateVisualIntensityFromMovement_frame e2) as (_ & _ & _ & _ & _ & -> & _).
  destruct (decide (in_bounds e pos)) as [Hin|Hout].
  - rewrite bool_decide_eq_true_2 by done.
    destruct (updateHeatmapCell_in_bounds e1 pos) as (row & c & Hrow & Hc & Heq);
      [apply Hwf|exact Hin|].
    rewrite Heq in Hupd. injection Hupd as <-. simpl.
    rewrite (heatmapTotal_insert _ row _ _ c) by done. lia.
  - rewrite bool_decide_eq_false_2 by done.
    rewrite (updateHeatmapCell_out_of_bounds e1 pos) in Hupd by exact Hout.
    injection Hupd as <-. simpl. lia.
Qed.

Lemma recordMovement_counts_one_move_witness :
  ∃ e',
    recordMovement 1 (mkPosition 100 100) "up" (mkGameContextArg None None None)
      (newAIEngine 20 400 400) = Some e'
    ∧ stat_totalMoves <$> getHeatmapStatistics e' = Some 1.
Proof.
  destruct (recordMovement_counts_one_move 1 (mkPosition 100 100) "up"
              (mkGameContextArg None None None) (newAIEngine 20 400 400))
    as (e' & Hrec & Htotal).
  - apply newAIEngine_well_formed. lia.
  - exists e'. split; [exact Hrec|]. rewrite Htotal. closed_fact.
Defined.

(** X3. [resetHeatmap] gives the heatmap its shape back, whatever it was
    before, and zeroes it: the normalized heatmap is all zeros, the
    statistics count no move and no non-zero cell, and the history, the
    metrics and the settings are untouched. *)
Theorem resetHeatmap_zeroes e :
  heatmap_shape (resetHeatmap e)
  ∧ generateHeatmap (resetHeatmap e)
    = Some (replicate (Z.to_nat (gridHeight e)) (replicate (Z.to_nat (gridWidth e)) 0%Q))
  ∧ (stat_totalMoves <$> getHeatmapStatistics (resetHeatmap e)) = Some 0
  ∧ (stat_nonZeroCells <$> getHeatmapStatistics (resetHeatmap e)) = Some 0
  ∧ movementHistory (resetHeatmap e) = movementHistory e
  ∧ performanceMetrics (resetHeatmap e) = performanceMetrics e
  ∧ adaptationSettings (resetHeatmap e) = adaptationSettings e.
Proof.
  assert (Hshape : heatmap_shape (resetHeatmap e)).
  { split; simpl; unfold initializeHeatmap.
    - by rewrite length_replicate.
    - apply Forall_replicate. by rewrite length_replicate. }
  assert (Hzero : Forall (λ c, c = 0) (mjoin (movementHeatmap (resetHeatmap e)))).
  { apply Forall_join. simpl. unfold initializeHeatmap.
    apply Forall_replicate, Forall_replicate. done. }
  split_and!; [done| | | |done..].
  - rewrite generateHeatmap_shape by done.
    rewrite (foldl_max_zero _ Hzero). simpl. unfold initializeHeatmap.
    by rewrite !fmap_replicate.
  - rewrite getHeatmapStatistics_total by done. f_equal.
    unfold heatmapTotal. by apply sum_zero.
  - unfold getHeatmapStatistics. rewrite scanHeatmap_shape by done. simpl.
    pose proof (statistics_foldl_counts (mjoin (initializeHeatmap (gridWidth e) (gridHeight e)))
                  0 0 None 0) as (_ & _ & Hnz).
    destruct (foldl statisticsStep _ _) as [[[t mx] mn] nz]. simpl in *.
    f_equal. rewrite Hnz, (filter_positive_zero _ Hzero). done.
Qed.

(** ** Spatial frequency model: hotspots and coldspots *)

Section spots.
Implicit Types (e : AIEngine) (s : Spot).

(** A list that is in order already is left as it is (ties keep their
    scan order). *)
Lemma js_sort_sorted_id {A} (before : A → A → bool) (l : list A) :
  Sorted (λ x y, before x y) l → js_sort before l = l.
Proof.
  induction 1 as [|a l Hl IH Hhd]; [done|]. simpl.
  fold (js_sort before l). rewrite IH.
  destruct Hhd as [|b l' Hab]; simpl; [done|].
  by destruct (before a b).
Qed.

(** On a heatmap of the right shape the scan yields one spot for each grid
    index, in scan order. *)
Lemma gridSpots_shape e :
  heatmap_shape e →
  ∃ normalizedHeatmap spots,
    generateHeatmap e = Some normalizedHeatmap
    ∧ mapM (spotAt e normalizedHeatmap) (gridIndices e) = Some spots
    ∧ Forall2 (λ xy s, spotAt e normalizedHeatmap xy = Some s) (gridIndices e) spots.
Proof.
  intros Hshape. eexists. 
  assert (is_Some (mapM (spotAt e
            (fmap (M := list)
               (fmap (M := list)
                  (normalizeCell (foldl Z.max 0 (mjoin (movementHeatmap e)))))
               (movementHeatmap e))) (gridIndices e))) as [spots Hspots].
  { apply mapM_is_Some_2, Forall_forall. intros [x y] Hxy. simpl.
    apply elem_of_gridIndices in Hxy as [Hx Hy].
    destruct (generateHeatmap_lookup e x y Hshape Hx Hy) as (n & v & Hn & Hv).
    rewrite generateHeatmap_shape in Hn by done. injection Hn as <-.
    rewrite Hv. simpl.
    destruct (heatmap_shape_lookup e x y Hshape Hx Hy) as (row & c & Hrow & Hc & _).
    unfold heat_cell. rewrite Hrow. simpl. rewrite Hc. by eexists. }
  exists spots. split_and!; [by apply generateHeatmap_shape|done|].
  by apply mapM_Some_1.
Qed.

Lemma elem_of_gridSpots e normalizedHeatmap spots s :
  Forall2 (λ xy s, spotAt e normalizedHeatmap xy = Some s) (gridIndices e) spots →
  s ∈ spots
  ↔ ∃ x y : nat,
      (x < Z.to_nat (gridWidth e))%nat ∧ (y < Z.to_nat (gridHeight e))%nat
      ∧ spotAt e normalizedHeatmap (x, y) = Some s.
Proof.
  intros Hall. split.
  - intros Hs. apply list_elem_of_lookup in Hs as [i Hi].
    destruct (Forall2_lookup_r _ _ _ _ _ Hall Hi) as ([x y] & Hxy & Hspot).
    apply list_elem_of_lookup_2, elem_of_gridIndices in Hxy as [Hx Hy]. eauto.
  - intros (x & y & Hx & Hy & Hspot).
    assert ((x, y) ∈ gridIndices e) as Hxy by (by apply elem_of_gridIndices).
    apply list_elem_of_lookup in Hxy as [i Hi].
    destruct (Forall2_lookup_l _ _ _ _ _ Hall Hi) as (s' & Hs' & Hspot').
    rewrite Hspot in Hspot'. injection Hspot' as <-.
    by eapply list_elem_of_lookup_2.
Qed.

Lemma Qle_before_total (f : Spot → Q) (a b : Spot) :
  bool_decide (f a - f b <= 0)%Q = false → bool_decide (f b - f a <= 0)%Q = true.
Proof. rewrite bool_decide_eq_false, bool_decide_eq_true. lra. Qed.
End spots.

(** X4. On a well-formed engine [getColdspots(threshold)] returns exactly
    the spots of the grid cells whose normalized value is at most the
    threshold (each with the pixel coordinates, the grid index, the
    normalized value and the raw count that [spotAt] gives it), ordered by
    ascending intensity. *)
Theorem getColdspots_spec threshold e :
  well_formed e →
  ∃ normalizedHeatmap coldspots,
    generateHeatmap e = Some normalizedHeatmap
    ∧ getColdspots threshold e = Some coldspots
    ∧ (∀ s, s ∈ coldspots
          ↔ (spot_intensity s <= threshold)%Q
            ∧ ∃ x y : nat,
                (x < Z.to_nat (gridWidth e))%nat ∧ (y < Z.to_nat (gridHeight e))%nat
                ∧ spotAt e normalizedHeatmap (x, y) = Some s)
    ∧ StronglySorted (λ a b, (spot_intensity a <= spot_intensity b)%Q) coldspots.
Proof.
  intros [_ Hshape].
  destruct (gridSpots_shape e Hshape) as (n & spots & Hn & Hspots & Hall).
  exists n. eexists. split; [done|]. unfold getColdspots.
  rewrite Hn. simpl. rewrite Hspots. simpl. split; [reflexivity|]. split.
  - intros s. rewrite js_sort_elem_of, list_elem_of_filter.
    by rewrite (elem_of_gridSpots e n spots s Hall).
  - eapply StronglySorted_impl_elem_of; last first.
    + apply Sorted_StronglySorted; last first.
      * apply js_sort_sorted. apply (Qle_before_total spot_intensity).
      * intros a b c Hab Hbc. apply bool_decide_unpack in Hab, Hbc.
        apply bool_decide_pack. lra.
    + intros a b _ _ Hab. apply bool_decide_unpack in Hab. lra.
Qed.

Lemma getColdspots_spec_witness :
  ∃ coldspots,
    getColdspots (3 # 10) (set_movementHeatmap [[4; 1]; [0; 2]] (newAIEngine 20 40 40))
    = Some coldspots
    ∧ (λ s, (spot_x s, spot_y s)) <$> coldspots = [(0, 20); (20, 0)].
Proof.
  destruct (getColdspots_spec (3 # 10)
              (set_movementHeatmap [[4; 1]; [0; 2]] (newAIEngine 20 40 40)))
    as (n & coldspots & _ & Hcold & _).
  - split; [closed_fact|]. split; [reflexivity|]. by repeat constructor.
  - exists coldspots. split; [exact Hcold|].
    vm_compute in Hcold. injection Hcold as <-. reflexivity.
Defined.

(** X5. On a well-formed engine [getHotspots(threshold)] returns exactly
    the spots of the grid cells whose normalized value is at least the
    threshold, ordered by descending intensity; when the counters are
    non-negative, some counter is not zero and the threshold is at most 1,
    the list is not empty and its first spot has intensity 1. *)
Theorem getHotspots_spec threshold e :
  well_formed e →
  ∃ normalizedHeatmap hotspots,
    generateHeatmap e = Some normalizedHeatmap
    ∧ getHotspots threshold e = Some hotspots
    ∧ (∀ s, s ∈ hotspots
          ↔ (threshold <= spot_intensity s)%Q
            ∧ ∃ x y : nat,
                (x < Z.to_nat (gridWidth e))%nat ∧ (y < Z.to_nat (gridHeight e))%nat
                ∧ spotAt e normalizedHeatmap (x, y) = Some s)
    ∧ StronglySorted (λ a b, (spot_intensity b <= spot_intensity a)%Q) hotspots
    ∧ (heatmap_nonneg (movementHeatmap e) →
       Exists (Exists (λ c, c ≠ 0)) (movementHeatmap e) →
       (threshold <= 1)%Q →
       ∃ s rest, hotspots = s :: rest ∧ (spot_intensity s == 1)%Q).
Proof.
  intros Hwf. pose proof Hwf as [_ Hshape].
  destruct (gridSpots_shape e Hshape) as (n & spots & Hn & Hspots & Hall).
  exists n. eexists. split; [done|]. unfold getHotspots.
  rewrite Hn. simpl. rewrite Hspots. simpl. split; [reflexivity|].
  set (hotspots := js_sort _ _).
  assert (Hmem : ∀ s, s ∈ hotspots
            ↔ (threshold <= spot_intensity s)%Q
              ∧ ∃ x y : nat,
                  (x < Z.to_nat (gridWidth e))%nat ∧ (y < Z.to_nat (gridHeight e))%nat
                  ∧ spotAt e n (x, y) = Some s).
  { intros s. unfold hotspots. rewrite js_sort_elem_of, list_elem_of_filter.
    by rewrite (elem_of_gridSpots e n spots s Hall). }
  assert (Hsorted : StronglySorted (λ a b, (spot_intensity b <= spot_intensity a)%Q)
                      hotspots).
  { eapply StronglySorted_impl_elem_of; last first.
    - apply Sorted_StronglySorted; last first.
      + apply js_sort_sorted. intros a b.
        rewrite bool_decide_eq_false, bool_decide_eq_true. lra.
      + intros a b c Hab Hbc. apply bool_decide_unpack in Hab, Hbc.
        apply bool_decide_pack. lra.
    - intros a b _ _ Hab. apply bool_decide_unpack in Hab. lra. }
  split_and!; [done..|].
  intros Hnn Hex Hle.
  rewrite generateHeatmap_shape in Hn by done. injection Hn as Hn.
  set (m := foldl Z.max 0 (mjoin (movementHeatmap e))) in Hn.
  destruct (foldl_max_bounds (mjoin (movementHeatmap e)) 0) as [_ Hbound].
  fold m in Hbound.
  assert (Hpos : 0 < m).
  { apply foldl_max_pos; [done|by apply Forall_join|].
    apply Exists_exists in Hex as (row & Hrow & Hex).
    apply Exists_exists in Hex as (c & Hc & Hne).
    apply Exists_exists. exists c. split; [|done]. apply list_elem_of_join. eauto. }
  (* the intensity of a spot is the normalized counter of its cell *)
  assert (Hint : ∀ s (x y : nat), spotAt e n (x, y) = Some s →
            ∃ c, heat_cell (movementHeatmap e) x y = Some c
                 ∧ spot_intensity s = normalizeCell m c).
  { intros s x y Hspot. simpl in Hspot. rewrite <- Hn in Hspot.
    rewrite list_lookup_fmap in Hspot. unfold heat_cell in *.
    destruct (movementHeatmap e !! y) as [row|]; [simpl in Hspot |- *|done].
    rewrite list_lookup_fmap in Hspot.
    destruct (row !! x) as [c|]; [simpl in Hspot|done].
    injection Hspot as <-. by exists c. }
  (* a cell that holds the maximum, and its spot *)
  destruct (foldl_max_attained (mjoin (movementHeatmap e)) 0) as [Heq|Hin];
    fold m in Heq || fold m in Hin; [lia|].
  apply list_elem_of_join in Hin as (row & Hin & Hrow).
  apply list_elem_of_lookup in Hrow as [y Hy]. apply list_elem_of_lookup in Hin as [x Hx].
  assert (∃ s, s ∈ hotspots ∧ (spot_intensity s == 1)%Q) as (s1 & Hs1 & Hone).
  { assert ((x, y) ∈ gridIndices e) as Hxy.
    { destruct Hshape as [Hlen Hrows]. apply elem_of_gridIndices. split.
      - rewrite <- (proj1 (Forall_lookup _ _) Hrows _ _ Hy). by eapply lookup_lt_Some.
      - rewrite <- Hlen. by eapply lookup_lt_Some. }
    apply list_elem_of_lookup in Hxy as [i Hi].
    destruct (Forall2_lookup_l _ _ _ _ _ Hall Hi) as (s & Hs & Hspot).
    destruct (Hint s x y Hspot) as (c & Hc & Hsc).
    unfold heat_cell in Hc. rewrite Hy in Hc. simpl in Hc. rewrite Hx in Hc.
    injection Hc as <-.
    assert (spot_intensity s == 1)%Q as Hs1 by (rewrite Hsc; by apply normalizeCell_max).
    exists s. split; [|done].
    apply Hmem. split; [lra|].
    apply (elem_of_gridSpots e n spots s Hall). by eapply list_elem_of_lookup_2. }
  destruct hotspots as [|s rest] eqn:Hhot; [by apply elem_of_nil in Hs1|].
  exists s, rest. split; [done|].
  (* every intensity is at most 1, and the first one is at least the one found *)
  assert (spot_intensity s <= 1)%Q as Hs_le.
  { destruct (proj1 (Hmem s) (list_elem_of_here _ _)) as (_ & x' & y' & _ & _ & Hspot).
    destruct (Hint s x' y' Hspot) as (c & Hc & ->).
    unfold heat_cell in Hc.
    destruct (movementHeatmap e !! y') as [row'|] eqn:Hrow'; [simpl in Hc|done].
    apply normalizeCell_range.
    - exact (proj1 (Forall_lookup _ _) (proj1 (Forall_lookup _ _) Hnn _ _ Hrow') _ _ Hc).
    - apply (proj1 (Forall_forall _ _) Hbound). apply list_elem_of_join.
      exists row'. split; by eapply list_elem_of_lookup_2. }
  apply elem_of_cons in Hs1 as [->|Hin]; [done|].
  apply StronglySorted_inv in Hsorted as [_ Hhd].
  pose proof (proj1 (Forall_forall _ _) Hhd _ Hin) as Hge. simpl in Hge.
  apply Qle_antisym; [done|]. by rewrite <- Hone.
Qed.

Lemma getHotspots_spec_witness :
  ∃ hotspots,
    getHotspots (7 # 10) (set_movementHeatmap [[4; 1]; [0; 3]] (newAIEngine 20 40 40))
    = Some hotspots
    ∧ (λ s, (spot_x s, spot_y s)) <$> hotspots = [(0, 0); (20, 20)].
Proof.
  destruct (getHotspots_spec (7 # 10)
              (set_movementHeatmap [[4; 1]; [0; 3]] (newAIEngine 20 40 40)))
    as (n & hotspots & _ & Hhot & _).
  - split; [closed_fact|]. split; [reflexivity|]. by repeat constructor.
  - exists hotspots. split; [exact Hhot|].
    vm_compute in Hhot. injection Hhot as <-. reflexivity.
Defined.

Section zero_heatmap.
Implicit Types (e : AIEngine).

Lemma filter_Forall_id {A} (P : A → Prop) `{!∀ x, Decision (P x)} (l : list A) :
  Forall P l → filter P l = l.
Proof.
  induction 1 as [|a l Ha _ IH]; [done|].
  by rewrite filter_cons_True, IH.
Qed.

Lemma gridSpots_zero e normalizedHeatmap spots :
  heatmap_shape e → heatmap_zero (movementHeatmap e) →
  generateHeatmap e = Some normalizedHeatmap →
  Forall2 (λ xy s, spotAt e normalizedHeatmap xy = Some s) (gridIndices e) spots →
  spots = zeroSpot e <$> gridIndices e.
Proof.
  intros Hshape Hzero Hn Hall.
  rewrite generateHeatmap_shape in Hn by done. injection Hn as <-.
  rewrite (foldl_max_zero (mjoin (movementHeatmap e))) in Hall
    by (by apply Forall_join).
  apply list_eq_Forall2, Forall2_fmap_r, Forall2_flip.
  eapply Forall2_impl; [exact Hall|].
  intros [x y] s Hspot. simpl in Hspot.
  rewrite list_lookup_fmap in Hspot. unfold heat_cell in Hspot.
  destruct (movementHeatmap e !! y) as [row|] eqn:Hrow; [simpl in Hspot|done].
  rewrite list_lookup_fmap in Hspot.
  destruct (row !! x) as [c|] eqn:Hc; [simpl in Hspot|done].
  injection Hspot as <-.
  pose proof (proj1 (Forall_lookup _ _) (proj1 (Forall_lookup _ _) Hzero _ _ Hrow) _ _ Hc)
    as Hc0. simpl in Hc0. subst c. reflexivity.
Qed.
End zero_heatmap.

Lemma getColdspots_zero_scan threshold e :
  heatmap_shape e → heatmap_zero (movementHeatmap e) → (0 <= threshold)%Q →
  getColdspots threshold e = Some (zeroSpot e <$> gridIndices e).
Proof.
  intros Hshape Hzero Ht.
  destruct (gridSpots_shape e Hshape) as (n & spots & Hn & Hspots & Hall).
  rewrite (gridSpots_zero e n spots Hshape Hzero Hn Hall) in Hspots.
  unfold getColdspots. rewrite Hn. simpl. rewrite Hspots. simpl. f_equal.
  rewrite filter_Forall_id by (apply Forall_fmap, Forall_forall; intros; exact Ht).
  apply js_sort_sorted_id.
  generalize (gridIndices e). intros l.
  induction l as [|xy l IH]; [constructor|].
  rewrite fmap_cons. constructor; [exact IH|].
  destruct l; constructor. done.
Qed.

(** X6. On a well-formed engine whose heatmap holds no move (as after the
    constructor or [resetHeatmap]), [getColdspots(threshold)] with a
    threshold of at least 0 returns the spot of every grid cell, with
    intensity 0, in scan order (row by row): ties keep the order of the
    scan; and [getHotspots(threshold)] with a positive threshold returns
    no spot. *)
Theorem getColdspots_zero_heatmap threshold e :
  well_formed e → heatmap_zero (movementHeatmap e) →
  ((0 <= threshold)%Q →
   getColdspots threshold e = Some (zeroSpot e <$> gridIndices e))
  ∧ ((0 < threshold)%Q → getHotspots threshold e = Some []).
Proof.
  intros [_ Hshape] Hzero. split; [by apply getColdspots_zero_scan|].
  intros Ht.
  destruct (gridSpots_shape e Hshape) as (n & spots & Hn & Hspots & Hall).
  rewrite (gridSpots_zero e n spots Hshape Hzero Hn Hall) in Hspots.
  unfold getHotspots. rewrite Hn. simpl. rewrite Hspots. simpl. f_equal.
  replace (filter _ (zeroSpot e <$> gridIndices e)) with (@nil Spot); [done|].
  symmetry. generalize (gridIndices e). intros l.
  induction l as [|xy l IH]; [done|].
  rewrite fmap_cons, filter_cons_False; [exact IH|]. simpl. lra.
Qed.

Lemma getColdspots_zero_heatmap_witness :
  fmap (M := list) (λ s, (spot_x s, spot_y s))
    <$> getColdspots (3 # 10) (newAIEngine 20 40 40)
  = Some [(0, 0); (20, 0); (0, 20); (20, 20)].
Proof.
  destruct (getColdspots_zero_heatmap (3 # 10) (newAIEngine 20 40 40)) as [Hcold _].
  - apply newAIEngine_well_formed. lia.
  - repeat constructor.
  - rewrite Hcold; [reflexivity|closed_fact].
Defined.

(** X7. On a well-formed engine whose heatmap holds no move, with
    [Math.random()] in [0, 1) and at least one cell of the grid not
    excluded, [getChallengingFoodPosition] returns one of the first
    max(1, floor(0.3 n)) of the n non-excluded cells in scan order: the
    "coldest 30%" of an empty heatmap are the top rows of the grid. *)
Theorem getChallengingFoodPosition_zero_heatmap excl rnd e :
  well_formed e → heatmap_zero (movementHeatmap e) → unit_interval rnd →
  let valid :=
    filter (λ spot, ¬ isExcluded excl (spot_x spot) (spot_y spot))
           (zeroSpot e <$> gridIndices e) in
  (0 < length valid)%nat →
  ∃ (i : nat) spot,
    valid !! i = Some spot
    ∧ Z.of_nat i < Z.max 1 (Z.of_nat (length valid) * 3 / 10)
    ∧ getChallengingFoodPosition excl rnd e
      = Some (mkPosition (spot_x spot) (spot_y spot)).
Proof.
  intros [_ Hshape] Hzero Hrnd valid Hvalid.
  unfold getChallengingFoodPosition.
  rewrite getColdspots_zero_scan by (done || closed_fact). simpl.
  change (Z.pos (1 * 10)) with 10. fold valid.
  rewrite bool_decide_eq_true_2 by done.
  set (k := Z.max 1 (Z.of_nat (length valid) * 3 / 10)).
  set (top := take (Z.to_nat k) valid).
  assert (Htop : (0 < length top)%nat).
  { unfold top. rewrite length_take. lia. }
  destruct (randomIndex_range (rnd 0%nat) (Z.of_nat (length top))) as [Hi0 Hi];
    [apply Hrnd..|lia|].
  rewrite bool_decide_eq_true_2 by done.
  destruct (lookup_lt_is_Some_2 top (Z.to_nat (randomIndex (rnd 0%nat) (Z.of_nat (length top)))))
    as [spot Hspot]; [lia|].
  rewrite Hspot. simpl.
  exists (Z.to_nat (randomIndex (rnd 0%nat) (Z.of_nat (length top)))), spot.
  apply lookup_take_Some in Hspot as [Hspot Hlt].
  split_and!; [done|lia|done].
Qed.

Lemma getChallengingFoodPosition_zero_heatmap_witness :
  ∃ (i : nat) spot,
    Z.of_nat i < 119
    ∧ getChallengingFoodPosition [mkPosition 0 0] (λ _, (9 # 10)%Q) (newAIEngine 20 400 400)
      = Some (mkPosition (spot_x spot) (spot_y spot)).
Proof.
  destruct (getChallengingFoodPosition_zero_heatmap [mkPosition 0 0] (λ _, (9 # 10)%Q)
              (newAIEngine 20 400 400)) as (i & spot & _ & Hi & Hpos).
  - apply newAIEngine_well_formed. lia.
  - simpl. unfold initializeHeatmap. apply Forall_replicate, Forall_replicate. done.
  - intros k. split; closed_fact.
  - closed_fact.
  - exists i, spot. split; [|exact Hpos]. vm_compute in Hi. vm_compute. exact Hi.
Defined.

(** ** Placement strategist and pattern analyzer: further properties *)

(** X8. Whatever the movement history, [determinePlacementStrategy]
    returns one of "random", "challenging" and "accessible"; at difficulty
    7 or more it returns "challenging"; at difficulty 2 or less it never
    returns "challenging"; and it stores the strategy it returns, except
    in the cold-start return (10 to 19 recorded movements), which leaves
    the engine as it was. *)
Theorem determinePlacementStrategy_by_difficulty e :
  let d := currentDifficulty (adaptationSettings e) in
  let strategy := (determinePlacementStrategy e).1 in
  let e' := (determinePlacementStrategy e).2 in
  strategy ∈ ["random"; "challenging"; "accessible"]
  ∧ ((7 <= d)%Q → strategy = "challenging")
  ∧ ((d <= 2)%Q → strategy ≠ "challenging")
  ∧ ((10 ≤ length (movementHistory e) < 20)%nat → e' = e)
  ∧ (¬ (10 ≤ length (movementHistory e) < 20)%nat →
     foodPlacementStrategy (adaptationSettings e') = strategy).
Proof.
  intros d strategy e'. subst strategy e'.
  destruct (decide (10 ≤ length (movementHistory e) < 20)%nat) as [Hcold|Hnot].
  - rewrite determinePlacementStrategy_cold_start by done. simpl. fold d.
    unfold getStrategyByDifficulty.
    split_and!; [|intros Hd|intros Hd|done|done].
    + repeat case_bool_decide; apply (bool_decide_unpack _); closed_fact.
    + by rewrite bool_decide_eq_true_2.
    + rewrite bool_decide_eq_false_2 by lra. rewrite bool_decide_eq_true_2 by lra. done.
  - unfold determinePlacementStrategy.
    assert (js_lt_opt (totalMovements (analyzeMovementPatterns e)) 20 = false) as ->.
    { destruct (decide (length (movementHistory e) < 10)%nat).
      - by rewrite analyzeMovementPatterns_few.
      - rewrite analyzeMovementPatterns_enough by lia. simpl.
        apply bool_decide_eq_false. lia. }
    fold d. simpl. unfold getStrategyByDifficulty.
    split_and!; [|intros Hd|intros Hd|done|done].
    + repeat case_bool_decide; apply (bool_decide_unpack _); closed_fact.
    + by rewrite (bool_decide_eq_true_2 (7 <= d)%Q).
    + rewrite (bool_decide_eq_false_2 (7 <= d)%Q) by lra.
      rewrite (bool_decide_eq_true_2 (d <= 2)%Q) by done.
      repeat case_bool_decide; congruence.
Qed.

Lemma determinePlacementStrategy_by_difficulty_witness :
  (determinePlacementStrategy (setDifficulty 8 (newAIEngine 20 400 400))).1 = "challenging"
  ∧ (determinePlacementStrategy (setDifficulty 2 (newAIEngine 20 400 400))).1
    ≠ "challenging".
Proof.
  split.
  - apply (determinePlacementStrategy_by_difficulty (setDifficulty 8 (newAIEngine 20 400 400))).
    closed_fact.
  - apply (determinePlacementStrategy_by_difficulty (setDifficulty 2 (newAIEngine 20 400 400))).
    closed_fact.
Defined.

Section dominant_directions.
Implicit Types (e : AIEngine) (h : list MovementRecord).

(** A record counts for at most one of the four directions. *)
Lemma occurrences_four_le h :
  occurrences "up" h + occurrences "down" h + occurrences "left" h
  + occurrences "right" h ≤ Z.of_nat (length h).
Proof.
  induction h as [|r h IH]; [done|].
  rewrite !occurrences_cons. simpl length.
  repeat case_bool_decide; try lia; congruence.
Qed.

Lemma occurrences_four_valid h :
  Forall (λ r, direction r ∈ fourDirections) h →
  occurrences "up" h + occurrences "down" h + occurrences "left" h
  + occurrences "right" h = Z.of_nat (length h).
Proof.
  induction 1 as [|r h Hr _ IH]; [done|].
  rewrite !occurrences_cons. simpl length.
  unfold fourDirections in Hr. rewrite !elem_of_cons, elem_of_nil in Hr.
  destruct Hr as [Hr|[Hr|[Hr|[Hr|[]]]]];
    repeat case_bool_decide; try congruence; lia.
Qed.
End dominant_directions.

(** X9. [analyzeMovementPatterns] never reports more than three dominant
    directions; the dominant directions are distinct directions among
    "up", "down", "left" and "right"; and with at least 10 recorded
    movements the four direction counts add up to at most
    [totalMovements], exactly so when every recorded direction is one of
    the four. *)
Theorem analyzeMovementPatterns_dominant_at_most_three e :
  let a := analyzeMovementPatterns e in
  (length (dominantDirections a) ≤ 3)%nat
  ∧ NoDup (dominantDirections a)
  ∧ (∀ d, d ∈ dominantDirections a → d ∈ fourDirections)
  ∧ ((10 ≤ length (movementHistory e))%nat →
     ∃ counts total,
       directionCounts a = Some counts ∧ totalMovements a = Some total
       ∧ counts.*1 = fourDirections
       ∧ foldr Z.add 0 (counts.*2) ≤ total
       ∧ (Forall (λ r, direction r ∈ fourDirections) (movementHistory e) →
          foldr Z.add 0 (counts.*2) = total)).
Proof.
  intros a. subst a.
  destruct (decide (length (movementHistory e) < 10)%nat) as [Hfew|Henough].
  { rewrite analyzeMovementPatterns_few by done. simpl.
    split_and!; [lia|constructor|intros d Hd; by apply elem_of_nil in Hd|lia]. }
  rewrite analyzeMovementPatterns_enough by lia. cbv zeta. simpl.
  set (h := movementHistory e).
  set (dominant := js_sort _ _).
  assert (Hperm : dominant
            ≡ₚ filter (λ d, (inject_Z (Z.of_nat (length h)) / 4
                             < inject_Z (occurrences d h))%Q) fourDirections).
  { unfold dominant. rewrite js_sort_perm. done. }
  pose proof (occurrences_four_le h) as Hsum.
  split_and!.
  - rewrite Hperm. unfold fourDirections.
    rewrite !filter_cons, filter_nil.
    repeat case_decide; simpl; try lia.
    exfalso. apply inject_Z_le in Hsum. rewrite !inject_Z_plus in Hsum.
    assert (inject_Z (Z.of_nat (length h))
            == 4 * (inject_Z (Z.of_nat (length h)) / 4))%Q by field.
    lra.
  - rewrite Hperm. apply NoDup_filter. apply (bool_decide_unpack _). closed_fact.
  - intros d Hd. rewrite Hperm in Hd. by apply list_elem_of_filter in Hd as [_ ?].
  - intros _. eexists _, _. split_and!; [reflexivity..| |].
    + simpl. lia.
    + intros Hvalid. pose proof (occurrences_four_valid h Hvalid). simpl. lia.
Qed.

Lemma analyzeMovementPatterns_dominant_at_most_three_witness :
  let e :=
    set_movementHistory
      ((λ n, mkMovementRecord (Z.of_nat n) (mkPosition 0 0)
               (if Nat.even n then "up" else "left") (mkGameContext 0 1 0))
         <$> seq 0 12)
      (newAIEngine 20 600 600) in
  (length (dominantDirections (analyzeMovementPatterns e)) ≤ 3)%nat
  ∧ ∃ counts total,
      directionCounts (analyzeMovementPatterns e) = Some counts
      ∧ totalMovements (analyzeMovementPatterns e) = Some total
      ∧ foldr Z.add 0 (counts.*2) = total.
Proof.
  intros e.
  destruct (analyzeMovementPatterns_dominant_at_most_three e)
    as (Hlength & _ & _ & Hcounts).
  split; [exact Hlength|].
  destruct Hcounts as (counts & total & Hc & Ht & _ & _ & Hexact);
    [vm_compute; lia|].
  exists counts, total. split_and!; [exact Hc|exact Ht|].
  apply Hexact. apply (bool_decide_unpack _). closed_fact.
Defined.

(** ** Placement strategist: the cell is a cell of the grid *)

Section grid_cell.
Implicit Types (e : AIEngine) (excl : list Position) (rnd : nat → Q).

Lemma randomFoodLoop_grid_cell excl rnd e (remaining : nat) : ∀ attempts,
  0 < gridWidth e → 0 < gridHeight e → unit_interval rnd →
  is_grid_cell e (randomFoodLoop remaining attempts excl rnd e).
Proof.
  induction remaining as [|remaining IH]; intros attempts Hw Hh Hrnd; simpl.
  - exists 0, 0. split_and!; [lia..|done].
  - destruct (isExcluded excl _ _); [by apply IH|].
    eexists _, _. split; [|split; [|reflexivity]];
      apply randomIndex_range; (apply Hrnd || done).
Qed.

Lemma spotAt_coordinates e normalizedHeatmap (x y : nat) s :
  spotAt e normalizedHeatmap (x, y) = Some s →
  spot_x s = Z.of_nat x * gridSize e ∧ spot_y s = Z.of_nat y * gridSize e.
Proof.
  intros Hspot. simpl in Hspot.
  destruct (normalizedHeatmap !! y) as [row|]; [simpl in Hspot|done].
  destruct (row !! x); [simpl in Hspot|done].
  destruct (heat_cell (movementHeatmap e) x y); [simpl in Hspot|done].
  by injection Hspot as <-.
Qed.

Lemma getChallengingFoodPosition_grid_cell excl rnd e pos :
  heatmap_shape e → 0 < gridWidth e → 0 < gridHeight e → unit_interval rnd →
  getChallengingFoodPosition excl rnd e = Some pos → is_grid_cell e pos.
Proof.
  intros Hshape Hw Hh Hrnd. unfold getChallengingFoodPosition, getColdspots.
  destruct (gridSpots_shape e Hshape) as (n & spots & Hn & Hspots & Hall).
  rewrite Hn. simpl. rewrite Hspots. simpl.
  case_bool_decide; last first.
  { intros [= <-]. by apply randomFoodLoop_grid_cell. }
  case_bool_decide; [|done].
  destruct (_ !! _) as [spot|] eqn:Hspot; [simpl|done]. intros [= <-].
  apply lookup_take_Some in Hspot as [Hspot _].
  apply list_elem_of_lookup_2, list_elem_of_filter in Hspot as [_ Hspot].
  apply js_sort_elem_of, list_elem_of_filter in Hspot as [_ Hspot].
  apply (elem_of_gridSpots e n spots spot Hall) in Hspot as (x & y & Hx & Hy & Hat).
  apply spotAt_coordinates in Hat as [-> ->].
  exists (Z.of_nat x), (Z.of_nat y). split_and!; [lia..|done].
Qed.

Lemma getAccessibleFoodPosition_grid_cell excl rnd e pos :
  heatmap_shape e → 0 < gridWidth e → 0 < gridHeight e → unit_interval rnd →
  getAccessibleFoodPosition excl rnd e = Some pos → is_grid_cell e pos.
Proof.
  intros Hshape Hw Hh Hrnd. unfold getAccessibleFoodPosition.
  destruct (generateHeatmap e) as [n|]; [simpl|done].
  destruct (mapM _ (gridIndices e)) as [cells|] eqn:Hcells; [simpl|done].
  case_bool_decide; last first.
  { intros [= <-]. by apply randomFoodLoop_grid_cell. }
  case_bool_decide; [|done]. intros Hpos.
  apply list_elem_of_lookup_2, list_elem_of_fmap in Hpos as ([[x y] v] & -> & Hc).
  apply list_elem_of_filter in Hc as [_ Hc].
  apply mapM_Some_1 in Hcells.
  apply list_elem_of_lookup in Hc as [i Hi].
  destruct (Forall2_lookup_r _ _ _ _ _ Hcells Hi) as ([x' y'] & Hxy & Hcell).
  simpl in Hcell. destruct (n !! y') as [row|]; [simpl in Hcell|done].
  destruct (row !! x'); [simpl in Hcell|done]. injection Hcell as -> -> _.
  apply list_elem_of_lookup_2, elem_of_gridIndices in Hxy as [Hx Hy]. simpl.
  exists (Z.of_nat x), (Z.of_nat y). split_and!; [lia..|done].
Qed.
End grid_cell.

(** X10. On a well-formed engine with at least one column and one row,
    and with [Math.random()] in [0, 1), the cell that
    [suggestFoodPlacement] returns is a cell of the grid: its coordinates
    are the cell size times a column index below [gridWidth] and a row
    index below [gridHeight]. *)
Theorem suggestFoodPlacement_grid_cell excl rnd e :
  well_formed e → 0 < gridWidth e → 0 < gridHeight e → unit_interval rnd →
  ∃ pos e',
    suggestFoodPlacement excl rnd e = Some (pos, e') ∧ is_grid_cell e pos.
Proof.
  intros [_ Hshape] Hw Hh Hrnd. unfold suggestFoodPlacement.
  pose proof (determinePlacementStrategy_frame e) as Hframe.
  destruct (determinePlacementStrategy e) as [strategy e']. simpl in Hframe.
  destruct Hframe as (Hgs & Hw' & Hh' & Hhm).
  assert (Hshape' : heatmap_shape e').
  { unfold heatmap_shape. by rewrite Hhm, Hw', Hh'. }
  assert (Hcell : ∀ pos, is_grid_cell e' pos → is_grid_cell e pos).
  { intros pos (i & j & Hi & Hj & ->). exists i, j. by rewrite <- Hgs, <- Hw', <- Hh'. }
  rewrite <- Hw' in Hw. rewrite <- Hh' in Hh.
  repeat case_bool_decide.
  - destruct (getChallengingFoodPosition_spec excl rnd e' Hshape' Hrnd) as (pos & Hpos & _).
    rewrite Hpos. simpl. eexists _, _. split; [done|].
    by eapply Hcell, getChallengingFoodPosition_grid_cell.
  - destruct (getAccessibleFoodPosition_spec excl rnd e' Hshape' Hrnd) as (pos & Hpos & _).
    rewrite Hpos. simpl. eexists _, _. split; [done|].
    by eapply Hcell, getAccessibleFoodPosition_grid_cell.
  - simpl. eexists _, _. split; [done|].
    by apply Hcell, randomFoodLoop_grid_cell.
Qed.

Lemma suggestFoodPlacement_grid_cell_witness :
  ∃ pos e',
    suggestFoodPlacement [mkPosition 0 0] (λ _, (1 # 2)%Q) (newAIEngine 20 400 400)
    = Some (pos, e')
    ∧ is_grid_cell (newAIEngine 20 400 400) pos.
Proof.
  apply suggestFoodPlacement_grid_cell.
  - apply newAIEngine_well_formed. lia.
  - closed_fact.
  - closed_fact.
  - intros k. split; closed_fact.
Defined.

(** ** Performance controller: sessions *)

Section sessions.
Implicit Types (e : AIEngine) (pm : PerformanceMetrics).

(** An evaluation touches the difficulty, its history, the streaks and
    the visual intensity, nothing else. *)
Lemma calculateDifficulty_frame e :
  let e' := calculateDifficulty e in
  recentScores (performanceMetrics e') = recentScores (performanceMetrics e)
  ∧ averageScore (performanceMetrics e') = averageScore (performanceMetrics e)
  ∧ averageGameDuration (performanceMetrics e') = averageGameDuration (performanceMetrics e)
  ∧ totalGamesPlayed (performanceMetrics e') = totalGamesPlayed (performanceMetrics e)
  ∧ gameStartTime (performanceMetrics e') = gameStartTime (performanceMetrics e)
  ∧ foodPlacementStrategy (adaptationSettings e')
    = foodPlacementStrategy (adaptationSettings e)
  ∧ movementHeatmap e' = movementHeatmap e
  ∧ movementHistory e' = movementHistory e
  ∧ (gridSize e', gridWidth e', gridHeight e', maxHistorySize e')
    = (gridSize e, gridWidth e, gridHeight e, maxHistorySize e).
Proof.
  unfold calculateDifficulty.
  repeat (match goal with
          | |- context [bool_decide ?P] => destruct (bool_decide P)
          end; simpl); done.
Qed.

(** The mean of scores never reaches one and a half times
    max(50, 0.8 mean). *)
Lemma high_threshold_above_own_mean pm :
  averageScore pm = averageRecentScore pm →
  ¬ (highPerformanceThreshold pm <= averageRecentScore pm)%Q.
Proof.
  intros Hmean Hhigh. unfold highPerformanceThreshold, scoreThreshold in Hhigh.
  rewrite Hmean in Hhigh.
  destruct (Q.max_spec 50 (averageRecentScore pm * (8 # 10))) as [[Hlt Hm]|[Hle Hm]];
    rewrite Hm in Hhigh; lra.
Qed.

Lemma calculateDifficulty_not_high e :
  ¬ (highPerformanceThreshold (performanceMetrics e)
     <= averageRecentScore (performanceMetrics e))%Q →
  (currentDifficulty (adaptationSettings (calculateDifficulty e))
   <= currentDifficulty (adaptationSettings e))%Q
  ∧ ((3 ≤ length (recentScores (performanceMetrics e)))%nat →
     consecutiveHighPerformance (performanceMetrics (calculateDifficulty e)) = 0).
Proof.
  intros Hnot. unfold calculateDifficulty.
  case_bool_decide as Hlen; [split; [apply Qle_refl|lia]|].
  rewrite (bool_decide_eq_false_2 _ Hnot).
  set (d := currentDifficulty (adaptationSettings e)).
  destruct (bool_decide (_ <= lowPerformanceThreshold _)%Q).
  - destruct (bool_decide (3 ≤ _)); simpl.
    + case_bool_decide as Hd; simpl.
      * case_bool_decide; simpl; (split; [|done]); [|apply Qle_refl].
        apply Q.max_lub; lra.
      * case_bool_decide; simpl; (split; [|done]); apply Qle_refl.
    + case_bool_decide; simpl; (split; [|done]); apply Qle_refl.
  - case_bool_decide; simpl; (split; [|done]); apply Qle_refl.
Qed.

Lemma endGameSession_metrics now finalScore e :
  (length (recentScores (performanceMetrics e)) ≤ 5)%nat →
  let pm' := performanceMetrics (endGameSession now finalScore e) in
  recentScores pm' = slice_last 5 (recentScores (performanceMetrics e) ++ [finalScore])
  ∧ totalGamesPlayed pm' = totalGamesPlayed (performanceMetrics e) + 1
  ∧ gameStartTime pm' = None
  ∧ averageScore pm' = averageRecentScore pm'.
Proof.
  intros Hlen pm'. subst pm'. unfold endGameSession.
  match goal with
  | |- context [calculateDifficulty ?e0] =>
      destruct (calculateDifficulty_frame e0) as (Hrs & Havg & _ & Htot & Hstart & _)
  end.
  cbv zeta. unfold averageRecentScore. rewrite Hrs, Havg, Htot, Hstart. simpl.
  clear Hrs Havg Htot Hstart.
  set (pushed := recentScores (performanceMetrics e) ++ [finalScore]).
  assert (Hpushed : length pushed = S (length (recentScores (performanceMetrics e)))).
  { unfold pushed. rewrite length_app. simpl. lia. }
  assert (Hall : (if bool_decide (5 < length pushed)%nat then drop 1 pushed else pushed)
                 = slice_last 5 pushed).
  { unfold slice_last. case_bool_decide.
    - f_equal. lia.
    - replace (length pushed - 5)%nat with 0%nat by lia. done. }
  rewrite Hall. split_and!; [done..|].
  rewrite bool_decide_eq_true_2; [done|].
  rewrite length_slice_last. lia.
Qed.
End sessions.

(** X11. [endGameSession] never raises the difficulty: it stores the mean
    of the recent scores as [averageScore] before it evaluates, and that
    mean cannot reach the high threshold 1.5 * max(50, 0.8 * mean). So the
    difficulty after a session is at most the difficulty before, and once
    a session is evaluated (the engine held at least two scores before)
    the high streak is 0. *)
Theorem endGameSession_never_raises_difficulty now finalScore e :
  (currentDifficulty (adaptationSettings (endGameSession now finalScore e))
   <= currentDifficulty (adaptationSettings e))%Q
  ∧ ((2 ≤ length (recentScores (performanceMetrics e)))%nat →
     consecutiveHighPerformance (performanceMetrics (endGameSession now finalScore e)) = 0).
Proof.
  unfold endGameSession.
  set (pushed := recentScores (performanceMetrics e) ++ [finalScore]).
  set (allScores := if bool_decide (5 < length pushed)%nat then drop 1 pushed else pushed).
  assert (Hpushed : length pushed = S (length (recentScores (performanceMetrics e)))).
  { unfold pushed. rewrite length_app. simpl. lia. }
  assert (Hall : (3 ≤ length pushed → 3 ≤ length allScores)%nat).
  { unfold allScores. destruct (bool_decide (5 < length pushed)%nat) eqn:Hfull;
      [apply bool_decide_eq_true in Hfull; rewrite length_drop|]; lia. }
  assert (Hpos : (0 < length allScores)%nat).
  { unfold allScores. destruct (bool_decide (5 < length pushed)%nat) eqn:Hfull;
      [apply bool_decide_eq_true in Hfull; rewrite length_drop|]; lia. }
  match goal with
  | |- context [calculateDifficulty ?e0] =>
      destruct (calculateDifficulty_not_high e0) as [Hle Hstreak]
  end.
  { apply high_threshold_above_own_mean. simpl. unfold averageRecentScore. simpl.
    by rewrite bool_decide_eq_true_2. }
  split; [exact Hle|]. intros Hlen. apply Hstreak. simpl. lia.
Qed.

Lemma endGameSession_never_raises_difficulty_witness :
  consecutiveHighPerformance
    (performanceMetrics
       (endGameSession 30 900 (endGameSession 20 900 (endGameSession 10 900
          (setDifficulty 4 (newAIEngine 20 400 400)))))) = 0.
Proof.
  apply (endGameSession_never_raises_difficulty 30 900
           (endGameSession 20 900 (endGameSession 10 900
              (setDifficulty 4 (newAIEngine 20 400 400))))).
  closed_fact.
Defined.

(** X12. After a sequence of sessions, on an engine that held at most 5
    recent scores, [recentScores] holds the last 5 of the scores it held
    followed by the final scores of the sessions, in order;
    [totalGamesPlayed] has grown by the number of sessions; and after at
    least one session [averageScore] is the mean of [recentScores] and the
    start time is cleared. *)
Theorem endGameSessions_recent_scores sessions e :
  (length (recentScores (performanceMetrics e)) ≤ 5)%nat →
  let pm' := performanceMetrics (endGameSessions sessions e) in
  recentScores pm' = slice_last 5 (recentScores (performanceMetrics e) ++ sessions.*2)
  ∧ totalGamesPlayed pm'
    = totalGamesPlayed (performanceMetrics e) + Z.of_nat (length sessions)
  ∧ (sessions ≠ [] →
     averageScore pm' = averageRecentScore pm' ∧ gameStartTime pm' = None).
Proof.
  intros Hlen. induction sessions as [|[now finalScore] sessions IH] using rev_ind.
  - simpl. rewrite app_nil_r, slice_last_all by done. split_and!; [done|lia|done].
  - unfold endGameSessions in *. rewrite foldl_app. simpl.
    destruct IH as (Hrs & Htotal & _).
    destruct (endGameSession_metrics now finalScore
                (foldl (λ e session, endGameSession session.1 session.2 e) e sessions))
      as (Hrs' & Htotal' & Hstart & Havg).
    { rewrite Hrs, length_slice_last. lia. }
    cbv zeta in *. split_and!.
    + rewrite Hrs', Hrs, slice_last_app_l, fmap_app, (assoc_L (++)). done.
    + rewrite Htotal', Htotal, length_app. simpl. lia.
    + intros _. done.
Qed.

Lemma endGameSessions_recent_scores_witness :
  recentScores
    (performanceMetrics
       (endGameSessions [(10, 5%Q); (20, 15%Q); (30, 25%Q); (40, 35%Q); (50, 45%Q); (60, 55%Q); (70, 65%Q)]
          (newAIEngine 20 400 400)))
  = [25; 35; 45; 55; 65]%Q.
Proof.
  destruct (endGameSessions_recent_scores
              [(10, 5%Q); (20, 15%Q); (30, 25%Q); (40, 35%Q); (50, 45%Q); (60, 55%Q); (70, 65%Q)]
              (newAIEngine 20 400 400)) as (Hrs & _).
  - simpl. lia.
  - rewrite Hrs. reflexivity.
Defined.

(** ** Visual intensity: further properties *)

Section movement_intensity.
Implicit Types (e : AIEngine) (ds : list string).

Lemma directionChanges_bounds ds :
  0 ≤ directionChanges ds ∧ directionChanges ds ≤ Z.of_nat (length ds) - 1 ∨ ds = [].
Proof.
  induction ds as [|d1 [|d2 ds] IH]; [by right|left; simpl; lia|left].
  destruct IH as [[IH0 IH1]|]; [|done].
  change (directionChanges (d1 :: d2 :: ds))
    with ((if bool_decide (d2 ≠ d1) then 1 else 0) + directionChanges (d2 :: ds)).
  simpl length in *. case_bool_decide; lia.
Qed.

Lemma directionChanges_constant ds d :
  Forall (λ x, x = d) ds → directionChanges ds = 0.
Proof.
  induction ds as [|d1 [|d2 ds] IH]; intros Hall; [done..|].
  inversion_clear Hall as [|? ? -> Hall']. pose proof Hall' as Hall''.
  inversion_clear Hall'' as [|? ? -> _].
  match goal with
  | |- directionChanges (?a :: ?a :: ?l) = 0 =>
      change (directionChanges (a :: a :: l))
        with ((if bool_decide (a ≠ a) then 1 else 0) + directionChanges (a :: l))
  end.
  rewrite bool_decide_eq_false_2 by (intros Hne; by apply Hne).
  rewrite IH by done. done.
Qed.

Lemma remove_dups_constant ds d :
  ds ≠ [] → Forall (λ x, x = d) ds → remove_dups ds = [d].
Proof.
  induction ds as [|d1 ds IH]; intros Hne Hall; [done|].
  inversion_clear Hall as [|? ? Hd Hall']. subst d1.
  destruct ds as [|d2 ds]; [done|].
  change (remove_dups (d :: d2 :: ds))
    with (if decide_rel (∈) d (d2 :: ds) then remove_dups (d2 :: ds)
          else d :: remove_dups (d2 :: ds)).
  destruct (decide_rel (∈) d (d2 :: ds)) as [Hin|Hnot].
  - by apply IH.
  - exfalso. apply Hnot. inversion_clear Hall' as [|? ? Hd2 _]. subst d2. by left.
Qed.

Lemma remove_dups_four ds :
  ds ≠ [] → Forall (λ x, x ∈ fourDirections) ds →
  (1 ≤ length (remove_dups ds) ≤ 4)%nat.
Proof.
  intros Hne Hall. split.
  - destruct ds as [|d ds]; [done|].
    assert (d ∈ remove_dups (d :: ds)) as Hd by (apply elem_of_remove_dups; by left).
    destruct (remove_dups (d :: ds)); [by apply elem_of_nil in Hd|simpl; lia].
  - change 4%nat with (length fourDirections).
    apply submseteq_length, NoDup_submseteq; [apply NoDup_remove_dups|].
    intros x Hx. apply (proj1 (elem_of_remove_dups _ _)) in Hx.
    exact (proj1 (Forall_forall _ _) Hall x Hx).
Qed.

Lemma updateVisualIntensityFromMovement_level e :
  visualIntensityLevel (adaptationSettings (updateVisualIntensityFromMovement e))
  = if bool_decide (length (slice_last 20 (movementHistory e)) < 5)%nat then 1%Q
    else inject_Z (Z.max 1 (Z.min 5
           (Qceiling (intensityScoreOf (direction <$> slice_last 20 (movementHistory e)))))).
Proof. unfold updateVisualIntensityFromMovement. by case_bool_decide. Qed.
End movement_intensity.

(** X13. What [updateVisualIntensityFromMovement] stores, by the last 20
    movements: with fewer than 5 of them, level 1; with at least 5, all in
    one direction, level 1 again; with at least 5, all in the four
    directions, the ceiling of the score itself, which lies between 1 and
    5, so that the clamp never acts. *)
Theorem updateVisualIntensityFromMovement_levels e :
  let recent := slice_last 20 (movementHistory e) in
  let level :=
    visualIntensityLevel (adaptationSettings (updateVisualIntensityFromMovement e)) in
  ((length recent < 5)%nat → level = 1%Q)
  ∧ ((5 ≤ length recent)%nat →
     (∃ d, Forall (λ r, direction r = d) recent) → level = inject_Z 1)
  ∧ ((5 ≤ length recent)%nat →
     Forall (λ r, direction r ∈ fourDirections) recent →
     level = inject_Z (Qceiling (intensityScoreOf (direction <$> recent)))
     ∧ 1 ≤ Qceiling (intensityScoreOf (direction <$> recent)) ≤ 5).
Proof.
  intros recent level. subst level. rewrite updateVisualIntensityFromMovement_level.
  fold recent. split_and!.
  - intros Hlen. by rewrite bool_decide_eq_true_2.
  - intros Hlen [d Hall]. rewrite bool_decide_eq_false_2 by lia.
    assert (Hds : Forall (λ x, x = d) (direction <$> recent)) by (by apply Forall_fmap).
    unfold intensityScoreOf.
    rewrite (remove_dups_constant _ d), (directionChanges_constant _ d); [|done| |done].
    + f_equal.
      rewrite (Qceiling_comp _ (1 # 2)); [reflexivity|].
      unfold Qdiv at 2. rewrite (Qmult_0_l (/ _)). reflexivity.
    + intros Hnil. apply fmap_nil_inv in Hnil. rewrite Hnil in Hlen. simpl in Hlen. lia.
  - intros Hlen Hall. rewrite bool_decide_eq_false_2 by lia.
    set (ds := direction <$> recent).
    assert (Hds_len : length ds = length recent) by apply length_fmap.
    assert (Hne : ds ≠ []).
    { intros Hnil. rewrite Hnil in Hds_len. simpl in Hds_len. lia. }
    destruct (remove_dups_four ds Hne) as [Hu1 Hu4]; [by apply Forall_fmap|].
    destruct (directionChanges_bounds ds) as [[Hc0 Hc1]|]; [|done].
    assert (Hscore : (0 < intensityScoreOf ds)%Q ∧ (intensityScoreOf ds <= 5)%Q).
    { unfold intensityScoreOf.
      set (u := inject_Z (Z.of_nat (length (remove_dups ds)))).
      set (c := inject_Z (directionChanges ds)).
      set (n := inject_Z (Z.of_nat (length ds) - 1)).
      assert (1 <= u)%Q by (apply (inject_Z_le 1); lia).
      assert (u <= 4)%Q by (apply (inject_Z_le _ 4); lia).
      assert (0 <= c)%Q by (by apply (inject_Z_le 0)).
      assert (c <= n)%Q by (by apply inject_Z_le).
      assert (0 < n)%Q by (apply inject_Z_pos; lia).
      assert (0 <= c / n)%Q by (apply Qle_shift_div_l; [done|lra]).
      assert (c / n <= 1)%Q by (apply Qle_shift_div_r; [done|lra]).
      assert (u == 4 * (u / 4))%Q by field.
      split; lra. }
    destruct Hscore as [Hpos Hle].
    assert (Hceil : 1 ≤ Qceiling (intensityScoreOf ds) ≤ 5).
    { split.
      - pose proof (Qle_ceiling (intensityScoreOf ds)) as Hup.
        assert (0 < inject_Z (Qceiling (intensityScoreOf ds)))%Q as H0 by lra.
        unfold Qlt in H0. simpl in H0. lia.
      - rewrite <- (Qceiling_Z 5). by apply Qceiling_resp_le. }
    split; [|done]. f_equal. lia.
Qed.

Lemma updateVisualIntensityFromMovement_levels_witness :
  let e :=
    set_movementHistory
      ((λ n, mkMovementRecord (Z.of_nat n) (mkPosition (Z.of_nat n * 20) 0) "right"
               (mkGameContext 0 1 0)) <$> seq 0 8)
      (newAIEngine 20 400 400) in
  visualIntensityLevel (adaptationSettings (updateVisualIntensityFromMovement e))
  = inject_Z 1.
Proof.
  intros e. destruct (updateVisualIntensityFromMovement_levels e) as (_ & Hrun & _).
  apply Hrun.
  - closed_fact.
  - exists "right". repeat constructor.
Defined.

(** X14. [updateVisualIntensity], which every frame calls, is idempotent:
    a second call leaves the engine as the first one did. The level it
    stores is an integer from 1 to 5, and nothing but the level changes. *)
Theorem updateVisualIntensity_idempotent e :
  updateVisualIntensity (updateVisualIntensity e) = updateVisualIntensity e
  ∧ (∃ level : Z,
       visualIntensityLevel (adaptationSettings (updateVisualIntensity e)) = inject_Z level
       ∧ 1 ≤ level ≤ 5)
  ∧ set_adaptationSettings
      (set_visualIntensityLevel (visualIntensityLevel (adaptationSettings e))
         (adaptationSettings (updateVisualIntensity e)))
      (updateVisualIntensity e) = e.
Proof.
  unfold updateVisualIntensity, updateVisualIntensityFromDifficulty,
    updateVisualIntensityFromMovement.
  destruct e as [gs cw ch h mx w ht hm pm [d st lv]]. simpl.
  destruct (bool_decide (length (slice_last 20 h) < 5)%nat) eqn:Hfew;
    simpl; rewrite ?Hfew; simpl;
    (split_and!; [done| |done]); eexists; (split; [reflexivity|lia]).
Qed.

(** ** Invariants of the engine *)

Section engine_invariants.
Implicit Types (e : AIEngine).

Lemma in_three_strategies (strategy : string) :
  strategy = "random" ∨ strategy = "challenging" ∨ strategy = "accessible" →
  strategy ∈ ["random"; "challenging"; "accessible"].
Proof. intros [-> | [-> | ->]]; apply (bool_decide_unpack _); closed_fact. Qed.

Lemma determinePlacementStrategy_settings e :
  settings_invariant (adaptationSettings e) →
  settings_invariant (adaptationSettings (determinePlacementStrategy e).2)
  ∧ performanceMetrics (determinePlacementStrategy e).2 = performanceMetrics e
  ∧ movementHistory (determinePlacementStrategy e).2 = movementHistory e
  ∧ maxHistorySize (determinePlacementStrategy e).2 = maxHistorySize e
  ∧ currentDifficulty (adaptationSettings (determinePlacementStrategy e).2)
    = currentDifficulty (adaptationSettings e).
Proof.
  intros (Hst & Hlv & Hd). unfold determinePlacementStrategy.
  destruct (js_lt_opt _ _); simpl; [done|].
  split_and!; [|done..]. split_and!; [|done..]. simpl.
  unfold getStrategyByDifficulty.
  repeat case_bool_decide; apply in_three_strategies; auto.
Qed.

Lemma grid_invariant_frame e e' :
  grid_invariant e →
  gridSize e' = gridSize e → gridWidth e' = gridWidth e → gridHeight e' = gridHeight e →
  movementHeatmap e' = movementHeatmap e → movementHistory e' = movementHistory e →
  maxHistorySize e' = maxHistorySize e →
  grid_invariant e'.
Proof.
  intros ([Hgs [Hlen Hrows]] & Hnn & Hmax & Hhist) Eg Ew Eh Ehm Ehist Emax.
  unfold grid_invariant, well_formed, heatmap_shape.
  by rewrite Eg, Ew, Eh, Ehm, Ehist, Emax.
Qed.

Lemma recordMovement_invariant now pos dir ctx e e' :
  engine_invariant e → recordMovement now pos dir ctx e = Some e' →
  engine_invariant e'.
Proof.
  intros ((Hwf & Hnn & Hmax & Hhist) & Hm & (Hst & Hlv & Hd) & Hlast) Hrec.
  destruct (recordMovement_step now pos dir ctx e Hwf)
    as (e'' & Hrec' & Hwf' & Hmax' & Hhist').
  rewrite Hrec in Hrec'. injection Hrec' as <-.
  unfold recordMovement in Hrec.
  set (e1 := set_movementHistory _ e) in Hrec.
  destruct (updateHeatmapCell pos e1) as [e2|] eqn:Hupd; [simpl in Hrec|done].
  injection Hrec as Hrec.
  pose proof (updateHeatmapCell_nonneg e1 e2 pos Hnn Hupd) as Hnn2.
  destruct (updateHeatmapCell_frame _ _ _ Hupd) as (_ & _ & _ & _ & _ & Hpm2 & Ha2).
  destruct (updateVisualIntensityFromMovement_frame e2) as (_ & _ & _ & _ & _ & Hhm3 & Hpm3).
  rewrite Hrec in Hhm3, Hpm3.
  assert (Ha3 : currentDifficulty (adaptationSettings e')
                = currentDifficulty (adaptationSettings e)
                ∧ foodPlacementStrategy (adaptationSettings e')
                  = foodPlacementStrategy (adaptationSettings e)
                ∧ ∃ level : Z,
                    visualIntensityLevel (adaptationSettings e') = inject_Z level
                    ∧ 1 ≤ level ≤ 5).
  { rewrite <- Hrec. unfold updateVisualIntensityFromMovement.
    case_bool_decide; simpl; rewrite Ha2; (split_and!; [done..|]);
      eexists; (split; [reflexivity|lia]). }
  destruct Ha3 as (Hd3 & Hst3 & Hlv3).
  split_and!.
  - split_and!; [done|by rewrite Hhm3|congruence|].
    rewrite Hhist', pushBounded_slice_last, length_slice_last by lia. lia.
  - by rewrite Hpm3, Hpm2.
  - split_and!; [by rewrite Hst3|done|by rewrite Hd3].
  - by rewrite Hpm3, Hpm2, Hd3.
Qed.

Lemma calculateDifficulty_invariant e :
  engine_invariant e → engine_invariant (calculateDifficulty e).
Proof.
  intros (Hgrid & (Hrs & Hh & Hl & Hhl & Ht) & (Hst & Hlv & Hd) & Hlast).
  destruct (calculateDifficulty_frame e)
    as (Ers & _ & _ & Et & _ & Est & Ehm & Ehist & [= Eg Ew Eh Emax]).
  pose proof (calculateDifficulty_in_range e Hd) as Hd'.
  split_and!.
  - by apply (grid_invariant_frame e).
  - unfold metrics_invariant. rewrite Ers, Et.
    split_and!; [done| | | |done]; clear Ers Et Est Ehm Ehist Eg Ew Eh Emax Hd';
      unfold calculateDifficulty;
      repeat (match goal with
              | |- context [bool_decide ?P] => destruct (bool_decide P)
              end; simpl); lia.
  - unfold settings_invariant. split_and!; [by rewrite Est| |done].
    clear Ers Et Est Ehm Ehist Eg Ew Eh Emax Hd'. unfold calculateDifficulty.
    repeat (match goal with
            | |- context [bool_decide ?P] => destruct (bool_decide P)
            end; simpl); try done; eexists; (split; [reflexivity|lia]).
  - clear Ers Et Est Ehm Ehist Eg Ew Eh Emax Hd'. unfold calculateDifficulty.
    repeat (match goal with
            | |- context [bool_decide ?P] => destruct (bool_decide P)
            end; simpl); try done; by rewrite last_snoc.
Qed.

Lemma endGameSession_invariant now finalScore e :
  engine_invariant e → engine_invariant (endGameSession now finalScore e).
Proof.
  intros (Hgrid & (Hrs & Hh & Hl & Hhl & Ht) & Hs & Hlast).
  unfold endGameSession. apply calculateDifficulty_invariant.
  split_and!; [by apply (grid_invariant_frame e)| |done|done].
  unfold metrics_invariant. simpl. split_and!; [|done..|lia].
  destruct (bool_decide (5 < length (recentScores (performanceMetrics e) ++ [finalScore]))%nat)
    eqn:Hfull; [rewrite length_drop|]; rewrite length_app; simpl; [lia|].
  apply bool_decide_eq_false in Hfull. rewrite length_app in Hfull. simpl in Hfull. lia.
Qed.

Lemma setDifficulty_invariant d e :
  engine_invariant e → engine_invariant (setDifficulty d e).
Proof.
  intros (Hgrid & Hm & (Hst & Hlv & Hd) & Hlast). unfold setDifficulty.
  case_bool_decide as Hin; [|done].
  split_and!; [by apply (grid_invariant_frame e)|done| |simpl; by rewrite last_snoc].
  split_and!; done.
Qed.

Lemma updateFoodPlacementStrategy_invariant strategy e :
  engine_invariant e → engine_invariant (updateFoodPlacementStrategy strategy e).
Proof.
  intros (Hgrid & Hm & (Hst & Hlv & Hd) & Hlast). unfold updateFoodPlacementStrategy.
  case_bool_decide as Hin; [|done].
  split_and!; [by apply (grid_invariant_frame e)|done| |done].
  split_and!; done.
Qed.

Lemma resetHeatmap_invariant e :
  engine_invariant e → engine_invariant (resetHeatmap e).
Proof.
  intros (([Hgs _] & _ & Hmax & Hhist) & Hm & Hs & Hlast).
  split_and!; [|done..]. split_and!; [| |done..].
  - split; [done|]. split; simpl; unfold initializeHeatmap.
    + by rewrite length_replicate.
    + apply Forall_replicate. by rewrite length_replicate.
  - simpl. unfold initializeHeatmap, heatmap_nonneg.
    apply Forall_replicate, Forall_replicate. done.
Qed.

Lemma updateVisualIntensityFromMovement_invariant e :
  engine_invariant e → engine_invariant (updateVisualIntensityFromMovement e).
Proof.
  intros (Hgrid & Hm & (Hst & Hlv & Hd) & Hlast).
  unfold updateVisualIntensityFromMovement.
  case_bool_decide;
    (split_and!; [by apply (grid_invariant_frame e)|done| |done]);
    (split_and!; [done| |done]); eexists; (split; [reflexivity|lia]).
Qed.

Lemma updateVisualIntensityFromDifficulty_invariant e :
  engine_invariant e → engine_invariant (updateVisualIntensityFromDifficulty e).
Proof.
  intros (Hgrid & Hm & (Hst & Hlv & Hd) & Hlast).
  split_and!; [by apply (grid_invariant_frame e)|done| |done].
  split_and!; [done| |done]. eexists. split; [reflexivity|lia].
Qed.

Lemma determinePlacementStrategy_invariant e :
  engine_invariant e → engine_invariant (determinePlacementStrategy e).2.
Proof.
  intros (Hgrid & Hm & Hs & Hlast).
  destruct (determinePlacementStrategy_settings e Hs) as (Hs' & Epm & Ehist & Emax & Ed).
  destruct (determinePlacementStrategy_frame e) as (Eg & Ew & Eh & Ehm).
  split_and!; [by apply (grid_invariant_frame e)|by rewrite Epm|done|].
  by rewrite Epm, Ed.
Qed.

Lemma newAIEngine_invariant gs cw ch :
  0 < gs → engine_invariant (newAIEngine gs cw ch).
Proof.
  intros Hgs. split_and!.
  - split_and!; [by apply newAIEngine_well_formed|apply newAIEngine_nonneg|done|].
    simpl. lia.
  - unfold metrics_invariant. simpl. split_and!; (lia || auto).
  - split_and!; [by apply in_three_strategies; left| |split; closed_fact].
    exists 1. split; [done|lia].
  - done.
Qed.
End engine_invariants.

(** X15. Every engine that the public methods reach from the constructor
    (with a positive cell size, [loadBehaviorData] apart) satisfies the
    invariants of the data model: the heatmap has the shape of the grid
    and non-negative counters; the history holds at most 1000 records;
    there are at most 5 recent scores; the streak counters are
    non-negative and never both positive; the stored strategy is one of
    "random", "challenging", "accessible"; the visual intensity is an
    integer from 1 to 5; the difficulty lies in [1, 10] and is the last
    entry of the difficulty progression. *)
Theorem engine_run_invariant e : engine_run e → engine_invariant e.
Proof.
  induction 1 as [gs cw ch Hgs
                 |now pos dir ctx e e' _ IH Hrec
                 |excl rnd e pos e' _ IH Hsug
                 |e _ IH|strategy e _ IH|d e _ IH|e _ IH|now e _ IH
                 |now finalScore e _ IH|e _ IH|e _ IH|e _ IH|e _ IH].
  - by apply newAIEngine_invariant.
  - by eapply recordMovement_invariant.
  - unfold suggestFoodPlacement in Hsug.
    pose proof (determinePlacementStrategy_invariant e IH) as Hinv.
    destruct (determinePlacementStrategy e) as [strategy e1]. simpl in Hinv.
    destruct (if bool_decide (strategy = "challenging") then _ else _);
      [simpl in Hsug|done].
    by injection Hsug as _ <-.
  - by apply determinePlacementStrategy_invariant.
  - by apply updateFoodPlacementStrategy_invariant.
  - by apply setDifficulty_invariant.
  - by apply calculateDifficulty_invariant.
  - destruct IH as (Hgrid & Hm & Hs & Hlast).
    split_and!; [by apply (grid_invariant_frame e)|done..].
  - by apply endGameSession_invariant.
  - by apply resetHeatmap_invariant.
  - by apply updateVisualIntensityFromDifficulty_invariant,
             updateVisualIntensityFromMovement_invariant.
  - by apply updateVisualIntensityFromMovement_invariant.
  - by apply updateVisualIntensityFromDifficulty_invariant.
Qed.

Lemma engine_run_invariant_witness :
  engine_invariant
    (endGameSession 90 40
       (updateFoodPlacementStrategy "accessible"
          (setDifficulty 3 (newAIEngine 20 400 400)))).
Proof.
  apply engine_run_invariant. do 3 constructor. constructor. lia.
Defined.

(** ** Stored snapshots: compression round trip *)

Section stored_snapshots.

Lemma fillSparse_row (width height : nat) (before after : list (list Z))
    (filled rest : list Z) :
  (length before < height)%nat →
  (length filled + length rest ≤ width)%nat →
  foldl (fillSparse width height)
    (before ++ (filled ++ replicate (length rest) 0) :: after)
    (sparseCells (length filled) (length before) rest)
  = before ++ (filled ++ (Z.max 0 <$> rest)) :: after.
Proof.
  intros Hy. revert filled.
  induction rest as [|value rest IH]; intros filled Hx; [done|].
  simpl in Hx. simpl sparseCells.
  assert (Hnext : ∀ v, filled ++ v :: replicate (length rest) 0
                       = (filled ++ [v]) ++ replicate (length rest) 0)
    by (intros v; by rewrite <- app_assoc).
  assert (Hlen : length (filled ++ [Z.max 0 value]) = S (length filled))
    by (rewrite length_app; simpl; lia).
  case_bool_decide as Hpos; simpl.
  - unfold fillSparse at 2. simpl.
    rewrite !bool_decide_eq_true_2 by lia. simpl.
    rewrite (alter_app_r_alt _ before), Nat.sub_diag by lia. simpl.
    rewrite (insert_app_r_alt filled), Nat.sub_diag by lia. simpl.
    replace value with (Z.max 0 value) at 1 by lia.
    rewrite Hnext, <- Hlen, IH by (rewrite Hlen; lia).
    by rewrite <- app_assoc.
  - replace 0 with (Z.max 0 value) at 1 by lia.
    rewrite Hnext, <- Hlen, IH by (rewrite Hlen; lia).
    by rewrite <- app_assoc.
Qed.

Lemma fillSparse_rows (width height : nat) (before rest : list (list Z)) :
  (length before + length rest ≤ height)%nat →
  Forall (λ row, length row = width) rest →
  foldl (fillSparse width height)
    (before ++ replicate (length rest) (replicate width 0))
    (sparseRows (length before) rest)
  = before ++ (fmap (M := list) (Z.max 0) <$> rest).
Proof.
  revert before. induction rest as [|row rest IH]; intros before Hy Hrows; [done|].
  inversion_clear Hrows as [|? ? Hrow Hrest]. simpl in Hy. simpl.
  rewrite foldl_app.
  pose proof (fillSparse_row width height before
                (replicate (length rest) (replicate width 0)) [] row) as Hfill.
  simpl in Hfill. rewrite Hrow in Hfill. rewrite Hfill by lia.
  replace (before ++ (Z.max 0 <$> row) :: replicate (length rest) (replicate width 0))
    with ((before ++ [Z.max 0 <$> row]) ++ replicate (length rest) (replicate width 0))
    by (by rewrite <- app_assoc).
  replace (S (length before)) with (length (before ++ [Z.max 0 <$> row]))
    by (rewrite length_app; simpl; lia).
  rewrite IH; [by rewrite <- app_assoc|rewrite length_app; simpl; lia|done].
Qed.

(** The heatmap that [decompressBehaviorData] rebuilds from the sparse
    form of a rectangular heatmap. *)
Lemma decompress_compress_heatmap (heatmap : list (list Z)) :
  rectangular heatmap →
  foldl (fillSparse (from_option length 0%nat (heatmap !! 0%nat)) (length heatmap))
    (replicate (length heatmap)
       (replicate (from_option length 0%nat (heatmap !! 0%nat)) 0))
    (sparseRows 0 heatmap)
  = fmap (M := list) (Z.max 0) <$> heatmap.
Proof.
  intros [width Hrows].
  assert (Hwidth : heatmap = [] ∨ from_option length 0%nat (heatmap !! 0%nat) = width).
  { destruct Hrows as [|row rows Hrow _]; [by left|by right]. }
  destruct Hwidth as [->| ->]; [done|].
  apply (fillSparse_rows width (length heatmap) [] heatmap); [simpl; lia|done].
Qed.

Lemma fmap_max_nonneg (heatmap : list (list Z)) :
  heatmap_nonneg heatmap → fmap (M := list) (Z.max 0) <$> heatmap = heatmap.
Proof.
  intros Hnonneg. rewrite <- (list_fmap_id heatmap) at 2.
  apply Forall_fmap_ext_1. eapply Forall_impl; [exact Hnonneg|].
  intros row Hrow. simpl. rewrite <- (list_fmap_id row) at 2.
  apply Forall_fmap_ext_1. eapply Forall_impl; [exact Hrow|].
  intros v Hv. simpl in *. lia.
Qed.
End stored_snapshots.

(** X16. Compressing a snapshot (not aggressively) and decompressing it
    again gives the snapshot back when its heatmap is rectangular and its
    counters are non-negative. For any rectangular heatmap the round trip
    keeps the positive counters and turns every other cell into [0]; the
    performance metrics and the adaptation settings are untouched. *)
Theorem decompressBehaviorData_compressBehaviorData (data : BehaviorData)
    (heatmap : list (list Z)) :
  data_movementHeatmap data = Some heatmap →
  rectangular heatmap →
  decompressBehaviorData (compressBehaviorData data false)
  = mkBehaviorData (Some (fmap (M := list) (Z.max 0) <$> heatmap))
      (data_performanceMetrics data) (data_adaptationSettings data)
  ∧ (heatmap_nonneg heatmap →
     decompressBehaviorData (compressBehaviorData data false) = data).
Proof.
  intros Hheatmap Hrect.
  assert (Hround : decompressBehaviorData (compressBehaviorData data false)
                   = mkBehaviorData (Some (fmap (M := list) (Z.max 0) <$> heatmap))
                       (data_performanceMetrics data) (data_adaptationSettings data)).
  { unfold decompressBehaviorData, compressBehaviorData. rewrite Hheatmap. simpl.
    rewrite (decompress_compress_heatmap heatmap Hrect). f_equal.
    destruct (data_performanceMetrics data) as [pm|]; [|done].
    by destruct (data_recentScores pm). }
  split; [done|]. intros Hnonneg.
  rewrite Hround, (fmap_max_nonneg heatmap Hnonneg), <- Hheatmap.
  by destruct data.
Qed.

Lemma decompressBehaviorData_compressBehaviorData_witness :
  let data := mkBehaviorData (Some [[0; 2; 0]; [1; 0; 5]]) None None in
  decompressBehaviorData (compressBehaviorData data false) = data.
Proof.
  intros data.
  refine (proj2 (decompressBehaviorData_compressBehaviorData data
                   [[0; 2; 0]; [1; 0; 5]] eq_refl _) _).
  - exists 3%nat. by repeat constructor.
  - by repeat constructor.
Defined.

(** X17. The snapshot of an engine that satisfies the invariants of the
    data model survives storage: after [compressBehaviorData] and
    [decompressBehaviorData] it passes [validateBehaviorData] and
    [isValidAIBehaviorData], and [loadBehaviorData] puts the heatmap, the
    performance metrics and the adaptation settings of the saved engine
    into any engine that loads it. *)
Theorem loadBehaviorData_restores_saved_state (e e0 : AIEngine) :
  engine_invariant e →
  let restored :=
    decompressBehaviorData (compressBehaviorData (getBehaviorData e) false) in
  validateBehaviorData restored = true
  ∧ isValidAIBehaviorData restored = true
  ∧ movementHeatmap (loadBehaviorData restored e0) = movementHeatmap e
  ∧ performanceMetrics (loadBehaviorData restored e0) = performanceMetrics e
  ∧ adaptationSettings (loadBehaviorData restored e0) = adaptationSettings e.
Proof.
  intros (((_ & _ & Hrows) & Hnonneg & _) & _ & (Hstrategy & _) & _) restored.
  assert (Hrestored : restored = getBehaviorData e).
  { unfold restored, decompressBehaviorData, compressBehaviorData. simpl.
    rewrite decompress_compress_heatmap by (by eexists).
    by rewrite (fmap_max_nonneg _ Hnonneg). }
  rewrite Hrestored. split_and!.
  - done.
  - unfold isValidAIBehaviorData, getBehaviorData. simpl.
    by rewrite (bool_decide_eq_true_2 _ Hstrategy).
  - done.
  - simpl. by destruct (performanceMetrics e).
  - simpl. by destruct (adaptationSettings e).
Qed.

Lemma loadBehaviorData_restores_saved_state_witness :
  let e := endGameSession 90 40 (setDifficulty 3 (newAIEngine 20 60 40)) in
  let e0 := newAIEngine 20 60 40 in
  let restored :=
    decompressBehaviorData (compressBehaviorData (getBehaviorData e) false) in
  engine_invariant e
  ∧ adaptationSettings (loadBehaviorData restored e0) = adaptationSettings e.
Proof.
  intros e e0 restored.
  assert (Hinv : engine_invariant e).
  { apply endGameSession_invariant, setDifficulty_invariant,
      newAIEngine_invariant. lia. }
  split; [exact Hinv|].
  apply (loadBehaviorData_restores_saved_state e e0 Hinv).
Defined.

(** ** The snake *)

Section snake.

Lemma Snake_setDirection_frame newDirection s :
  snake_gridSize (Snake_setDirection newDirection s) = snake_gridSize s
  ∧ segments (Snake_setDirection newDirection s) = segments s
  ∧ snake_direction (Snake_setDirection newDirection s) = snake_direction s.
Proof. unfold Snake_setDirection. by case_bool_decide. Qed.

(** What [move] does to the fields. *)
Lemma Snake_move_fields dir s :
  snake_gridSize (Snake_move dir s) = snake_gridSize s
  ∧ nextDirection (Snake_move dir s) = snake_direction (Snake_move dir s)
  ∧ segments (Snake_move dir s)
    = match segments s with
      | [] => []
      | head :: body =>
          movedHead (snake_gridSize s) (snake_direction (Snake_move dir s)) head
          :: removelast (head :: body)
      end.
Proof.
  unfold Snake_move.
  set (s1 := match dir with
             | Some d => if bool_decide (d = "") then s else Snake_setDirection d s
             | None => s
             end).
  assert (Hframe : snake_gridSize s1 = snake_gridSize s ∧ segments s1 = segments s).
  { unfold s1. destruct dir as [d|]; [|done]. case_bool_decide; [done|].
    by destruct (Snake_setDirection_frame d s) as (-> & -> & _). }
  destruct Hframe as [-> ->]. simpl. split_and!; [done..|].
  by destruct (segments s).
Qed.

(** What [grow] does to the fields. *)
Lemma Snake_grow_fields s head body :
  segments s = head :: body →
  ∃ newTail,
    Snake_grow s
    = Some (mkSnake (snake_gridSize s) (snake_canvasWidth s) (snake_canvasHeight s)
              (segments s ++ [newTail]) (snake_direction s) (nextDirection s)).
Proof.
  intros Hsegments. unfold Snake_grow.
  destruct (reverse (segments s)) as [|tail before] eqn:Hreverse.
  - apply (f_equal reverse) in Hreverse. rewrite reverse_involutive in Hreverse.
    by rewrite Hsegments in Hreverse.
  - by eexists.
Qed.

Lemma Snake_grow_None s : Snake_grow s = None ↔ segments s = [].
Proof.
  unfold Snake_grow. split.
  - destruct (reverse (segments s)) eqn:Hreverse; [|done]. intros _.
    apply (f_equal reverse) in Hreverse. by rewrite reverse_involutive in Hreverse.
  - by intros ->.
Qed.

Lemma length_removelast_cons {A} (x : A) (l : list A) :
  length (removelast (x :: l)) = length l.
Proof.
  rewrite removelast_firstn_len, length_take. simpl. lia.
Qed.

(** A call on a snake that has segments succeeds; only [grow] changes the
    number of segments. *)
Lemma snakeCall_length c s :
  segments s ≠ [] →
  ∃ s', snakeCall c s = Some s'
        ∧ length (segments s')
          = (length (segments s) + if decide (CallGrow = c) then 1 else 0)%nat.
Proof.
  intros Hsegments. destruct c as [dir| |newDirection]; simpl.
  - eexists. split; [done|].
    destruct (Snake_move_fields dir s) as (_ & _ & ->).
    destruct (segments s) as [|head body]; [done|].
    rewrite length_cons, length_removelast_cons, length_cons. simpl. lia.
  - destruct (segments s) as [|head body] eqn:Hs; [done|].
    destruct (Snake_grow_fields s head body Hs) as [newTail ->].
    eexists. split; [done|]. simpl. rewrite Hs, length_app. simpl. lia.
  - eexists. split; [done|].
    destruct (Snake_setDirection_frame newDirection s) as (_ & -> & _). lia.
Qed.

Lemma snakeCalls_length cs s :
  segments s ≠ [] →
  ∃ s', snakeCalls cs s = Some s'
        ∧ length (segments s')
          = (length (segments s) + length (filter (CallGrow =.) cs))%nat.
Proof.
  revert s. induction cs as [|c cs IH]; intros s Hsegments.
  - exists s. simpl. split; [done|lia].
  - destruct (snakeCall_length c s Hsegments) as (s1 & Hcall & Hlength).
    destruct (IH s1) as (s' & Hcalls & Hlength').
    { intros Hempty. rewrite Hempty in Hlength. simpl in Hlength.
      destruct (segments s); [done|simpl in Hlength; lia]. }
    exists s'. simpl. rewrite Hcall. simpl. split; [done|].
    rewrite Hlength', Hlength, filter_cons.
    destruct (decide (CallGrow = c)); simpl; lia.
Qed.
End snake.

(** X18. From the constructor on, every sequence of [move], [grow] and
    [setDirection] calls succeeds, and the snake has 3 segments plus one
    for each call of [grow]: [move] and [setDirection] never change the
    number of segments. *)
Theorem snakeCalls_segments_count gs cw ch cs :
  ∃ s, snakeCalls cs (newSnake gs cw ch) = Some s
       ∧ length (segments s) = (3 + length (filter (CallGrow =.) cs))%nat.
Proof.
  destruct (snakeCalls_length cs (newSnake gs cw ch)) as (s & Hcalls & Hlength);
    [done|].
  exists s. split; [done|]. by rewrite Hlength.
Qed.

(** X19. [grow] followed by [move]: the segment that [grow] appends is the
    one that [move] removes, so the snake keeps all the segments it had
    before [grow] and gets a new head in front of them. *)
Theorem Snake_move_after_grow s s1 dir :
  Snake_grow s = Some s1 →
  ∃ head body,
    segments s = head :: body
    ∧ snake_direction (Snake_move dir s1) = snake_direction (Snake_move dir s)
    ∧ segments (Snake_move dir s1)
      = movedHead (snake_gridSize s) (snake_direction (Snake_move dir s)) head
        :: segments s.
Proof.
  intros Hgrow. destruct (segments s) as [|head body] eqn:Hs.
  { apply Snake_grow_None in Hs. congruence. }
  destruct (Snake_grow_fields s head body Hs) as [newTail Hs1].
  rewrite Hs1 in Hgrow. injection Hgrow as <-.
  exists head, body. split; [done|].
  assert (Hdir : snake_direction
                   (Snake_move dir
                      (mkSnake (snake_gridSize s) (snake_canvasWidth s)
                         (snake_canvasHeight s) (segments s ++ [newTail])
                         (snake_direction s) (nextDirection s)))
                 = snake_direction (Snake_move dir s)).
  { unfold Snake_move, Snake_setDirection. simpl.
    destruct dir as [d|]; [|done]. repeat case_bool_decide; done. }
  split; [done|].
  match goal with
  | |- segments (Snake_move dir ?s1) = _ =>
      destruct (Snake_move_fields dir s1) as (_ & _ & ->)
  end.
  rewrite Hdir. cbn [segments snake_gridSize]. rewrite Hs.
  change ((head :: body) ++ [newTail]) with (head :: (body ++ [newTail])).
  cbv iota beta. f_equal.
  change (head :: body ++ [newTail]) with ((head :: body) ++ [newTail]).
  by rewrite removelast_last.
Qed.

Lemma Snake_move_after_grow_witness :
  segments (Snake_move (Some "up")
              (mkSnake 20 400 400
                 [mkPosition 200 200; mkPosition 180 200; mkPosition 160 200;
                  mkPosition 140 200] "right" "right"))
  = [mkPosition 200 180; mkPosition 200 200; mkPosition 180 200; mkPosition 160 200].
Proof.
  destruct (Snake_move_after_grow (newSnake 20 400 400)
              (mkSnake 20 400 400
                 [mkPosition 200 200; mkPosition 180 200; mkPosition 160 200;
                  mkPosition 140 200] "right" "right") (Some "up") eq_refl)
    as (head & body & Hs & _ & ->).
  injection Hs as <- <-. reflexivity.
Defined.

(** ** The snake: direction *)

Section snake_direction.

Lemma opposites_involutive d d' : opposites d = Some d' → opposites d' = Some d.
Proof.
  unfold opposites. repeat case_bool_decide; intros [= <-]; by subst.
Qed.

Lemma opposites_known d : d ∈ fourDirections → is_Some (opposites d).
Proof.
  unfold fourDirections. rewrite !elem_of_cons, elem_of_nil.
  intros [-> | [-> | [-> | [-> | []]]]]; by eexists.
Qed.

Lemma opposites_differs d : opposites d ≠ Some d.
Proof. unfold opposites. repeat case_bool_decide; congruence. Qed.

(** One step back and one step in another direction do not cancel. *)
Lemma movedHead_not_back gs d d' neck :
  gs ≠ 0 → d ∈ fourDirections → d' ∈ fourDirections →
  opposites d' ≠ Some d →
  movedHead gs d' (movedHead gs d neck) ≠ neck
  ∧ movedHead gs d' (movedHead gs d neck) ≠ movedHead gs d neck.
Proof.
  intros Hgs Hd Hd' Hopp.
  assert (Hcases : ∀ d0, d0 ∈ fourDirections →
                         d0 = "up" ∨ d0 = "down" ∨ d0 = "left" ∨ d0 = "right").
  { intros d0. unfold fourDirections. rewrite !elem_of_cons, elem_of_nil. tauto. }
  destruct (Hcases d Hd) as [-> | [-> | [-> | ->]]],
    (Hcases d' Hd') as [-> | [-> | [-> | ->]]];
    try (exfalso; apply Hopp; reflexivity);
    destruct neck as [nx ny]; unfold movedHead; simpl;
    split; intros [=]; lia.
Qed.

Lemma Snake_setDirection_no_reversal newDirection s :
  newDirection ∈ fourDirections →
  no_reversal_pending s → no_reversal_pending (Snake_setDirection newDirection s).
Proof.
  intros Hknown (Hd & Hn & Hopp). unfold Snake_setDirection.
  case_bool_decide; by split_and!.
Qed.

Lemma Snake_move_no_reversal dir s :
  knownDirection (CallMove dir) →
  no_reversal_pending s →
  no_reversal_pending (Snake_move dir s)
  ∧ snake_direction (Snake_move dir s) ∈ fourDirections
  ∧ opposites (snake_direction (Snake_move dir s)) ≠ Some (snake_direction s).
Proof.
  intros Hknown Hs.
  assert (Hs1 : ∃ s1, no_reversal_pending s1
                      ∧ snake_direction s1 = snake_direction s
                      ∧ snake_direction (Snake_move dir s) = nextDirection s1).
  { destruct dir as [d|]; [|by exists s]. unfold Snake_move.
    case_bool_decide; [by exists s|].
    exists (Snake_setDirection d s). split_and!; [|by apply Snake_setDirection_frame|done].
    by apply Snake_setDirection_no_reversal. }
  destruct Hs1 as (s1 & (Hd & Hn & Hopp) & Hsame & Hmoved).
  destruct (Snake_move_fields dir s) as (_ & Hnext & _).
  split_and!.
  - unfold no_reversal_pending. rewrite Hnext, Hmoved.
    split_and!; [done..|apply opposites_differs].
  - by rewrite Hmoved.
  - by rewrite Hmoved, <- Hsame.
Qed.

Lemma head_follows_neck_new gs cw ch : head_follows_neck (newSnake gs cw ch).
Proof.
  eexists _, _, _. split; [reflexivity|]. simpl.
  unfold movedHead. simpl. f_equal. lia.
Qed.

Lemma Snake_move_head_follows_neck dir s :
  head_follows_neck s → head_follows_neck (Snake_move dir s).
Proof.
  intros (head & neck & body & Hs & _).
  destruct (Snake_move_fields dir s) as (Hgs & _ & Hsegments).
  rewrite Hs in Hsegments.
  exists (movedHead (snake_gridSize s) (snake_direction (Snake_move dir s)) head),
    head, (removelast (neck :: body)).
  split; [done|]. by rewrite Hgs.
Qed.

Lemma snakeCall_head_follows_neck c s s' :
  head_follows_neck s → snakeCall c s = Some s' →
  head_follows_neck s' ∧ snake_gridSize s' = snake_gridSize s.
Proof.
  intros Hs Hcall. destruct c as [dir| |newDirection]; simpl in Hcall.
  - injection Hcall as <-. split; [by apply Snake_move_head_follows_neck|].
    apply Snake_move_fields.
  - destruct Hs as (head & neck & body & Hs & Hhead).
    destruct (Snake_grow_fields s _ _ Hs) as [newTail Hgrow].
    rewrite Hgrow in Hcall. injection Hcall as <-. split; [|done].
    exists head, neck, (body ++ [newTail]). simpl. by rewrite Hs.
  - injection Hcall as <-.
    destruct (Snake_setDirection_frame newDirection s) as (Hgs & Hsegments & Hd).
    split; [|done]. destruct Hs as (head & neck & body & Hs & Hhead).
    exists head, neck, body. by rewrite Hgs, Hsegments, Hd.
Qed.

Lemma snakeCalls_head_follows_neck cs s s' :
  head_follows_neck s → snakeCalls cs s = Some s' →
  head_follows_neck s' ∧ snake_gridSize s' = snake_gridSize s.
Proof.
  revert s. induction cs as [|c cs IH]; intros s Hs Hcalls; simpl in Hcalls.
  - by injection Hcalls as <-.
  - destruct (snakeCall c s) as [s1|] eqn:Hcall; [simpl in Hcalls|done].
    destruct (snakeCall_head_follows_neck c s s1 Hs Hcall) as [Hs1 Hgs1].
    destruct (IH s1 Hs1 Hcalls) as [Hs' Hgs']. split; [done|congruence].
Qed.

Lemma snakeCall_no_reversal c s s' :
  knownDirection c → no_reversal_pending s → snakeCall c s = Some s' →
  no_reversal_pending s'.
Proof.
  intros Hknown Hs Hcall. destruct c as [dir| |newDirection]; simpl in Hcall.
  - injection Hcall as <-. by apply Snake_move_no_reversal.
  - unfold Snake_grow in Hcall. destruct (reverse (segments s)); [done|].
    by injection Hcall as <-.
  - injection Hcall as <-. by apply Snake_setDirection_no_reversal.
Qed.

Lemma snakeCalls_no_reversal cs s s' :
  Forall knownDirection cs → no_reversal_pending s → snakeCalls cs s = Some s' →
  no_reversal_pending s'.
Proof.
  intros Hknown. revert s.
  induction Hknown as [|c cs Hc _ IH]; intros s Hs Hcalls; simpl in Hcalls.
  - by injection Hcalls as <-.
  - destruct (snakeCall c s) as [s1|] eqn:Hcall; [simpl in Hcalls|done].
    eapply IH; [|done]. by eapply snakeCall_no_reversal.
Qed.
End snake_direction.

(** X20. The snake never turns back onto itself: after any sequence of
    calls from the constructor that passes only the four directions (or
    none), with a non-zero cell size, [move] puts the head on a cell that
    is neither the former head nor the second segment, and the new
    direction is not the opposite of the former one, whichever of the
    four directions (or none) [move] is given. *)
Theorem Snake_move_never_reverses gs cw ch cs s dir :
  gs ≠ 0 →
  Forall knownDirection cs →
  knownDirection (CallMove dir) →
  snakeCalls cs (newSnake gs cw ch) = Some s →
  ∃ head neck body head',
    segments s = head :: neck :: body
    ∧ Snake_getPosition (Snake_move dir s) = Some head'
    ∧ head' ≠ neck ∧ head' ≠ head
    ∧ opposites (snake_direction (Snake_move dir s)) ≠ Some (snake_direction s).
Proof.
  intros Hgs Hcs Hdir Hcalls.
  destruct (snakeCalls_head_follows_neck cs _ s (head_follows_neck_new gs cw ch) Hcalls)
    as [(head & neck & body & Hs & Hhead) Hsize]. simpl in Hsize.
  assert (Hpending : no_reversal_pending s).
  { apply (snakeCalls_no_reversal cs (newSnake gs cw ch)); [done| |done].
    unfold no_reversal_pending, fourDirections. simpl.
    split_and!; [apply (bool_decide_unpack _); closed_fact..|done]. }
  destruct (Snake_move_no_reversal dir s Hdir Hpending) as (_ & Hknown & Hopp).
  destruct (Snake_move_fields dir s) as (_ & _ & Hsegments).
  rewrite Hs in Hsegments.
  exists head, neck, body,
    (movedHead (snake_gridSize s) (snake_direction (Snake_move dir s)) head).
  split; [done|]. split; [unfold Snake_getPosition; by rewrite Hsegments|].
  rewrite Hhead, Hsize.
  destruct (movedHead_not_back gs (snake_direction s)
              (snake_direction (Snake_move dir s)) neck) as [Hneck Hhead'];
    [done|apply Hpending|done|done|].
  by split_and!.
Qed.

Lemma Snake_move_never_reverses_witness :
  let s := Snake_move (Some "up") (newSnake 20 400 400) in
  ∃ head neck body head',
    segments s = head :: neck :: body
    ∧ Snake_getPosition (Snake_move (Some "down") s) = Some head'
    ∧ head' ≠ neck ∧ head' ≠ head
    ∧ opposites (snake_direction (Snake_move (Some "down") s))
      ≠ Some (snake_direction s).
Proof.
  intros s.
  apply (Snake_move_never_reverses 20 400 400 [CallMove (Some "up")] s (Some "down")).
  - lia.
  - constructor; [|constructor]. apply (bool_decide_unpack _). closed_fact.
  - apply (bool_decide_unpack _). closed_fact.
  - reflexivity.
Defined.

(** ** The game: danger level and speed *)

(** X21. While the game is playing, [calculateDangerLevel] is [1] for
    every snake that the calls of [move], [grow] and [setDirection] reach
    from the constructor, with a positive cell size: the second segment is
    always within one cell of the head, so the loop over the body stops at
    its first round, whatever the distance to the walls is. *)
Theorem calculateDangerLevel_playing gs cw ch cs s :
  0 < gs →
  snakeCalls cs (newSnake gs cw ch) = Some s →
  calculateDangerLevel "playing" gs cw ch (Some s) = Some 1%Q.
Proof.
  intros Hgs Hcalls.
  destruct (snakeCalls_head_follows_neck cs _ s (head_follows_neck_new gs cw ch) Hcalls)
    as [(head & neck & body & Hs & Hhead) Hsize]. simpl in Hsize.
  unfold calculateDangerLevel, Snake_getPosition, Snake_getSegments.
  rewrite Hs. simpl.
  assert (Hnear : Z.abs (pos_x head - pos_x neck) + Z.abs (pos_y head - pos_y neck) ≤ gs).
  { rewrite Hhead, Hsize. unfold movedHead.
    repeat case_bool_decide; simpl; lia. }
  rewrite (bool_decide_eq_true_2 _ Hnear).
  repeat case_bool_decide; reflexivity.
Qed.

Lemma calculateDangerLevel_playing_witness :
  calculateDangerLevel "playing" 20 400 400
    (Some (Snake_move (Some "up") (newSnake 20 400 400))) = Some 1%Q.
Proof.
  apply (calculateDangerLevel_playing 20 400 400 [CallMove (Some "up")]);
    [lia|reflexivity].
Defined.

Section game_speed.

Lemma calculateMoveInterval_antitone d1 d2 :
  (d1 <= d2)%Q → calculateMoveInterval d2 ≤ calculateMoveInterval d1.
Proof.
  intros Hle. unfold calculateMoveInterval, js_round. apply Qfloor_resp_le.
  assert (H1 : ((d1 - 1) / 9 == (d1 - 1) * (1 # 9))%Q) by field.
  assert (H2 : ((d2 - 1) / 9 == (d2 - 1) * (1 # 9))%Q) by field.
  rewrite H1, H2. lra.
Qed.
End game_speed.

(** X22. For difficulties 1 <= d1 <= d2 <= 10 the move interval of d2 is
    at most the one of d1, and both lie between 80 ms (the interval at
    difficulty 10) and 200 ms (the interval at difficulty 1). *)
Theorem calculateMoveInterval_range d1 d2 :
  (1 <= d1)%Q → (d1 <= d2)%Q → (d2 <= 10)%Q →
  calculateMoveInterval 10 = 80
  ∧ 80 ≤ calculateMoveInterval d2
  ∧ calculateMoveInterval d2 ≤ calculateMoveInterval d1
  ∧ calculateMoveInterval d1 ≤ 200
  ∧ calculateMoveInterval 1 = 200.
Proof.
  intros Hlow Hle Hhigh.
  assert (H10 : calculateMoveInterval 10 = 80) by closed_fact.
  assert (H1 : calculateMoveInterval 1 = 200) by closed_fact.
  split_and!; [done| | | |done].
  - rewrite <- H10. by apply calculateMoveInterval_antitone.
  - by apply calculateMoveInterval_antitone.
  - rewrite <- H1. by apply calculateMoveInterval_antitone.
Qed.

Lemma calculateMoveInterval_range_witness :
  80 ≤ calculateMoveInterval 7
  ∧ calculateMoveInterval 7 ≤ calculateMoveInterval (5 # 2)
  ∧ calculateMoveInterval (5 # 2) ≤ 200.
Proof.
  destruct (calculateMoveInterval_range (5 # 2) 7) as (_ & H1 & H2 & H3 & _);
    try (vm_compute; discriminate).
  by split_and!.
Defined.

(** ** The snake: collisions *)

Section self_collision.

Variable gs : Z.
Hypothesis Hgs : gs ≠ 0.

Lemma fourDirections_cases d :
  d ∈ fourDirections → d = "up" ∨ d = "down" ∨ d = "left" ∨ d = "right".
Proof. unfold fourDirections. rewrite !elem_of_cons, elem_of_nil. tauto. Qed.

Lemma adjacent_differs a b : adjacent gs a b → a ≠ b.
Proof.
  intros (d & Hd & ->). destruct b as [bx b_y].
  destruct (fourDirections_cases d Hd) as [-> | [-> | [-> | ->]]];
    unfold movedHead; simpl; intros [=]; lia.
Qed.

(** Three steps never lead back to the cell they started from. *)
Lemma adjacent_three a b c d : 
  adjacent gs a b → adjacent gs b c → adjacent gs c d → a ≠ d.
Proof.
  intros (d1 & Hd1 & ->) (d2 & Hd2 & ->) (d3 & Hd3 & ->). destruct d as [dx dy].
  destruct (fourDirections_cases d1 Hd1) as [-> | [-> | [-> | ->]]],
    (fourDirections_cases d2 Hd2) as [-> | [-> | [-> | ->]]],
    (fourDirections_cases d3 Hd3) as [-> | [-> | [-> | ->]]];
    unfold movedHead; simpl; intros [=]; lia.
Qed.

Lemma chained_removelast segs : chained gs segs → chained gs (removelast segs).
Proof.
  induction segs as [|a segs IH]; [done|].
  destruct segs as [|b segs]; [done|]. intros [Hab Hrest].
  change (removelast (a :: b :: segs)) with (a :: removelast (b :: segs)).
  destruct segs as [|c segs]; [done|].
  change (removelast (b :: c :: segs)) with (b :: removelast (c :: segs)) in *.
  split; [done|]. by apply IH.
Qed.

(** The segment that [grow] appends continues the chain. *)
Lemma chained_grow segs secondToLast tail :
  chained gs (segs ++ [secondToLast; tail]) →
  chained gs
    (segs ++ [secondToLast; tail;
              mkPosition (pos_x tail + (pos_x tail - pos_x secondToLast))
                (pos_y tail + (pos_y tail - pos_y secondToLast))]).
Proof.
  induction segs as [|a segs IH].
  - intros [(d & Hd & ->) _]. simpl. split; [by exists d|]. split; [|done].
    exists d. split; [done|]. destruct tail as [tx ty].
    destruct (fourDirections_cases d Hd) as [-> | [-> | [-> | ->]]];
      unfold movedHead; simpl; f_equal; lia.
  - destruct segs as [|b segs]; intros [Hab Hrest]; (split; [done|]); by apply IH.
Qed.

Lemma snake_invariant_new cw ch : snake_invariant gs (newSnake gs cw ch).
Proof.
  split_and!.
  - done.
  - apply head_follows_neck_new.
  - unfold no_reversal_pending, fourDirections. simpl.
    split_and!; [apply (bool_decide_unpack _); closed_fact..|done].
  - simpl. split_and!; [| |done]; (exists "right"; split;
      [apply (bool_decide_unpack _); closed_fact|]);
      unfold movedHead; simpl; f_equal; lia.
  - intros head neck third rest [= <- _ <- _]. intros [=]. lia.
Qed.

Lemma snakeCall_invariant c s s' :
  knownDirection c → snake_invariant gs s → snakeCall c s = Some s' →
  snake_invariant gs s'.
Proof.
  intros Hknown (Hsize & Hneck & Hpending & Hchain & Hfold) Hcall.
  destruct (snakeCall_head_follows_neck c s s' Hneck Hcall) as [Hneck' Hsize'].
  pose proof (snakeCall_no_reversal c s s' Hknown Hpending Hcall) as Hpending'.
  split_and!; [congruence|done|done| |];
    destruct Hneck as (head & neck & body & Hs & Hhead);
    destruct c as [dir| |newDirection]; simpl in Hcall.
  - injection Hcall as <-.
    destruct (Snake_move_fields dir s) as (_ & _ & ->). rewrite Hs, Hsize.
    change (removelast (head :: neck :: body)) with (head :: removelast (neck :: body)).
    split.
    + eexists. split; [|done]. by apply Snake_move_no_reversal.
    + rewrite Hs in Hchain. apply (chained_removelast (head :: neck :: body) Hchain).
  - unfold Snake_grow in Hcall.
    destruct (reverse (segments s)) as [|tail before] eqn:Hreverse; [done|].
    injection Hcall as <-. simpl.
    apply (f_equal reverse) in Hreverse. rewrite reverse_involutive in Hreverse.
    destruct before as [|secondToLast before].
    { rewrite Hs in Hreverse. done. }
    rewrite reverse_cons, reverse_cons, <- app_assoc in Hreverse. simpl in Hreverse.
    rewrite Hreverse, <- app_assoc. simpl.
    apply chained_grow. by rewrite <- Hreverse.
  - injection Hcall as <-.
    by destruct (Snake_setDirection_frame newDirection s) as (_ & -> & _).
  - injection Hcall as <-.
    destruct (Snake_move_fields dir s) as (_ & _ & ->). rewrite Hs, Hsize.
    change (removelast (head :: neck :: body)) with (head :: removelast (neck :: body)).
    destruct body as [|third body]; [by intros ? ? ? ? [=]|].
    change (removelast (neck :: third :: body))
      with (neck :: removelast (third :: body)).
    intros ? ? ? ? [= <- _ <- _]. rewrite Hhead, Hsize.
    apply movedHead_not_back; [done|apply Hpending| |];
      by apply Snake_move_no_reversal.
  - unfold Snake_grow in Hcall.
    destruct (reverse (segments s)) as [|tail before] eqn:Hreverse; [done|].
    injection Hcall as <-. simpl. rewrite Hs.
    destruct body as [|third body].
    + rewrite Hs in Hreverse. injection Hreverse as <- <-.
      intros ? ? ? ? [= <- _ <- _].
      rewrite Hs in Hchain. destruct Hchain as [(d & Hd & ->) _].
      destruct neck as [nx ny].
      destruct (fourDirections_cases d Hd) as [-> | [-> | [-> | ->]]];
        unfold movedHead; simpl; intros [=]; lia.
    + intros ? ? ? ? [= <- _ <- _]. by eapply Hfold.
  - injection Hcall as <-.
    by destruct (Snake_setDirection_frame newDirection s) as (_ & -> & _).
Qed.

Lemma snakeCalls_invariant cs s s' :
  Forall knownDirection cs → snake_invariant gs s → snakeCalls cs s = Some s' →
  snake_invariant gs s'.
Proof.
  intros Hknown. revert s.
  induction Hknown as [|c cs Hc _ IH]; intros s Hs Hcalls; simpl in Hcalls.
  - by injection Hcalls as <-.
  - destruct (snakeCall c s) as [s1|] eqn:Hcall; [simpl in Hcalls|done].
    eapply IH; [|done]. by eapply snakeCall_invariant.
Qed.

Lemma not_on_segment (head segment : Position) :
  head ≠ segment →
  bool_decide (pos_x head = pos_x segment ∧ pos_y head = pos_y segment) = false.
Proof.
  intros Hne. apply bool_decide_eq_false. intros [Hx Hy]. apply Hne.
  destruct head, segment. simpl in *. by subst.
Qed.

(** With at most four segments the head is on no other segment. *)
Lemma short_snake_no_self_collision s head body :
  snake_invariant gs s → segments s = head :: body → (length body ≤ 3)%nat →
  existsb (λ segment,
      bool_decide (pos_x head = pos_x segment ∧ pos_y head = pos_y segment)) body
  = false.
Proof.
  intros (_ & _ & _ & Hchain & Hfold) Hs Hlength. rewrite Hs in Hchain, Hfold.
  destruct body as [|neck [|third [|fourth [|]]]]; simpl in *; [done| | | |lia].
  - destruct Hchain as [Hhn _]. by rewrite not_on_segment by by apply adjacent_differs.
  - destruct Hchain as (Hhn & Hnt & _).
    rewrite not_on_segment by by apply adjacent_differs.
    by rewrite not_on_segment by by eapply Hfold.
  - destruct Hchain as (Hhn & Hnt & Htf & _).
    rewrite not_on_segment by by apply adjacent_differs.
    rewrite not_on_segment by by eapply Hfold.
    by rewrite not_on_segment by by eapply adjacent_three.
Qed.
End self_collision.

(** X23. A snake of at most four segments cannot run into itself: after
    any sequence of calls from the constructor that passes only the four
    directions (or none), with a non-zero cell size, [checkCollision] on
    such a snake reports a collision exactly when the head is outside the
    canvas. *)
Theorem Snake_checkCollision_short_snake gs cw ch cs s :
  gs ≠ 0 →
  Forall knownDirection cs →
  snakeCalls cs (newSnake gs cw ch) = Some s →
  (length (segments s) ≤ 4)%nat →
  ∃ head,
    Snake_getPosition s = Some head
    ∧ Snake_checkCollision s = Some (bool_decide (outside_canvas s head)).
Proof.
  intros Hgs Hknown Hcalls Hlength.
  pose proof (snakeCalls_invariant gs Hgs cs _ s Hknown
                (snake_invariant_new gs Hgs cw ch) Hcalls) as Hinv.
  destruct (proj1 (proj2 Hinv)) as (head & neck & body & Hs & _).
  exists head. unfold Snake_getPosition, Snake_checkCollision, outside_canvas.
  rewrite Hs. split; [done|].
  case_bool_decide as Hwall; [done|]. f_equal.
  apply (short_snake_no_self_collision gs Hgs s); [done..|].
  rewrite Hs in Hlength. simpl in *. lia.
Qed.

Lemma Snake_checkCollision_short_snake_witness :
  let cs := [CallMove (Some "up"); CallGrow; CallMove (Some "left");
             CallMove (Some "down")] in
  ∃ s head,
    snakeCalls cs (newSnake 20 400 400) = Some s
    ∧ Snake_getPosition s = Some head
    ∧ Snake_checkCollision s = Some (bool_decide (outside_canvas s head)).
Proof.
  intros cs. eexists.
  assert (Hcalls : snakeCalls cs (newSnake 20 400 400) = Some _) by reflexivity.
  destruct (Snake_checkCollision_short_snake 20 400 400 cs _ ltac:(lia)
              ltac:(repeat constructor; apply (bool_decide_unpack _); closed_fact)
              Hcalls ltac:(vm_compute; lia)) as (head & Hhead & Hcollision).
  exists head. by split_and!.
Defined.
